(** * TSGraph: a shallow embedding of the TSMT graph classes

    The TypeScript classes [TSMT$GraphArc], [TSMT$GraphNode] and
    [TSMT$Graph] and the adapter [graphFromList] are embedded as functions
    over an explicit object store.  Objects live in two arrays (one per
    class); a reference is an index into the array of its class.  Every
    [while] loop of the source walks a linked list that may be cyclic, so
    each loop takes a fuel argument and reports [OutOfFuel] when it is
    exhausted; dereferencing [null] or [undefined] reports [TypeError]. *)

From Stdlib Require Import ZArith Bool SpecFloat.
From stdpp Require Import base option list gmap strings.

Set Default Proof Using "Type".
Local Open Scope Z_scope.

(** ** JavaScript numbers and references *)

(** A JavaScript number is an IEEE-754 double; [spec_float] is its data. *)
Definition number : Type := spec_float.

Definition isNaN (v : number) : bool :=
  match v with S754_nan => true | _ => false end.

Definition isFinite (v : number) : bool :=
  match v with S754_zero _ | S754_finite _ _ _ => true | _ => false end.

Definition num_zero : number := S754_zero false.

(** 1.0 as a double: mantissa 2^52, exponent -52. *)
Definition num_one : number := S754_finite false 4503599627370496 (-52).

(** [v >= w] of JavaScript: false as soon as one side is NaN. *)
Definition num_ge (v w : number) : bool := SFleb w v.

(** [Math.max(a, b)]: NaN if either is NaN, and +0 is larger than -0. *)
Definition Math_max (a b : number) : number :=
  if isNaN a || isNaN b then S754_nan
  else if SFltb a b then b
  else if SFltb b a then a
  else match a, b with
       | S754_zero true, S754_zero s => S754_zero s
       | _, _ => a
       end.

(** A reference value: [undefined], [null] or an object of the store. *)
Inductive jsref : Type :=
  | undefined
  | null
  | obj (a : nat).

#[global] Instance jsref_eq_dec : EqDecision jsref.
Proof. solve_decision. Defined.

(** [r != null] (loose): neither [null] nor [undefined]. *)
Definition non_null (r : jsref) : bool :=
  match r with obj _ => true | _ => false end.

(** [r == s] on references: [null] and [undefined] are loosely equal. *)
Definition ref_loose_eq (r s : jsref) : bool :=
  match r, s with
  | obj a, obj b => Nat.eqb a b
  | obj _, _ | _, obj _ => false
  | _, _ => true
  end.

(** [r === s] on references. *)
Definition ref_strict_eq (r s : jsref) : bool := bool_decide (r = s).

(** ** Results and the state-and-error monad *)

Inductive Res (A : Type) : Type :=
  | Ok (a : A)
  | TypeError
  | OutOfFuel.
Arguments Ok {A} a.
Arguments TypeError {A}.
Arguments OutOfFuel {A}.

Definition M (S A : Type) : Type := S → Res (A * S).

Definition ret {S A} (a : A) : M S A := fun s => Ok (a, s).

Definition bind {S A B} (m : M S A) (k : A → M S B) : M S B :=
  fun s => match m s with
           | Ok (a, s') => k a s'
           | TypeError => TypeError
           | OutOfFuel => OutOfFuel
           end.

Definition throw {S A} : M S A := fun _ => TypeError.
Definition timeout {S A} : M S A := fun _ => OutOfFuel.
Definition get {S} : M S S := fun s => Ok (s, s).
Definition modify {S} (f : S → S) : M S unit := fun s => Ok (tt, f s).

Declare Scope js_scope.
Delimit Scope js_scope with js.
Notation "'let!' x ':=' m 'in' k" := (bind m (fun x => k))
  (at level 10, x name, m at level 100, k at level 200,
   format "'[v' 'let!'  x  ':='  m  'in' '/' k ']'") : js_scope.
Notation "m ';;;' k" := (bind m (fun _ => k))
  (at level 100, k at level 200, right associativity,
   format "'[v' m  ';;;' '/' k ']'") : js_scope.
Local Open Scope js_scope.

(** [if (c) { m }] *)
Definition when_ {S} (c : bool) (m : M S unit) : M S unit :=
  if c then m else ret tt.

(** [array.forEach(f)] *)
Fixpoint forEach {S A} (l : list A) (f : A → M S unit) : M S unit :=
  match l with
  | [] => ret tt
  | x :: l' => f x ;;; forEach l' f
  end.

(** ** TSMT$GraphArc *)

Module GraphArc.

Record t : Type := mk {
  _node : jsref;     (* node this arc points to *)
  _prev : jsref;     (* previous arc in a list *)
  _next : jsref;     (* next arc in a list *)
  _cost : number     (* numerical cost of this arc *)
}.

(** [new TSMT$GraphArc(node, cost)] *)
Definition constructor (node : jsref) (cost : number) : t :=
  {| _node := match node with undefined => null | _ => node end;
     _cost := cost; _next := null; _prev := null |}.

Definition clear (_ : t) : t :=
  {| _node := null; _next := null; _prev := null; _cost := num_zero |}.

Definition cost (a : t) : number := _cost a.

Definition set_cost (value : number) (a : t) : t :=
  {| _node := _node a; _prev := _prev a; _next := _next a;
     _cost := if negb (isNaN value) && isFinite value && num_ge value num_zero
              then value else _cost a |}.

Definition previous (a : t) : jsref := _prev a.

Definition set_previous (arc : jsref) (a : t) : t :=
  {| _node := _node a; _next := _next a; _cost := _cost a;
     _prev := if negb (ref_strict_eq arc undefined) && non_null arc
              then arc else _prev a |}.

Definition next (a : t) : jsref := _next a.

Definition set_next (arc : jsref) (a : t) : t :=
  {| _node := _node a; _prev := _prev a; _cost := _cost a;
     _next := if negb (ref_strict_eq arc undefined) && non_null arc
              then arc else _next a |}.

Definition node (a : t) : jsref := _node a.

Definition set_node (value : jsref) (a : t) : t :=
  {| _prev := _prev a; _next := _next a; _cost := _cost a;
     _node := if negb (ref_strict_eq value undefined) && non_null value
              then value else _node a |}.

End GraphArc.

(** ** TSMT$GraphNode *)

(** A node id is a string or a number. *)
Inductive NodeId : Type :=
  | IdNum (x : number)
  | IdStr (s : string).

Module GraphNode.
Section WithValue.
Context {V : Type}.

(** A node value of type [T] is [Some v]; [null] is [None]. *)
Record t : Type := mk {
  _id : NodeId;          (* id associated with this node *)
  _val : option V;       (* value of this node *)
  _prev : jsref;         (* previous node in a list *)
  _next : jsref;         (* next node in a list *)
  _arcList : jsref;      (* head of the list of arcs of this node *)
  _curArc : jsref;       (* most recently added arc out of this node *)
  _marked : bool;        (* marked in a traversal *)
  _parent : jsref;       (* parent of this node *)
  _depth : number        (* traversal depth *)
}.

(** The source's guard on object arguments of setters:
    [x !== undefined && x != null && x instanceof C]. *)
Definition accepted (x : jsref) : bool :=
  negb (ref_strict_eq x undefined) && non_null x.

Definition cleared : t :=
  {| _id := IdNum num_zero; _val := None; _prev := null; _next := null;
     _marked := false; _parent := null; _depth := num_zero;
     _curArc := null; _arcList := null |}.

Definition with_val (v : option V) (n : t) : t :=
  mk (_id n) v (_prev n) (_next n) (_arcList n) (_curArc n) (_marked n)
     (_parent n) (_depth n).
Definition with_prev (r : jsref) (n : t) : t :=
  mk (_id n) (_val n) r (_next n) (_arcList n) (_curArc n) (_marked n)
     (_parent n) (_depth n).
Definition with_next (r : jsref) (n : t) : t :=
  mk (_id n) (_val n) (_prev n) r (_arcList n) (_curArc n) (_marked n)
     (_parent n) (_depth n).
Definition with_arcList (r : jsref) (n : t) : t :=
  mk (_id n) (_val n) (_prev n) (_next n) r (_curArc n) (_marked n)
     (_parent n) (_depth n).
Definition with_curArc (r : jsref) (n : t) : t :=
  mk (_id n) (_val n) (_prev n) (_next n) (_arcList n) r (_marked n)
     (_parent n) (_depth n).
Definition with_marked (b : bool) (n : t) : t :=
  mk (_id n) (_val n) (_prev n) (_next n) (_arcList n) (_curArc n) b
     (_parent n) (_depth n).
Definition with_parent (r : jsref) (n : t) : t :=
  mk (_id n) (_val n) (_prev n) (_next n) (_arcList n) (_curArc n)
     (_marked n) r (_depth n).
Definition with_id (i : NodeId) (n : t) : t :=
  mk i (_val n) (_prev n) (_next n) (_arcList n) (_curArc n) (_marked n)
     (_parent n) (_depth n).
Definition with_depth (d : number) (n : t) : t :=
  mk (_id n) (_val n) (_prev n) (_next n) (_arcList n) (_curArc n)
     (_marked n) (_parent n) d.

(** [new TSMT$GraphNode(data)] *)
Definition constructor (data : option V) : t := with_val data cleared.

(** The accessors that assign ([set id], [set marked], ...). *)
Definition set_id (value : NodeId) (n : t) : t :=
  match value with
  | IdStr _ => with_id value n
  | IdNum x =>
      if negb (isNaN x) && isFinite x && num_ge x num_zero
      then with_id value n else n
  end.

Definition set_marked (value : bool) (n : t) : t :=
  with_marked (if value then true else false) n.

Definition set_value (v : option V) (n : t) : t :=
  match v with Some _ => with_val v n | None => n end.

Definition set_previous (node : jsref) (n : t) : t :=
  if accepted node then with_prev node n else n.

Definition set_next (node : jsref) (n : t) : t :=
  if accepted node then with_next node n else n.

Definition set_parent (node : jsref) (n : t) : t :=
  if accepted node then with_parent node n else n.

Definition set_depth (value : number) (n : t) : t :=
  if negb (isNaN value) && isFinite value && num_ge value num_zero
  then with_depth value n else n.

Definition set_arcList (value : jsref) (n : t) : t :=
  if accepted value then with_arcList value n else n.

(** *** The object store *)

Record Store : Type := mkStore {
  nodes : list t;
  arcs : list GraphArc.t
}.

Definition readNode (r : jsref) : M Store t :=
  fun s => match r with
           | obj a => match nodes s !! a with
                      | Some n => Ok (n, s)
                      | None => TypeError
                      end
           | _ => TypeError
           end.

Definition updNode (r : jsref) (f : t → t) : M Store unit :=
  fun s => match r with
           | obj a => match nodes s !! a with
                      | Some n => Ok (tt, mkStore (<[a := f n]> (nodes s)) (arcs s))
                      | None => TypeError
                      end
           | _ => TypeError
           end.

Definition readArc (r : jsref) : M Store GraphArc.t :=
  fun s => match r with
           | obj a => match arcs s !! a with
                      | Some x => Ok (x, s)
                      | None => TypeError
                      end
           | _ => TypeError
           end.

Definition updArc (r : jsref) (f : GraphArc.t → GraphArc.t) : M Store unit :=
  fun s => match r with
           | obj a => match arcs s !! a with
                      | Some x => Ok (tt, mkStore (nodes s) (<[a := f x]> (arcs s)))
                      | None => TypeError
                      end
           | _ => TypeError
           end.

Definition newNode (data : option V) : M Store jsref :=
  fun s => Ok (obj (length (nodes s)),
               mkStore (nodes s ++ [constructor data]) (arcs s)).

Definition newArc (node : jsref) (cost : number) : M Store jsref :=
  fun s => Ok (obj (length (arcs s)),
               mkStore (nodes s) (arcs s ++ [GraphArc.constructor node cost])).

(** *** Methods *)

Fixpoint arcCount_loop (fuel : nat) (count : Z) (arc : jsref) : M Store Z :=
  match fuel with
  | O => timeout
  | S fuel =>
      if non_null arc then
        let! A := readArc arc in
        arcCount_loop fuel (count + 1) (GraphArc.next A)
      else ret count
  end.

Definition arcCount (fuel : nat) (this : jsref) : M Store Z :=
  let! N := readNode this in
  arcCount_loop fuel 0 (_arcList N).

Fixpoint getArc_loop (fuel : nat) (target a : jsref) : M Store jsref :=
  match fuel with
  | O => timeout
  | S fuel =>
      if non_null a then
        let! A := readArc a in
        if ref_loose_eq (GraphArc.node A) target then ret a
        else getArc_loop fuel target (GraphArc.next A)
      else ret null
  end.

Definition getArc (fuel : nat) (this target : jsref) : M Store jsref :=
  if ref_strict_eq target undefined || negb (non_null target) then ret null
  else
    let! N := readNode this in
    getArc_loop fuel target (_arcList N).

Definition connected (fuel : nat) (this target : jsref) : M Store bool :=
  if accepted target then
    let! a := getArc fuel this target in ret (non_null a)
  else ret false.

Definition mutuallyConnected (fuel : nat) (this target : jsref) : M Store bool :=
  if accepted target then
    let! a := getArc fuel this target in
    if non_null a then
      let! b := getArc fuel target this in ret (non_null b)
    else ret false
  else ret false.

Definition addArc (this target : jsref) (cost : number) : M Store unit :=
  if accepted target then
    let cost := Math_max num_zero cost in
    let! arc := newArc target cost in
    let! N := readNode this in
    if negb (non_null (_arcList N)) then
      updNode this (with_arcList arc) ;;;
      updNode this (with_curArc arc)
    else
      updArc arc (GraphArc.set_previous (_curArc N)) ;;;
      updArc (_curArc N) (GraphArc.set_next arc) ;;;
      updNode this (with_curArc arc)
  else ret tt.

Definition removeArc (fuel : nat) (this target : jsref) : M Store bool :=
  if accepted target then
    let! arc := getArc fuel this target in
    if non_null arc then
      let! A := readArc arc in
      when_ (non_null (GraphArc.previous A))
        (* update prev.next after removal *)
        (updArc (GraphArc.previous A) (GraphArc.set_next (GraphArc.next A))) ;;;
      let! A := readArc arc in
      when_ (non_null (GraphArc.next A))
        (* update next.prev after removal *)
        (updArc (GraphArc.next A) (GraphArc.set_previous (GraphArc.previous A))) ;;;
      let! N := readNode this in
      let! A := readArc arc in
      when_ (ref_loose_eq (_arcList N) arc)
        (* update arcList ref after removal *)
        (updNode this (with_arcList (GraphArc.next A))) ;;;
      ret true
    else ret false
  else ret false.

Fixpoint removeOutgoingArcs_loop (fuel : nat) (this arc : jsref) : M Store unit :=
  match fuel with
  | O => timeout
  | S fuel' =>
      if non_null arc then
        let! A := readArc arc in
        removeArc fuel' this (GraphArc.node A) ;;;
        let! A := readArc arc in
        removeOutgoingArcs_loop fuel' this (GraphArc.next A)
      else ret tt
  end.

Definition removeOutgoingArcs (fuel : nat) (this : jsref) : M Store unit :=
  let! N := readNode this in
  removeOutgoingArcs_loop fuel this (_arcList N).

Fixpoint removeAllArcs_loop (fuel : nat) (this arc : jsref) : M Store unit :=
  match fuel with
  | O => timeout
  | S fuel' =>
      if non_null arc then
        let! A := readArc arc in
        removeArc fuel' (GraphArc.node A) this ;;;
        let! A := readArc arc in
        removeArc fuel' this (GraphArc.node A) ;;;
        let! A := readArc arc in
        removeAllArcs_loop fuel' this (GraphArc.next A)
      else ret tt
  end.

Definition removeAllArcs (fuel : nat) (this : jsref) : M Store unit :=
  let! N := readNode this in
  removeAllArcs_loop fuel this (_arcList N) ;;;
  updNode this (with_arcList null).

(** [arc.nodeValue]: the value of the target of an arc, null without one. *)
Definition nodeValue (arc : jsref) : M Store (option V) :=
  let! A := readArc arc in
  if non_null (GraphArc.node A) then
    let! N := readNode (GraphArc.node A) in ret (_val N)
  else ret None.

End WithValue.
Arguments t : clear implicits.
Arguments Store : clear implicits.
End GraphNode.

(** ** TSMT$Graph *)

(** The [startNode] argument of [DFS] and [BFS], of type
    [TSMT$GraphNode<T> | T] with default [null]. *)
Inductive StartArg (V : Type) : Type :=
  | StartAbsent                 (* undefined or null *)
  | StartNode (a : nat)         (* instanceof TSMT$GraphNode *)
  | StartValue (v : V).         (* any other value *)
Arguments StartAbsent {V}.
Arguments StartNode {V} a.
Arguments StartValue {V} v.

Module Graph.
Section WithValue.
Context {V : Type}.
(** [==] on two values of type [T]. *)
Variable veq : V → V → bool.

Record t : Type := mk {
  _size : Z;                  (* number of nodes in the graph *)
  _nodeList : jsref;          (* head of node list for this graph *)
  _curNode : jsref;           (* most recently added node *)
  _struct : list jsref;       (* queue of the breadth-first traversal *)
  _traversal : list jsref     (* record of the traversal *)
}.

Definition with_size (z : Z) (g : t) : t :=
  mk z (_nodeList g) (_curNode g) (_struct g) (_traversal g).
Definition with_nodeList (r : jsref) (g : t) : t :=
  mk (_size g) r (_curNode g) (_struct g) (_traversal g).
Definition with_curNode (r : jsref) (g : t) : t :=
  mk (_size g) (_nodeList g) r (_struct g) (_traversal g).
Definition with_struct (l : list jsref) (g : t) : t :=
  mk (_size g) (_nodeList g) (_curNode g) l (_traversal g).
Definition with_traversal (l : list jsref) (g : t) : t :=
  mk (_size g) (_nodeList g) (_curNode g) (_struct g) l.

(** The store together with the fields of one graph. *)
Record State : Type := mkState {
  store : GraphNode.Store V;
  this : t
}.

(** A method of a node or an arc, run from a method of the graph. *)
Definition call {A} (m : M (GraphNode.Store V) A) : M State A :=
  fun s => match m (store s) with
           | Ok (a, st) => Ok (a, mkState st (this s))
           | TypeError => TypeError
           | OutOfFuel => OutOfFuel
           end.

Definition getG : M State t := fun s => Ok (this s, s).
Definition modG (f : t → t) : M State unit :=
  fun s => Ok (tt, mkState (store s) (f (this s))).

Definition readNode (r : jsref) : M State (GraphNode.t V) :=
  call (GraphNode.readNode r).
Definition updNode (r : jsref) (f : GraphNode.t V → GraphNode.t V) : M State unit :=
  call (GraphNode.updNode r f).
Definition readArc (r : jsref) : M State GraphArc.t :=
  call (GraphNode.readArc r).
Definition updArc (r : jsref) (f : GraphArc.t → GraphArc.t) : M State unit :=
  call (GraphNode.updArc r f).

(** [a == b] on two values of type [T], either of which may be [null]. *)
Definition val_loose_eq (a b : option V) : bool :=
  match a, b with
  | Some x, Some y => veq x y
  | None, None => true
  | _, _ => false
  end.

(** *** clear *)

Fixpoint clear_arcs (fuel : nat) (arc : jsref) : M State unit :=
  match fuel with
  | O => timeout
  | S fuel =>
      if non_null arc then
        let! A := readArc arc in
        let nextArc := GraphArc.next A in
        updArc arc (GraphArc.set_previous null) ;;;
        updArc arc (GraphArc.set_next null) ;;;
        updArc arc (GraphArc.set_node null) ;;;
        clear_arcs fuel nextArc
      else ret tt
  end.

Fixpoint clear_nodes (fuel : nat) (node : jsref) : M State unit :=
  match fuel with
  | O => timeout
  | S fuel =>
      if non_null node then
        let! N := readNode node in
        let next := GraphNode._next N in
        clear_arcs fuel (GraphNode._arcList N) ;;;
        updNode node (GraphNode.set_value None) ;;;
        updNode node (GraphNode.set_previous null) ;;;
        updNode node (GraphNode.set_next null) ;;;
        updNode node (GraphNode.set_arcList null) ;;;
        clear_nodes fuel next
      else ret tt
  end.

Definition clear (fuel : nat) : M State unit :=
  modG (with_struct []) ;;;
  modG (with_traversal []) ;;;
  let! g := getG in
  clear_nodes fuel (_nodeList g) ;;;
  modG (with_nodeList null) ;;;
  modG (with_curNode null) ;;;
  modG (with_size 0).

(** [new TSMT$Graph()]: the constructor runs [clear] on a graph whose
    node list is still [undefined]. *)
Definition constructor : t :=
  {| _size := 0; _nodeList := null; _curNode := null;
     _struct := []; _traversal := [] |}.

Definition size : M State Z := let! g := getG in ret (_size g).
Definition isEmpty : M State bool := let! g := getG in ret (_size g =? 0).
Definition nodeList : M State jsref := let! g := getG in ret (_nodeList g).

(** *** findNode *)

Fixpoint findNode_loop (fuel : nat) (value : option V) (node : jsref)
  : M State jsref :=
  match fuel with
  | O => timeout
  | S fuel =>
      if non_null node then
        let! N := readNode node in
        if val_loose_eq (GraphNode._val N) value then ret node
        else findNode_loop fuel value (GraphNode._next N)
      else ret null
  end.

Definition findNode (fuel : nat) (value : option V) : M State jsref :=
  let! g := getG in
  findNode_loop fuel value (_nodeList g).

(** *** addNode, removeNode *)

Definition addNode (node : jsref) : M State unit :=
  if ref_strict_eq node undefined && negb (non_null node) then ret tt
  else
    modG (fun g => with_size (_size g + 1) g) ;;;
    let! g := getG in
    if negb (non_null (_nodeList g)) then
      (* begin new list *)
      modG (with_nodeList node) ;;;
      modG (with_curNode node)
    else
      updNode node (GraphNode.set_previous (_curNode g)) ;;;
      updNode (_curNode g) (GraphNode.set_next node) ;;;
      modG (with_curNode node).

Fixpoint unlink_inner (fuel : nat) (node node1 arc1 : jsref) : M State unit :=
  match fuel with
  | O => timeout
  | S fuel =>
      if non_null arc1 then
        let! A1 := readArc arc1 in
        let hook := GraphArc.next A1 in
        (if ref_loose_eq (GraphArc.node A1) node then
           when_ (non_null (GraphArc.previous A1))
             (updArc (GraphArc.previous A1) (GraphArc.set_next hook)) ;;;
           let! A1 := readArc arc1 in
           when_ (non_null hook)
             (updArc hook (GraphArc.set_previous (GraphArc.previous A1))) ;;;
           let! N1 := readNode node1 in
           when_ (ref_loose_eq (GraphNode._arcList N1) arc1)
             (updNode node1 (GraphNode.set_arcList hook))
         else ret tt) ;;;
        unlink_inner fuel node node1 hook
      else ret tt
  end.

Fixpoint unlink_outer (fuel : nat) (node arc0 : jsref) : M State unit :=
  match fuel with
  | O => timeout
  | S fuel =>
      if non_null arc0 then
        let! A0 := readArc arc0 in
        let node1 := GraphArc.node A0 in
        let! N1 := readNode node1 in
        unlink_inner fuel node node1 (GraphNode._arcList N1) ;;;
        let! A0 := readArc arc0 in
        let hook := GraphArc.next A0 in
        when_ (non_null (GraphArc.previous A0))
          (updArc (GraphArc.previous A0) (GraphArc.set_next hook)) ;;;
        let! A0 := readArc arc0 in
        when_ (non_null hook)
          (updArc hook (GraphArc.set_previous (GraphArc.previous A0))) ;;;
        let! N := readNode node in
        when_ (ref_loose_eq (GraphNode._arcList N) arc0)
          (updNode node (GraphNode.set_arcList hook)) ;;;
        unlink_outer fuel node hook
      else ret tt
  end.

Definition __unlink (fuel : nat) (node : jsref) : M State unit :=
  let! N := readNode node in
  unlink_outer fuel node (GraphNode._arcList N) ;;;
  updNode node (GraphNode.set_arcList null).

Definition removeNode (fuel : nat) (node : jsref) : M State unit :=
  if ref_strict_eq node undefined || negb (non_null node) then ret tt
  else
    __unlink fuel node ;;;
    (* update list after removal *)
    let! N := readNode node in
    when_ (non_null (GraphNode._prev N))
      (updNode (GraphNode._prev N) (GraphNode.set_next (GraphNode._next N))) ;;;
    let! N := readNode node in
    when_ (non_null (GraphNode._next N))
      (updNode (GraphNode._next N) (GraphNode.set_previous (GraphNode._prev N))) ;;;
    let! g := getG in
    let! N := readNode node in
    when_ (ref_strict_eq (_nodeList g) node)
      (modG (with_nodeList (GraphNode._next N))) ;;;
    modG (fun g => with_size (_size g - 1) g).

(** *** addEdge, addMutualEdge *)

Fixpoint addEdge_inner (fuel : nat) (sourceNode target : jsref) (cost : number)
    (walk : jsref) : M State unit :=
  match fuel with
  | O => timeout
  | S fuel =>
      if non_null walk then
        if ref_strict_eq walk target then
          call (GraphNode.addArc sourceNode walk cost)
        else
          let! W := readNode walk in
          addEdge_inner fuel sourceNode target cost (GraphNode._next W)
      else ret tt
  end.

Fixpoint addEdge_outer (fuel : nat) (source target : jsref) (cost : number)
    (walk : jsref) : M State unit :=
  match fuel with
  | O => timeout
  | S fuel =>
      if non_null walk then
        if ref_strict_eq walk source then
          let sourceNode := walk in
          let! g := getG in
          addEdge_inner fuel sourceNode target cost (_nodeList g)
        else
          let! W := readNode walk in
          addEdge_outer fuel source target cost (GraphNode._next W)
      else ret tt
  end.

Definition addEdge (fuel : nat) (source target : jsref) (cost : number)
  : M State unit :=
  let! g := getG in
  (* clip for now *)
  let cost := Math_max num_zero cost in
  addEdge_outer fuel source target cost (_nodeList g).

Fixpoint addMutualEdge_inner (fuel : nat) (sourceNode target : jsref)
    (cost : number) (walk : jsref) : M State unit :=
  match fuel with
  | O => timeout
  | S fuel =>
      if non_null walk then
        if ref_loose_eq walk target then
          call (GraphNode.addArc sourceNode walk cost) ;;;
          call (GraphNode.addArc walk sourceNode cost)
        else
          let! W := readNode walk in
          addMutualEdge_inner fuel sourceNode target cost (GraphNode._next W)
      else ret tt
  end.

Fixpoint addMutualEdge_outer (fuel : nat) (source target : jsref)
    (cost : number) (walk : jsref) : M State unit :=
  match fuel with
  | O => timeout
  | S fuel =>
      if non_null walk then
        if ref_strict_eq walk source then
          let sourceNode := walk in
          let! g := getG in
          addMutualEdge_inner fuel sourceNode target cost (_nodeList g)
        else
          let! W := readNode walk in
          addMutualEdge_outer fuel source target cost (GraphNode._next W)
      else ret tt
  end.

Definition addMutualEdge (fuel : nat) (source target : jsref) (cost : number)
  : M State unit :=
  let! g := getG in
  addMutualEdge_outer fuel source target cost (_nodeList g).

(** *** clearMarks, clearParent *)

(** [while (node != null) { node.marked = false; node = node.next }]:
    the loop of [clearMarks], which [DFS] and [BFS] repeat in line. *)
Fixpoint unmark_loop (fuel : nat) (node : jsref) : M State unit :=
  match fuel with
  | O => timeout
  | S fuel =>
      if non_null node then
        updNode node (GraphNode.set_marked false) ;;;
        let! N := readNode node in
        unmark_loop fuel (GraphNode._next N)
      else ret tt
  end.

Definition clearMarks (fuel : nat) : M State unit :=
  let! g := getG in
  unmark_loop fuel (_nodeList g).

Fixpoint clearParent_loop (fuel : nat) (node : jsref) : M State unit :=
  match fuel with
  | O => timeout
  | S fuel =>
      if non_null node then
        updNode node (GraphNode.set_parent null) ;;;
        let! N := readNode node in
        clearParent_loop fuel (GraphNode._next N)
      else ret tt
  end.

Definition clearParent (fuel : nat) : M State unit :=
  let! g := getG in
  clearParent_loop fuel (_nodeList g).

(** *** remove, toArray *)

Fixpoint remove_loop (fuel : nat) (x : option V) (found : bool) (node : jsref)
  : M State bool :=
  match fuel with
  | O => timeout
  | S fuel =>
      if non_null node then
        let! N := readNode node in
        let next := GraphNode._next N in
        if val_loose_eq (GraphNode._val N) x then
          __unlink fuel node ;;;
          updNode node (GraphNode.set_value None) ;;;
          updNode node (GraphNode.set_next null) ;;;
          updNode node (GraphNode.set_previous null) ;;;
          updNode node (GraphNode.set_arcList null) ;;;
          modG (fun g => with_size (_size g - 1) g) ;;;
          remove_loop fuel x true next
        else remove_loop fuel x found next
      else ret found
  end.

Definition remove (fuel : nat) (x : option V) : M State bool :=
  let! g := getG in
  remove_loop fuel x false (_nodeList g).

Fixpoint toArray_loop (fuel : nat) (a : list jsref) (node : jsref)
  : M State (list jsref) :=
  match fuel with
  | O => timeout
  | S fuel =>
      if non_null node then
        let! N := readNode node in
        toArray_loop fuel (a ++ [node]) (GraphNode._next N)
      else ret a
  end.

Definition toArray (fuel : nat) : M State (list jsref) :=
  let! g := getG in
  toArray_loop fuel [] (_nodeList g).

(** *** contains *)

(** [===] on two values of type [T]. *)
Variable vseq : V → V → bool.

(** [a === b] on two values of type [T], either of which may be [null]. *)
Definition val_strict_eq (a b : option V) : bool :=
  match a, b with
  | Some x, Some y => vseq x y
  | None, None => true
  | _, _ => false
  end.

Fixpoint contains_loop (fuel : nat) (x : option V) (node : jsref) : M State bool :=
  match fuel with
  | O => timeout
  | S fuel =>
      if non_null node then
        let! N := readNode node in
        if val_strict_eq (GraphNode._val N) x then ret true
        else contains_loop fuel x (GraphNode._next N)
      else ret false
  end.

Definition contains (fuel : nat) (x : option V) : M State bool :=
  let! g := getG in
  contains_loop fuel x (_nodeList g).

(** *** Depth-first traversal *)

Fixpoint __DFSTraversal (fuel : nat) (node : jsref) {struct fuel} : M State unit :=
  match fuel with
  | O => timeout
  | S fuel' =>
      updNode node (GraphNode.set_marked true) ;;;
      modG (fun g => with_traversal (_traversal g ++ [node]) g) ;;;
      let! N := readNode node in
      DFS_arcs fuel' (GraphNode._arcList N)
  end
with DFS_arcs (fuel : nat) (arc : jsref) {struct fuel} : M State unit :=
  match fuel with
  | O => timeout
  | S fuel' =>
      if non_null arc then
        let! A := readArc arc in
        let node := GraphArc.node A in
        let! N := readNode node in
        when_ (negb (GraphNode._marked N)) (__DFSTraversal fuel' node) ;;;
        let! A := readArc arc in
        DFS_arcs fuel' (GraphArc.next A)
      else ret tt
  end.

(** The resolution of [startNode], shared by [DFS] and [BFS]. *)
Definition resolveStart (fuel : nat) (startNode : StartArg V) : M State jsref :=
  match startNode with
  | StartAbsent => let! g := getG in ret (_nodeList g)
  | StartNode a => ret (obj a)
  | StartValue v => findNode fuel (Some v)
  end.

Definition DFS (fuel : nat) (startNode : StartArg V) : M State (list jsref) :=
  let! g := getG in
  (* outliers *)
  if _size g =? 0 then ret []
  else if _size g =? 1 then ret [_nodeList g]
  else
    modG (with_struct []) ;;;
    modG (with_traversal []) ;;;
    let! node := resolveStart fuel startNode in
    let rootNode := node in
    if negb (non_null rootNode) then ret []
    else
      unmark_loop fuel node ;;;
      __DFSTraversal fuel rootNode ;;;
      let! g := getG in
      ret (_traversal g).

(** *** Breadth-first traversal *)

Fixpoint BFS_arcs (fuel : nat) (arc : jsref) : M State unit :=
  match fuel with
  | O => timeout
  | S fuel =>
      if non_null arc then
        let! A := readArc arc in
        let node := GraphArc.node A in
        let! N := readNode node in
        when_ (negb (GraphNode._marked N))
          (updNode node (GraphNode.set_marked true) ;;;
           modG (fun g => with_struct (_struct g ++ [node]) g)) ;;;
        let! A := readArc arc in
        BFS_arcs fuel (GraphArc.next A)
      else ret tt
  end.

Fixpoint BFS_loop (fuel : nat) : M State unit :=
  match fuel with
  | O => timeout
  | S fuel =>
      let! g := getG in
      match _struct g with
      | [] => ret tt
      | node :: rest =>
          (* node = this._struct.shift() *)
          modG (with_struct rest) ;;;
          modG (fun g => with_traversal (_traversal g ++ [node]) g) ;;;
          let! N := readNode node in
          BFS_arcs fuel (GraphNode._arcList N) ;;;
          BFS_loop fuel
      end
  end.

Definition __BFSTraversal (fuel : nat) (node : jsref) : M State unit :=
  updNode node (GraphNode.set_marked true) ;;;
  modG (fun g => with_struct (_struct g ++ [node]) g) ;;;
  BFS_loop fuel.

Definition BFS (fuel : nat) (startNode : StartArg V) : M State (list jsref) :=
  let! g := getG in
  (* outliers *)
  if _size g =? 0 then ret []
  else if _size g =? 1 then ret [_nodeList g]
  else
    modG (with_struct []) ;;;
    modG (with_traversal []) ;;;
    let! node := resolveStart fuel startNode in
    let rootNode := node in
    if negb (non_null rootNode) then ret []
    else
      unmark_loop fuel node ;;;
      __BFSTraversal fuel rootNode ;;;
      let! g := getG in
      ret (_traversal g).

End WithValue.
Arguments t : clear implicits.
Arguments State : clear implicits.
End Graph.

(** ** graphFromList *)

Module IGraphNode.
(** [{ id: string; value?: T }]: [value] is [None] when the object has no
    own property of that name, [Some None] when the property holds
    [undefined] or [null]. *)
Record t : Type := mk { id : string; value : option (option string) }.
End IGraphNode.

Module IGraphEdge.
(** [to: string | Array<string>] *)
Inductive target : Type :=
  | One (nodeID : string)
  | Many (toList : list string).
Record t : Type := mk { from : string; to : target }.
End IGraphEdge.

Module GraphList.
Record t : Type := mk {
  nodes : list IGraphNode.t;
  edges : list IGraphEdge.t
}.
End GraphList.

(** [nodeList[key]] on the cache object of [graphFromList]. *)
Definition cache_get (nodeList : gmap string jsref) (key : string) : jsref :=
  default undefined (nodeList !! key).

(** The body of [nodes.forEach]; the cache [nodeList] is threaded through. *)
Fixpoint graphFromList_nodes (nodes : list IGraphNode.t)
    (nodeList : gmap string jsref)
  : M (Graph.State string) (gmap string jsref) :=
  match nodes with
  | [] => ret nodeList
  | nodeData :: nodes' =>
      let! node := Graph.call (GraphNode.newNode None) in
      Graph.updNode node (GraphNode.set_id (IdStr (IGraphNode.id nodeData))) ;;;
      Graph.updNode node
        (GraphNode.set_value
           (match IGraphNode.value nodeData with
            | Some v => v
            | None => Some (IGraphNode.id nodeData)
            end)) ;;;
      let nodeList := <[IGraphNode.id nodeData := node]> nodeList in
      Graph.addNode node ;;;
      graphFromList_nodes nodes' nodeList
  end.

(** The body of [edges.forEach], over the arc-creation call it makes. *)
Definition graphFromList_edge {S} (addEdge : jsref → jsref → M S unit)
    (nodeList : gmap string jsref) (edgeData : IGraphEdge.t) : M S unit :=
  let from := cache_get nodeList (IGraphEdge.from edgeData) in
  match IGraphEdge.to edgeData with
  | IGraphEdge.Many toList =>
      forEach toList (fun nodeID =>
        let to := cache_get nodeList nodeID in
        addEdge from to)
  | IGraphEdge.One nodeID =>
      let to := cache_get nodeList nodeID in
      addEdge from to
  end.

Definition graphFromList_edges {S} (addEdge : jsref → jsref → M S unit)
    (nodeList : gmap string jsref) (edges : list IGraphEdge.t) : M S unit :=
  forEach edges (graphFromList_edge addEdge nodeList).

(** The state in which [graphFromList] starts: no objects, and the graph
    that [new TSMT$Graph<string>()] leaves. *)
Definition fresh_state {V} : Graph.State V :=
  Graph.mkState (GraphNode.mkStore [] []) Graph.constructor.

(** [graphFromList(data)]; [data] is [None] when [undefined] or [null].
    The graph returned is the graph of the final state. *)
Definition graphFromList (fuel : nat) (data : option GraphList.t)
  : Res (unit * Graph.State string) :=
  match data with
  | None => ret tt fresh_state
  | Some data =>
      (let! nodeList := graphFromList_nodes (GraphList.nodes data) ∅ in
       graphFromList_edges (fun from to => Graph.addEdge fuel from to num_one)
         nodeList (GraphList.edges data)) fresh_state
  end.

(** ** The scenario graph of the traversal tests *)

Module Scenario.

Definition node_ids : list string :=
  ["R"; "A"; "B"; "C"; "D"; "E"; "F"; "G"]%string.

(** A->D, D->G, R->A, R->B, R->C, B->E, C->F, in this order. *)
Definition edge_list : list (string * string) :=
  [("A", "D"); ("D", "G"); ("R", "A"); ("R", "B"); ("R", "C");
   ("B", "E"); ("C", "F")]%string.

Definition graph1 : GraphList.t :=
  GraphList.mk
    (map (fun i => IGraphNode.mk i None) node_ids)
    (map (fun e => IGraphEdge.mk (fst e) (IGraphEdge.One (snd e))) edge_list).

(** [n = new TSMT$GraphNode(i); n.id = i; graph.addNode(n)] *)
Definition add_node (i : string) : M (Graph.State string) jsref :=
  let! n := Graph.call (GraphNode.newNode (Some i)) in
  Graph.updNode n (GraphNode.set_id (IdStr i)) ;;;
  Graph.addNode n ;;;
  ret n.

(** The same graph built by hand: the nodes, then the edges in order. *)
Definition build (fuel : nat) : M (Graph.State string) unit :=
  let! R := add_node "R" in
  let! A := add_node "A" in
  let! B := add_node "B" in
  let! C := add_node "C" in
  let! D := add_node "D" in
  let! E := add_node "E" in
  let! F := add_node "F" in
  let! G := add_node "G" in
  Graph.addEdge fuel A D num_one ;;;
  Graph.addEdge fuel D G num_one ;;;
  Graph.addEdge fuel R A num_one ;;;
  Graph.addEdge fuel R B num_one ;;;
  Graph.addEdge fuel R C num_one ;;;
  Graph.addEdge fuel B E num_one ;;;
  Graph.addEdge fuel C F num_one.

Definition strs (l : list string) : option (list (option NodeId)) :=
  Some (map (fun i => Some (IdStr i)) l).

(** One edge that names three targets. *)
Definition fan : GraphList.t :=
  GraphList.mk
    (map (fun i => IGraphNode.mk i None) ["R"; "A"; "B"; "C"]%string)
    [IGraphEdge.mk "R" (IGraphEdge.Many ["A"; "B"; "C"]%string)].

(** The ids of the nodes of a traversal result. *)
Definition ids_of {V} (s : Graph.State V) (l : list jsref) : list (option NodeId) :=
  map (fun r => match r with
                | obj a => GraphNode._id <$> (GraphNode.nodes (Graph.store s) !! a)
                | _ => None
                end) l.

(** Build the graph, traverse it, and read the ids of the result. *)
Definition traversal_ids
    (search : nat → StartArg string → M (Graph.State string) (list jsref))
    (startNode : StartArg string) (fuel : nat)
  : M (Graph.State string) (list (option NodeId)) :=
  build fuel ;;;
  let! l := search fuel startNode in
  let! s := get in
  ret (ids_of s l).

End Scenario.

(** ** Small scenarios on which the methods are run *)

Module Cases.

Definition S0 : GraphNode.Store string := GraphNode.mkStore [] [].

(** Three nodes; [root.addArc(node1); root.addArc(node2)]. *)
Definition two_arcs : M (GraphNode.Store string) (jsref * jsref * jsref) :=
  let! root := GraphNode.newNode (Some "1"%string) in
  let! node1 := GraphNode.newNode (Some "2"%string) in
  let! node2 := GraphNode.newNode (Some "3"%string) in
  GraphNode.addArc root node1 num_one ;;;
  GraphNode.addArc root node2 num_one ;;;
  ret (root, node1, node2).

(** The targets of the arcs of a node, in list order. *)
Fixpoint targets_loop (fuel : nat) (acc : list jsref) (arc : jsref)
  : M (GraphNode.Store string) (list jsref) :=
  match fuel with
  | O => timeout
  | S fuel =>
      if non_null arc then
        let! A := GraphNode.readArc arc in
        targets_loop fuel (acc ++ [GraphArc.node A]) (GraphArc.next A)
      else ret acc
  end.

Definition targets (fuel : nat) (this : jsref) : M (GraphNode.Store string) (list jsref) :=
  let! N := GraphNode.readNode this in
  targets_loop fuel [] (GraphNode._arcList N).

(** [root.removeArc(target)] with the arc count before and after and
    the targets left. *)
Definition remove_and_count (fuel : nat) (pick : jsref * jsref * jsref → jsref)
  : M (GraphNode.Store string) (Z * bool * Z * list jsref) :=
  let! x := two_arcs in
  let root := fst (fst x) in
  let! before := GraphNode.arcCount fuel root in
  let! result := GraphNode.removeArc fuel root (pick x) in
  let! after := GraphNode.arcCount fuel root in
  let! left := targets fuel root in
  ret (before, result, after, left).

Definition value_of {A S} (r : Res (A * S)) : option A :=
  match r with Ok (a, _) => Some a | _ => None end.

(** *** Graph scenarios *)

Definition GM : Type → Type := M (Graph.State string).

(** [graph.addNode(new TSMT$GraphNode(v))] *)
Definition add_fresh (v : string) : GM jsref :=
  let! n := Graph.call (GraphNode.newNode (Some v)) in
  Graph.addNode n ;;;
  ret n.

(** Nodes A then B, and the single edge B->A. *)
Definition back_edge (fuel : nat) : GM (jsref * jsref) :=
  let! A := add_fresh "A" in
  let! B := add_fresh "B" in
  Graph.addEdge fuel B A num_one ;;;
  ret (A, B).

Definition start_at (r : jsref) : StartArg string :=
  match r with obj a => StartNode a | _ => StartAbsent end.

(** [DFS(B)] on the graph as built, and [DFS(B)] after a [DFS()]. *)
Definition dfs_first (fuel : nat) : GM (list jsref) :=
  let! x := back_edge fuel in
  Graph.DFS String.eqb fuel (start_at (snd x)).

Definition dfs_second (fuel : nat) : GM (list jsref * list jsref) :=
  let! x := back_edge fuel in
  let! l0 := Graph.DFS String.eqb fuel StartAbsent in
  let! l1 := Graph.DFS String.eqb fuel (start_at (snd x)) in
  ret (l0, l1).

Definition bfs_first (fuel : nat) : GM (list jsref) :=
  let! x := back_edge fuel in
  Graph.BFS String.eqb fuel (start_at (snd x)).

Definition bfs_second (fuel : nat) : GM (list jsref * list jsref) :=
  let! x := back_edge fuel in
  let! l0 := Graph.BFS String.eqb fuel StartAbsent in
  let! l1 := Graph.BFS String.eqb fuel (start_at (snd x)) in
  ret (l0, l1).

(** [size] and [toArray().length] *)
Definition size_and_length (fuel : nat) : GM (Z * nat) :=
  let! n := Graph.size in
  let! a := Graph.toArray fuel in
  ret (n, length a).

(** [addNode(n); remove("1")] on a new graph. *)
Definition add_remove (fuel : nat) : GM (bool * (Z * nat)) :=
  let! n := add_fresh "1" in
  let! found := Graph.remove String.eqb fuel (Some "1"%string) in
  let! r := size_and_length fuel in
  ret (found, r).

(** [addNode(n1); addNode(n2); removeNode(n2)] on a new graph. *)
Definition add_add_removeNode (fuel : nat) : GM (Z * nat) :=
  let! n1 := add_fresh "1" in
  let! n2 := add_fresh "2" in
  Graph.removeNode fuel n2 ;;;
  size_and_length fuel.

(** [addNode(null)] on a new graph. *)
Definition add_null (fuel : nat) : GM (Z * nat) :=
  Graph.addNode null ;;;
  size_and_length fuel.

(** Nodes B then A with arcs in both directions; [removeNode(B)].
    Returns the nodes left, whether A is still connected to B, and the
    head of the arc list of B. *)
Definition mutual_removeNode (fuel : nat) : GM (list jsref * bool * jsref) :=
  let! B := add_fresh "B" in
  let! A := add_fresh "A" in
  Graph.addMutualEdge fuel A B num_one ;;;
  Graph.removeNode fuel B ;;;
  let! left := Graph.toArray fuel in
  let! c := Graph.call (GraphNode.connected fuel A B) in
  let! NB := Graph.readNode B in
  ret (left, c, GraphNode._arcList NB).

(** Nodes B then A with the single edge A->B; [removeNode(B)].
    Returns the nodes left and whether A is still connected to B. *)
Definition oneway_removeNode (fuel : nat) : GM (list jsref * bool) :=
  let! B := add_fresh "B" in
  let! A := add_fresh "A" in
  Graph.addEdge fuel A B num_one ;;;
  Graph.removeNode fuel B ;;;
  let! left := Graph.toArray fuel in
  let! c := Graph.call (GraphNode.connected fuel A B) in
  ret (left, c).

(** The state before that [removeNode(B)]. *)
Definition oneway (fuel : nat) : GM unit :=
  let! B := add_fresh "B" in
  let! A := add_fresh "A" in
  Graph.addEdge fuel A B num_one.

(** Nodes n1 and n2 with the edge n1->n2; [clear()]. *)
Definition build_and_clear (fuel : nat) : GM unit :=
  let! n1 := add_fresh "1" in
  let! n2 := add_fresh "2" in
  Graph.addEdge fuel n1 n2 num_one ;;;
  Graph.clear fuel.

(** What is left of node n1 and of its arc after [clear()]. *)
Definition cleared_objects (fuel : nat)
  : GM (Graph.t * option string * jsref * jsref * jsref) :=
  build_and_clear fuel ;;;
  let! g := Graph.getG in
  let! N := Graph.readNode (obj 0) in
  let! A := Graph.readArc (GraphNode._arcList N) in
  ret (g, GraphNode._val N, GraphNode._next N, GraphNode._arcList N,
       GraphArc.node A).

(** The arc count and the arc targets of node [r] in a built graph. *)
Definition arcs_of (fuel : nat) (r : jsref) (b : Res (unit * Graph.State string))
  : option (Z * list jsref) :=
  match b with
  | Ok (_, s) =>
      value_of ((let! n := GraphNode.arcCount fuel r in
                 let! l := targets fuel r in
                 ret (n, l)) (Graph.store s))
  | _ => None
  end.

(** The call log used to count the arc-creation calls of the adapter. *)
Definition log_call (from to : jsref) : M (list (jsref * jsref)) unit :=
  modify (fun l => l ++ [(from, to)]).

(** The state a scenario leaves when run on a new graph. *)
Definition built {A} (m : GM A) : Graph.State string :=
  match m fresh_state with
  | Ok (_, s) => s
  | _ => fresh_state
  end.

Definition one_node : Graph.State string := built (add_fresh "1").
Definition one_way : Graph.State string := built (oneway 10).
Definition two_nodes : Graph.State string := built (back_edge 10).

(** The store that [two_arcs] leaves. *)
Definition two_arcs_store : GraphNode.Store string :=
  match two_arcs S0 with
  | Ok (_, st) => st
  | _ => S0
  end.

(** Node A on the graph, and a node B that was never added. *)
Definition spare : Graph.State string :=
  built (add_fresh "A" ;;; Graph.call (GraphNode.newNode (Some "B"%string))).

End Cases.

(** * The vocabulary of the properties *)

(** [m'] returns whatever [m] returns. *)
Definition refines {S A} (m m' : M S A) : Prop :=
  ∀ s r, m s = Ok r → m' s = Ok r.

Section Vocabulary.
Context {V : Type}.
Implicit Types (s : Graph.State V) (r : jsref).

(** [r] is a node of the store whose [marked] flag is set. *)
Definition marked_in s r : Prop :=
  ∃ a n, r = obj a ∧ GraphNode.nodes (Graph.store s) !! a = Some n ∧
         GraphNode._marked n = true.

(** The record of the traversal and the queue of the graph. *)
Definition trav s : list jsref := Graph._traversal (Graph.this s).
Definition queue s : list jsref := Graph._struct (Graph.this s).

(** Every recorded or queued node is marked, and none occurs twice. *)
Definition recorded_once s : Prop :=
  NoDup (trav s ++ queue s) ∧ Forall (marked_in s) (trav s ++ queue s).

(** The state after [this._struct.length = 0; this._traversal.length = 0]. *)
Definition buffers_reset s : Graph.State V :=
  Graph.mkState (Graph.store s)
    (Graph.with_traversal [] (Graph.with_struct [] (Graph.this s))).

(** What a traversal entry point does once the outliers are passed. *)
Definition traverse_from (go : nat → jsref → M (Graph.State V) unit)
    (fuel : nat) (root : jsref) : M (Graph.State V) (list jsref) :=
  if negb (non_null root) then ret []
  else
    Graph.unmark_loop fuel root ;;;
    go fuel root ;;;
    let! g := Graph.getG in
    ret (Graph._traversal g).

(** The rules on the start of a traversal, for one entry point. *)
Definition start_rules (veq : V → V → bool)
    (search : nat → StartArg V → M (Graph.State V) (list jsref))
    (fuel : nat) s : Prop :=
  let g := Graph.this s in
  (* empty graph *)
  (∀ arg, Graph._size g = 0 → search fuel arg s = Ok ([], s)) ∧
  (* exactly one node *)
  (∀ arg, Graph._size g = 1 → search fuel arg s = Ok ([Graph._nodeList g], s)) ∧
  (* absent: the first node of the graph *)
  (∀ h, Graph._nodeList g = obj h →
        search fuel StartAbsent s = search fuel (StartNode h) s) ∧
  (* a node reference is the first node recorded *)
  (∀ a l s', Graph._size g ≠ 0 → Graph._size g ≠ 1 →
        search fuel (StartNode a) s = Ok (l, s') → ∃ tl, l = obj a :: tl) ∧
  (* any other value: the node that findNode returns *)
  (∀ v a s1, Graph.findNode veq fuel (Some v) s = Ok (obj a, s1) →
        search fuel (StartValue v) s = search fuel (StartNode a) s) ∧
  (* and nothing when findNode returns null *)
  (∀ v r s1, Graph._size g ≠ 1 →
        Graph.findNode veq fuel (Some v) s = Ok (r, s1) → non_null r = false →
        ∃ s', search fuel (StartValue v) s = Ok ([], s')).

(** The arc-list heads of all nodes. *)
Definition heads s : list jsref :=
  GraphNode._arcList <$> GraphNode.nodes (Graph.store s).

(** The state with node [a] replaced. *)
Definition put_node (a : nat) (N : GraphNode.t V) s : Graph.State V :=
  Graph.mkState
    (GraphNode.mkStore (<[a := N]> (GraphNode.nodes (Graph.store s)))
                       (GraphNode.arcs (Graph.store s)))
    (Graph.this s).

(** References that are null, undefined or an object of the store. *)
Definition valid_ref (len : nat) (r : jsref) : Prop :=
  match r with obj a => (a < len)%nat | _ => True end.

(** Every link of the node list refers to a node of the store. *)
Definition links_valid s : Prop :=
  ∀ a M, GraphNode.nodes (Graph.store s) !! a = Some M →
         valid_ref (length (GraphNode.nodes (Graph.store s))) (GraphNode._prev M) ∧
         valid_ref (length (GraphNode.nodes (Graph.store s))) (GraphNode._next M).

(** The accessors [set next] and [set previous] of a node: they keep the
    arc list, and a valid argument keeps the links valid. *)
Definition relinks (f : jsref → GraphNode.t V → GraphNode.t V) : Prop :=
  ∀ x N,
    GraphNode._arcList (f x N) = GraphNode._arcList N ∧
    ∀ len, valid_ref len x →
           valid_ref len (GraphNode._prev N) → valid_ref len (GraphNode._next N) →
           valid_ref len (GraphNode._prev (f x N)) ∧
           valid_ref len (GraphNode._next (f x N)).

(** *** Stores on which the traversals return *)

(** The objects met from [r] by following the links [nexts], up to null. *)
Inductive chain (nexts : list jsref) : jsref → list nat → Prop :=
  | chain_end r : non_null r = false → chain nexts r []
  | chain_step a x l :
      nexts !! a = Some x → chain nexts x l → chain nexts (obj a) (a :: l).

(** The [next] link of every node and of every arc. *)
Definition node_links s : list jsref :=
  GraphNode._next <$> GraphNode.nodes (Graph.store s).
Definition arc_links s : list jsref :=
  GraphArc.next <$> GraphNode.arcs (Graph.store s).

(** The node list after each node ends, the arc list of each node ends,
    and each arc has a node of the store as its target. *)
Definition well_linked s : Prop :=
  (∀ a x, node_links s !! a = Some x → ∃ l, chain (node_links s) x l) ∧
  (∀ a h, heads s !! a = Some h → ∃ l, chain (arc_links s) h l) ∧
  (∀ b A, GraphNode.arcs (Graph.store s) !! b = Some A →
          ∃ t, GraphArc.node A = obj t ∧ (t < length (heads s))%nat).

(** [s'] has the links, the arc lists and the arcs of [s]. *)
Definition same_shape s s' : Prop :=
  node_links s' = node_links s ∧ heads s' = heads s ∧
  GraphNode.arcs (Graph.store s') = GraphNode.arcs (Graph.store s).

(** [r] is a node of the store. *)
Definition is_node s r : Prop := ∃ a, r = obj a ∧ (a < length (heads s))%nat.

(** A [startNode] argument that is a node is a node of the store. *)
Definition start_valid s (arg : StartArg V) : Prop :=
  match arg with
  | StartNode a => (a < length (heads s))%nat
  | _ => True
  end.

(** The number of nodes whose [marked] flag is not set. *)
Definition unmarked s : nat :=
  length (filter (λ N, GraphNode._marked N = false)
                 (GraphNode.nodes (Graph.store s))).

End Vocabulary.

(** ** The lists that the store represents *)

Section Representation.
Context {V : Type}.
Implicit Types (st : GraphNode.Store V) (s : Graph.State V).

(** The [next] link of every arc and of every node of a store. *)
Definition arc_nexts st : list jsref := GraphArc.next <$> GraphNode.arcs st.
Definition node_nexts st : list jsref := GraphNode._next <$> GraphNode.nodes st.

(** [la] is the list of the arcs of node [a]: the arcs met from its head,
    with the cursor of the node on the last one. *)
Definition arcs_of st (a : nat) (la : list nat) : Prop :=
  ∃ N, GraphNode.nodes st !! a = Some N ∧
       chain (arc_nexts st) (GraphNode._arcList N) la ∧
       ∀ t, last la = Some t → GraphNode._curArc N = obj t.

(** The target of arc [b], and the targets of a list of arcs. *)
Definition target_of st (b : nat) : jsref :=
  default null (GraphArc.node <$> GraphNode.arcs st !! b).
Definition targets_of st (la : list nat) : list jsref := target_of st <$> la.

(** Every node has a list of arcs, and no arc is on two lists. *)
Definition store_ok st : Prop :=
  (∀ a, (a < length (GraphNode.nodes st))%nat → ∃ la, arcs_of st a la) ∧
  (∀ a b la lb, a ≠ b → arcs_of st a la → arcs_of st b lb → la ## lb).

(** [L] is the list of the nodes of the graph: the nodes met from its head,
    with the cursor of the graph on the last one and [size] its length. *)
Definition nodes_of s (L : list nat) : Prop :=
  chain (node_nexts (Graph.store s)) (Graph._nodeList (Graph.this s)) L ∧
  (∀ t, last L = Some t → Graph._curNode (Graph.this s) = obj t) ∧
  Graph._size (Graph.this s) = Z.of_nat (length L).

Definition graph_ok s (L : list nat) : Prop :=
  store_ok (Graph.store s) ∧ nodes_of s L.

(** The first arc of a list whose target is loosely equal to [target],
    null when there is none: what [getArc] looks for. *)
Fixpoint first_arc_to st (target : jsref) (la : list nat) : jsref :=
  match la with
  | [] => null
  | b :: la' =>
      if ref_loose_eq (target_of st b) target then obj b
      else first_arc_to st target la'
  end.

(** The value of node [a], null when [a] is no node. *)
Definition value_of_node st (a : nat) : option V :=
  GraphNode.nodes st !! a ≫= GraphNode._val.

(** The first node of a list whose value passes the test [eqv] against
    [value], null when there is none: what [findNode] looks for. *)
Fixpoint first_node_with (eqv : option V → option V → bool) st
    (value : option V) (L : list nat) : jsref :=
  match L with
  | [] => null
  | a :: L' =>
      if eqv (value_of_node st a) value then obj a
      else first_node_with eqv st value L'
  end.

(** The nodes of a list whose value passes the test [eqv] against
    [value]: the nodes that [remove] counts. *)
Definition nodes_with (eqv : option V → option V → bool) st
    (value : option V) (L : list nat) : list nat :=
  List.filter (λ a, eqv (value_of_node st a) value) L.

(** A node without its arc list and arc cursor: what adding an arc
    leaves as it is. *)
Definition no_arcs (N : GraphNode.t V) : GraphNode.t V :=
  GraphNode.with_curArc null (GraphNode.with_arcList null N).

(** The store after [addArc]: node [a] is [N'] and the arcs are [arcs']. *)
Definition put st (a : nat) N (arcs' : list GraphArc.t) : GraphNode.Store V :=
  GraphNode.mkStore (<[a := N]> (GraphNode.nodes st)) arcs'.

(** What the arcs after [addArc] look like: the old arcs with one new arc
    at the end, and at most the [next] link of [tl] assigned. *)
Definition grown st (arcs' : list GraphArc.t) (target : jsref) (tl : option nat) : Prop :=
  length arcs' = S (length (GraphNode.arcs st)) ∧
  (∀ b A, GraphNode.arcs st !! b = Some A →
          ∃ A', arcs' !! b = Some A' ∧ GraphArc.node A' = GraphArc.node A ∧
                (Some b ≠ tl → GraphArc.next A' = GraphArc.next A)) ∧
  (∃ A', arcs' !! length (GraphNode.arcs st) = Some A' ∧
         GraphArc.node A' = target ∧ non_null (GraphArc.next A') = false).

(** A node without its links in the node list: what adding a node
    leaves as it is. *)
Definition no_links (N : GraphNode.t V) : GraphNode.t V :=
  GraphNode.with_prev null (GraphNode.with_next null N).

(** *** Back links *)

(** The [previous] link of every arc of a store. *)
Definition arc_prevs st : list jsref := GraphArc.previous <$> GraphNode.arcs st.

(** Each object of [l] has the one before it as its [previous] link;
    [p] is the one before the first. *)
Fixpoint backs (prevs : list jsref) (p : nat) (l : list nat) : Prop :=
  match l with
  | [] => True
  | y :: l' => prevs !! y = Some (obj p) ∧ backs prevs y l'
  end.

(** An arc of the store that is on no list of arcs: an arc taken off. *)
Definition off_lists st (g : nat) : Prop :=
  (g < length (GraphNode.arcs st))%nat ∧ ∀ a la, arcs_of st a la → g ∉ la.

(** The [previous] link of the first arc of a list: null, or an arc that
    was taken off a list. *)
Definition head_back st (x : jsref) : Prop :=
  match x with obj g => off_lists st g | _ => True end.

Definition back_linked st (la : list nat) : Prop :=
  match la with
  | [] => True
  | h :: l =>
      (∃ x, arc_prevs st !! h = Some x ∧ head_back st x) ∧ backs (arc_prevs st) h l
  end.

(** The lists of arcs are doubly linked. *)
Definition store_wf st : Prop :=
  store_ok st ∧ ∀ a la, arcs_of st a la → back_linked st la.

(** A list of arcs split at the first arc whose target is loosely equal
    to [target]. *)
Fixpoint split_first st (target : jsref) (la : list nat)
  : option (list nat * nat * list nat) :=
  match la with
  | [] => None
  | b :: l =>
      if ref_loose_eq (target_of st b) target then Some ([], b, l)
      else match split_first st target l with
           | Some (l1, x, l2) => Some (b :: l1, x, l2)
           | None => None
           end
  end.

(** The list of arcs that [removeArc] leaves: the first arc to the target
    goes, except when it is the last arc of the list and not the first. *)
Definition after_removeArc st (target : jsref) (la : list nat) : list nat :=
  match split_first st target la with
  | Some (_ :: _, _, []) => la
  | Some (l1, _, l2) => l1 ++ l2
  | None => la
  end.

(** The store after the three assignments by which [removeArc] takes the
    arc [A] off the list of node [a]: [A.previous.next = A.next] and
    [A.next.previous = A.previous] through the accessors, which keep the
    link when they are given null, and the head of the list when [A] is
    the head. *)
Definition unlinked st (a : nat) (N : GraphNode.t V) (A : GraphArc.t)
    (head : bool) : GraphNode.Store V :=
  let p := GraphArc.previous A in
  let n := GraphArc.next A in
  let arcs1 :=
    match p with
    | obj q => alter (GraphArc.set_next n) q (GraphNode.arcs st)
    | _ => GraphNode.arcs st
    end in
  let arcs2 :=
    match n with
    | obj c => alter (GraphArc.set_previous p) c arcs1
    | _ => arcs1
    end in
  GraphNode.mkStore
    (if head then <[a := GraphNode.with_arcList n N]> (GraphNode.nodes st)
     else GraphNode.nodes st)
    arcs2.

(** *** Taking a node off the node list *)

(** The [previous] link of every node of a store. *)
Definition node_prevs st : list jsref := GraphNode._prev <$> GraphNode.nodes st.

(** The node list [L] is doubly linked: each node has the one before it
    as its [previous] link, and the first has null or a node of the store
    that is not on the list. *)
Definition nodes_back_linked s (L : list nat) : Prop :=
  match L with
  | [] => True
  | h :: l =>
      (∃ x, node_prevs (Graph.store s) !! h = Some x ∧
            match x with
            | obj g => (g < length (GraphNode.nodes (Graph.store s)))%nat ∧ g ∉ L
            | _ => True
            end) ∧
      backs (node_prevs (Graph.store s)) h l
  end.

(** The node list that [removeNode] leaves when it is given the node [a]
    of the list [L1 ++ a :: L2]: the node goes, except when it is the last
    node of the list and not the first. *)
Definition after_removeNode (L1 : list nat) (a : nat) (L2 : list nat) : list nat :=
  match L1, L2 with
  | _ :: _, [] => L1 ++ [a]
  | _, _ => L1 ++ L2
  end.

(** The state after the assignments by which [removeNode] takes the node
    [N] off the list: [N.previous.next = N.next] and
    [N.next.previous = N.previous] through the accessors, which keep the
    link when they are given null, the head of the list when [N] is the
    head, and the size. *)
Definition node_unlinked s (N : GraphNode.t V) (head : bool) : Graph.State V :=
  let p := GraphNode._prev N in
  let n := GraphNode._next N in
  let nodes1 :=
    match p with
    | obj q => alter (GraphNode.set_next n) q (GraphNode.nodes (Graph.store s))
    | _ => GraphNode.nodes (Graph.store s)
    end in
  let nodes2 :=
    match n with
    | obj c => alter (GraphNode.set_previous p) c nodes1
    | _ => nodes1
    end in
  let g := if head then Graph.with_nodeList n (Graph.this s) else Graph.this s in
  Graph.mkState (GraphNode.mkStore nodes2 (GraphNode.arcs (Graph.store s)))
                (Graph.with_size (Graph._size g - 1) g).

(** *** Reaching a node along arcs *)

(** There is an arc from node [a] to node [t]: [t] is the target of an arc
    on the list of arcs of [a]. *)
Definition edge s (a t : nat) : Prop :=
  ∃ h l b A, heads s !! a = Some h ∧ chain (arc_links s) h l ∧ b ∈ l ∧
             GraphNode.arcs (Graph.store s) !! b = Some A ∧
             GraphArc.node A = obj t.

(** Node [y] can be reached from node [a] along arcs. *)
Definition reach s : nat → nat → Prop := rtc (edge s).

(** From [s] to [s'] the nodes [l] were marked and recorded, in this
    order, and nothing else changed but marks. *)
Definition grows s s' (l : list nat) : Prop :=
  same_shape s s' ∧ queue s' = queue s ∧ trav s' = trav s ++ (obj <$> l) ∧
  ∀ x, marked_in s' (obj x) ↔ marked_in s (obj x) ∨ x ∈ l.

(** From [s] to [s'] the nodes [l] were marked and queued, in this order,
    and nothing else changed but marks. *)
Definition queues s s' (l : list nat) : Prop :=
  same_shape s s' ∧ trav s' = trav s ∧ queue s' = queue s ++ (obj <$> l) ∧
  ∀ x, marked_in s' (obj x) ↔ marked_in s (obj x) ∨ x ∈ l.

(** The state of a breadth-first traversal from [a] that began in [s0]:
    the nodes [T] are recorded and [Q] queued; these are the marked
    nodes, they can be reached from [a], and every arc from a recorded
    node leads to a marked node. *)
Definition bfs_inv s0 (a : nat) s (T Q : list nat) : Prop :=
  same_shape s0 s ∧ trav s = obj <$> T ∧ queue s = obj <$> Q ∧
  (∀ x, marked_in s (obj x) ↔ x ∈ T ++ Q) ∧
  a ∈ T ++ Q ∧
  (∀ x, x ∈ T ++ Q → reach s0 a x) ∧
  (∀ x y, x ∈ T → edge s0 x y → marked_in s (obj y)).

(** *** The lists of a given store, computed *)

(** The objects met from [r] by following [nexts], within [fuel] steps. *)
Fixpoint walk (fuel : nat) (nexts : list jsref) (r : jsref) : option (list nat) :=
  match fuel with
  | O => None
  | S fuel =>
      match r with
      | obj a =>
          match nexts !! a with
          | Some x => (a ::.) <$> walk fuel nexts x
          | None => None
          end
      | _ => Some []
      end
  end.

Definition ends_at (l : list nat) (cursor : jsref) : bool :=
  match last l with
  | Some t => bool_decide (cursor = obj t)
  | None => true
  end.

Definition arcs_list st (a : nat) : option (list nat) :=
  match GraphNode.nodes st !! a with
  | Some N =>
      match walk (S (length (GraphNode.arcs st))) (arc_nexts st)
                 (GraphNode._arcList N) with
      | Some la => if ends_at la (GraphNode._curArc N) then Some la else None
      | None => None
      end
  | None => None
  end.

Definition store_okb st : bool :=
  match mapM (arcs_list st) (seq 0 (length (GraphNode.nodes st))) with
  | Some ls => bool_decide (NoDup (concat ls))
  | None => false
  end.

Fixpoint backsb (prevs : list jsref) (p : nat) (l : list nat) : bool :=
  match l with
  | [] => true
  | y :: l' => bool_decide (prevs !! y = Some (obj p)) && backsb prevs y l'
  end.

Definition back_linkedb st (all la : list nat) : bool :=
  match la with
  | [] => true
  | h :: l =>
      match arc_prevs st !! h with
      | Some (obj g) =>
          (g <? length (GraphNode.arcs st))%nat && bool_decide (g ∉ all)
      | Some _ => true
      | None => false
      end && backsb (arc_prevs st) h l
  end.

Definition store_wfb st : bool :=
  match mapM (arcs_list st) (seq 0 (length (GraphNode.nodes st))) with
  | Some ls =>
      bool_decide (NoDup (concat ls)) && forallb (back_linkedb st (concat ls)) ls
  | None => false
  end.

Definition graph_okb s (L : list nat) : bool :=
  store_okb (Graph.store s) &&
  bool_decide (walk (S (length L)) (node_nexts (Graph.store s))
                 (Graph._nodeList (Graph.this s)) = Some L) &&
  ends_at L (Graph._curNode (Graph.this s)) &&
  (Graph._size (Graph.this s) =? Z.of_nat (length L)).

End Representation.

(** ** What graphFromList builds *)






(** * Properties *)

(** ** Stepping through the monad *)

Lemma bind_Ok {S A B} (m : M S A) (k : A → M S B) (s : S) (r : B * S) :
  bind m k s = Ok r → ∃ a s', m s = Ok (a, s') ∧ k a s' = Ok r.
Proof.
  unfold bind. destruct (m s) as [[a s']| |]; try discriminate. eauto.
Qed.

Lemma ret_Ok {S A} (a : A) (s : S) (r : A * S) : ret a s = Ok r → r = (a, s).
Proof. unfold ret. congruence. Qed.

Lemma when_Ok {S} (c : bool) (m : M S unit) (s : S) (r : unit * S) :
  when_ c m s = Ok r → (c = true ∧ m s = Ok r) ∨ (c = false ∧ r = (tt, s)).
Proof. destruct c; simpl; [eauto | intros H%ret_Ok; eauto]. Qed.

Lemma bind_eq {S A B} (m : M S A) (k : A → M S B) (s s1 : S) (a : A) :
  m s = Ok (a, s1) → bind m k s = k a s1.
Proof. unfold bind. by intros ->. Qed.

Section GraphSteps.
Context {V : Type}.
Implicit Types (s : Graph.State V) (r : jsref) (g : Graph.t).

Lemma getG_Ok s x : Graph.getG s = Ok x → x = (Graph.this s, s).
Proof. unfold Graph.getG. congruence. Qed.

Lemma modG_Ok f s x :
  Graph.modG f s = Ok x → x = (tt, Graph.mkState (Graph.store s) (f (Graph.this s))).
Proof. unfold Graph.modG. congruence. Qed.

Lemma readNode_Ok r s N s' :
  Graph.readNode r s = Ok (N, s') →
  s' = s ∧ ∃ a, r = obj a ∧ GraphNode.nodes (Graph.store s) !! a = Some N.
Proof.
  unfold Graph.readNode, Graph.call, GraphNode.readNode.
  destruct r as [| |a]; try discriminate.
  destruct (GraphNode.nodes (Graph.store s) !! a) eqn:E; try discriminate.
  intros [= <- <-]. destruct s; eauto.
Qed.

Lemma readArc_Ok r s A s' :
  Graph.readArc r s = Ok (A, s') →
  s' = s ∧ ∃ a, r = obj a ∧ GraphNode.arcs (Graph.store s) !! a = Some A.
Proof.
  unfold Graph.readArc, Graph.call, GraphNode.readArc.
  destruct r as [| |a]; try discriminate.
  destruct (GraphNode.arcs (Graph.store s) !! a) eqn:E; try discriminate.
  intros [= <- <-]. destruct s; eauto.
Qed.

Lemma updNode_Ok r f s u s' :
  Graph.updNode r f s = Ok (u, s') →
  ∃ a n, r = obj a ∧ GraphNode.nodes (Graph.store s) !! a = Some n ∧
         s' = Graph.mkState
                (GraphNode.mkStore (<[a := f n]> (GraphNode.nodes (Graph.store s)))
                                   (GraphNode.arcs (Graph.store s)))
                (Graph.this s).
Proof.
  unfold Graph.updNode, Graph.call, GraphNode.updNode.
  destruct r as [| |a]; try discriminate.
  destruct (GraphNode.nodes (Graph.store s) !! a) eqn:E; try discriminate.
  intros [= <- <-]. eauto.
Qed.

Lemma readNode_eq a N s :
  GraphNode.nodes (Graph.store s) !! a = Some N →
  Graph.readNode (obj a) s = Ok (N, s).
Proof.
  intros H. unfold Graph.readNode, Graph.call, GraphNode.readNode.
  rewrite H. by destruct s.
Qed.

Lemma readArc_eq a A s :
  GraphNode.arcs (Graph.store s) !! a = Some A →
  Graph.readArc (obj a) s = Ok (A, s).
Proof.
  intros H. unfold Graph.readArc, Graph.call, GraphNode.readArc.
  rewrite H. by destruct s.
Qed.

Lemma updNode_eq a N f s :
  GraphNode.nodes (Graph.store s) !! a = Some N →
  Graph.updNode (obj a) f s = Ok (tt, put_node a (f N) s).
Proof.
  intros H. unfold Graph.updNode, Graph.call, GraphNode.updNode.
  by rewrite H.
Qed.

Lemma put_node_same a N s :
  GraphNode.nodes (Graph.store s) !! a = Some N → put_node a N s = s.
Proof.
  intros H. unfold put_node. rewrite list_insert_id by done.
  by destruct s as [[] ?].
Qed.

(** Replacing a node by one with the same arc list keeps the heads. *)
Lemma heads_put a N N' s :
  GraphNode.nodes (Graph.store s) !! a = Some N →
  GraphNode._arcList N' = GraphNode._arcList N →
  heads (put_node a N' s) = heads s.
Proof.
  intros H E. unfold heads, put_node. simpl.
  rewrite list_fmap_insert, E.
  apply list_insert_id. by rewrite list_lookup_fmap, H.
Qed.

End GraphSteps.

(** Break a successful run of a sequence of steps into its steps. *)
Ltac step_in H :=
  lazymatch type of H with
  | bind _ _ _ = Ok _ =>
      let a := fresh "x" in let s := fresh "s" in
      let H1 := fresh "Hs" in
      apply bind_Ok in H as (a & s & H1 & H)
  | ret _ _ = Ok _ => apply ret_Ok in H
  | Graph.getG _ = Ok _ => apply getG_Ok in H
  | Graph.modG _ _ = Ok _ => apply modG_Ok in H
  end.

(** ** More fuel changes no result *)

Lemma refines_refl {S A} (m : M S A) : refines m m.
Proof. by intros s r. Qed.

Lemma refines_bind {S A B} (m m' : M S A) (k k' : A → M S B) :
  refines m m' → (∀ a, refines (k a) (k' a)) → refines (bind m k) (bind m' k').
Proof.
  intros Hm Hk s r H. apply bind_Ok in H as (a & s1 & H1 & H2).
  unfold bind. rewrite (Hm _ _ H1). by apply Hk.
Qed.

Lemma refines_when {S} (c : bool) (m m' : M S unit) :
  refines m m' → refines (when_ c m) (when_ c m').
Proof. destruct c; [done|]. intros _. apply refines_refl. Qed.

Lemma refines_forEach {S A} (l : list A) (f f' : A → M S unit) :
  (∀ x, refines (f x) (f' x)) → refines (forEach l f) (forEach l f').
Proof.
  intros H. induction l as [|x l IH]; simpl; [apply refines_refl|].
  apply refines_bind; [apply H|]. intros _. exact IH.
Qed.

Lemma refines_call {V A} (m m' : M (GraphNode.Store V) A) :
  refines m m' → refines (Graph.call m) (Graph.call m').
Proof.
  intros H s r. unfold Graph.call.
  destruct (m (Graph.store s)) as [[a st]| |] eqn:E; try discriminate.
  by rewrite (H _ _ E).
Qed.

Create HintDb fuel.
#[local] Hint Extern 1 (_ ≤ _)%nat => lia : fuel.

(** One pass over the body of a loop: the same steps on both sides, and
    the loops run inside with no less fuel. *)
Ltac more_fuel :=
  repeat first
    [ apply refines_refl
    | solve [eauto 3 with fuel]
    | apply refines_bind; [|intros ?]
    | apply refines_when
    | apply refines_call
    | apply refines_forEach; intros ?
    | match goal with
      | |- refines (if ?c then _ else _) _ => destruct c
      | |- refines (match ?x with _ => _ end) _ => destruct x
      end ].

(** A loop with a fuel argument gives the same result with more fuel. *)
Ltac loop_more_fuel n :=
  let IH := fresh "IH" in
  let m := fresh "m" in
  induction n as [|n IH]; intros m; intros;
  [ intros ? ? ?; discriminate
  | destruct m; [lia|]; simpl; more_fuel; apply IH; lia ].

(** *** The loops of a node *)

Lemma arcCount_loop_fuel {V} n : ∀ m count arc, (n ≤ m)%nat →
  refines (GraphNode.arcCount_loop (V:=V) n count arc)
          (GraphNode.arcCount_loop m count arc).
Proof. loop_more_fuel n. Qed.
#[local] Hint Resolve arcCount_loop_fuel : fuel.

Lemma arcCount_fuel {V} n m this : (n ≤ m)%nat →
  refines (GraphNode.arcCount (V:=V) n this) (GraphNode.arcCount m this).
Proof. intros. unfold GraphNode.arcCount. more_fuel. Qed.
#[local] Hint Resolve arcCount_fuel : fuel.

Lemma getArc_loop_fuel {V} n : ∀ m target a, (n ≤ m)%nat →
  refines (GraphNode.getArc_loop (V:=V) n target a) (GraphNode.getArc_loop m target a).
Proof. loop_more_fuel n. Qed.
#[local] Hint Resolve getArc_loop_fuel : fuel.

Lemma getArc_fuel {V} n m this target : (n ≤ m)%nat →
  refines (GraphNode.getArc (V:=V) n this target) (GraphNode.getArc m this target).
Proof. intros. unfold GraphNode.getArc. more_fuel. Qed.
#[local] Hint Resolve getArc_fuel : fuel.

Lemma connected_fuel {V} n m this target : (n ≤ m)%nat →
  refines (GraphNode.connected (V:=V) n this target)
          (GraphNode.connected m this target).
Proof. intros. unfold GraphNode.connected. more_fuel. Qed.
#[local] Hint Resolve connected_fuel : fuel.

Lemma mutuallyConnected_fuel {V} n m this target : (n ≤ m)%nat →
  refines (GraphNode.mutuallyConnected (V:=V) n this target)
          (GraphNode.mutuallyConnected m this target).
Proof. intros. unfold GraphNode.mutuallyConnected. more_fuel. Qed.
#[local] Hint Resolve mutuallyConnected_fuel : fuel.

Lemma removeArc_fuel {V} n m this target : (n ≤ m)%nat →
  refines (GraphNode.removeArc (V:=V) n this target)
          (GraphNode.removeArc m this target).
Proof. intros. unfold GraphNode.removeArc. more_fuel. Qed.
#[local] Hint Resolve removeArc_fuel : fuel.

Lemma removeOutgoingArcs_loop_fuel {V} n : ∀ m this arc, (n ≤ m)%nat →
  refines (GraphNode.removeOutgoingArcs_loop (V:=V) n this arc)
          (GraphNode.removeOutgoingArcs_loop m this arc).
Proof. loop_more_fuel n. Qed.
#[local] Hint Resolve removeOutgoingArcs_loop_fuel : fuel.

Lemma removeOutgoingArcs_fuel {V} n m this : (n ≤ m)%nat →
  refines (GraphNode.removeOutgoingArcs (V:=V) n this)
          (GraphNode.removeOutgoingArcs m this).
Proof. intros. unfold GraphNode.removeOutgoingArcs. more_fuel. Qed.
#[local] Hint Resolve removeOutgoingArcs_fuel : fuel.

Lemma removeAllArcs_loop_fuel {V} n : ∀ m this arc, (n ≤ m)%nat →
  refines (GraphNode.removeAllArcs_loop (V:=V) n this arc)
          (GraphNode.removeAllArcs_loop m this arc).
Proof. loop_more_fuel n. Qed.
#[local] Hint Resolve removeAllArcs_loop_fuel : fuel.

Lemma removeAllArcs_fuel {V} n m this : (n ≤ m)%nat →
  refines (GraphNode.removeAllArcs (V:=V) n this) (GraphNode.removeAllArcs m this).
Proof. intros. unfold GraphNode.removeAllArcs. more_fuel. Qed.
#[local] Hint Resolve removeAllArcs_fuel : fuel.

(** *** The loops of the graph *)

Lemma clear_arcs_fuel {V} n : ∀ m arc, (n ≤ m)%nat →
  refines (Graph.clear_arcs (V:=V) n arc) (Graph.clear_arcs m arc).
Proof. loop_more_fuel n. Qed.
#[local] Hint Resolve clear_arcs_fuel : fuel.

Lemma clear_nodes_fuel {V} n : ∀ m node, (n ≤ m)%nat →
  refines (Graph.clear_nodes (V:=V) n node) (Graph.clear_nodes m node).
Proof. loop_more_fuel n. Qed.
#[local] Hint Resolve clear_nodes_fuel : fuel.

Lemma clear_fuel {V} n m  : (n ≤ m)%nat →
  refines (Graph.clear (V:=V) n ) (Graph.clear m ).
Proof. intros. unfold Graph.clear. more_fuel. Qed.
#[local] Hint Resolve clear_fuel : fuel.

Lemma findNode_loop_fuel {V} (veq : V → V → bool) n : ∀ m value node, (n ≤ m)%nat →
  refines (Graph.findNode_loop veq n value node) (Graph.findNode_loop veq m value node).
Proof. loop_more_fuel n. Qed.
#[local] Hint Resolve findNode_loop_fuel : fuel.

Lemma findNode_fuel {V} (veq : V → V → bool) n m value : (n ≤ m)%nat →
  refines (Graph.findNode veq n value) (Graph.findNode veq m value).
Proof. intros. unfold Graph.findNode. more_fuel. Qed.
#[local] Hint Resolve findNode_fuel : fuel.

Lemma unlink_inner_fuel {V} n : ∀ m node node1 arc1, (n ≤ m)%nat →
  refines (Graph.unlink_inner (V:=V) n node node1 arc1)
          (Graph.unlink_inner m node node1 arc1).
Proof. loop_more_fuel n. Qed.
#[local] Hint Resolve unlink_inner_fuel : fuel.

Lemma unlink_outer_fuel {V} n : ∀ m node arc0, (n ≤ m)%nat →
  refines (Graph.unlink_outer (V:=V) n node arc0) (Graph.unlink_outer m node arc0).
Proof. loop_more_fuel n. Qed.
#[local] Hint Resolve unlink_outer_fuel : fuel.

Lemma unlink_fuel {V} n m node : (n ≤ m)%nat →
  refines (Graph.__unlink (V:=V) n node) (Graph.__unlink m node).
Proof. intros. unfold Graph.__unlink. more_fuel. Qed.
#[local] Hint Resolve unlink_fuel : fuel.

Lemma removeNode_fuel {V} n m node : (n ≤ m)%nat →
  refines (Graph.removeNode (V:=V) n node) (Graph.removeNode m node).
Proof. intros. unfold Graph.removeNode. more_fuel. Qed.
#[local] Hint Resolve removeNode_fuel : fuel.

Lemma addEdge_inner_fuel {V} n : ∀ m sourceNode target cost walk, (n ≤ m)%nat →
  refines (Graph.addEdge_inner (V:=V) n sourceNode target cost walk)
          (Graph.addEdge_inner m sourceNode target cost walk).
Proof. loop_more_fuel n. Qed.
#[local] Hint Resolve addEdge_inner_fuel : fuel.

Lemma addEdge_outer_fuel {V} n : ∀ m source target cost walk, (n ≤ m)%nat →
  refines (Graph.addEdge_outer (V:=V) n source target cost walk)
          (Graph.addEdge_outer m source target cost walk).
Proof. loop_more_fuel n. Qed.
#[local] Hint Resolve addEdge_outer_fuel : fuel.

Lemma addEdge_fuel {V} n m source target cost : (n ≤ m)%nat →
  refines (Graph.addEdge (V:=V) n source target cost)
          (Graph.addEdge m source target cost).
Proof. intros. unfold Graph.addEdge. more_fuel. Qed.
#[local] Hint Resolve addEdge_fuel : fuel.

Lemma addMutualEdge_inner_fuel {V} n : ∀ m sourceNode target cost walk, (n ≤ m)%nat →
  refines (Graph.addMutualEdge_inner (V:=V) n sourceNode target cost walk)
          (Graph.addMutualEdge_inner m sourceNode target cost walk).
Proof. loop_more_fuel n. Qed.
#[local] Hint Resolve addMutualEdge_inner_fuel : fuel.

Lemma addMutualEdge_outer_fuel {V} n : ∀ m source target cost walk, (n ≤ m)%nat →
  refines (Graph.addMutualEdge_outer (V:=V) n source target cost walk)
          (Graph.addMutualEdge_outer m source target cost walk).
Proof. loop_more_fuel n. Qed.
#[local] Hint Resolve addMutualEdge_outer_fuel : fuel.

Lemma addMutualEdge_fuel {V} n m source target cost : (n ≤ m)%nat →
  refines (Graph.addMutualEdge (V:=V) n source target cost)
          (Graph.addMutualEdge m source target cost).
Proof. intros. unfold Graph.addMutualEdge. more_fuel. Qed.
#[local] Hint Resolve addMutualEdge_fuel : fuel.

Lemma unmark_loop_fuel {V} n : ∀ m node, (n ≤ m)%nat →
  refines (Graph.unmark_loop (V:=V) n node) (Graph.unmark_loop m node).
Proof. loop_more_fuel n. Qed.
#[local] Hint Resolve unmark_loop_fuel : fuel.

Lemma clearMarks_fuel {V} n m  : (n ≤ m)%nat →
  refines (Graph.clearMarks (V:=V) n ) (Graph.clearMarks m ).
Proof. intros. unfold Graph.clearMarks. more_fuel. Qed.
#[local] Hint Resolve clearMarks_fuel : fuel.

Lemma clearParent_loop_fuel {V} n : ∀ m node, (n ≤ m)%nat →
  refines (Graph.clearParent_loop (V:=V) n node) (Graph.clearParent_loop m node).
Proof. loop_more_fuel n. Qed.
#[local] Hint Resolve clearParent_loop_fuel : fuel.

Lemma clearParent_fuel {V} n m  : (n ≤ m)%nat →
  refines (Graph.clearParent (V:=V) n ) (Graph.clearParent m ).
Proof. intros. unfold Graph.clearParent. more_fuel. Qed.
#[local] Hint Resolve clearParent_fuel : fuel.

Lemma remove_loop_fuel {V} (veq : V → V → bool) n : ∀ m x found node, (n ≤ m)%nat →
  refines (Graph.remove_loop veq n x found node) (Graph.remove_loop veq m x found node).
Proof. loop_more_fuel n. Qed.
#[local] Hint Resolve remove_loop_fuel : fuel.

Lemma remove_fuel {V} (veq : V → V → bool) n m x : (n ≤ m)%nat →
  refines (Graph.remove veq n x) (Graph.remove veq m x).
Proof. intros. unfold Graph.remove. more_fuel. Qed.
#[local] Hint Resolve remove_fuel : fuel.

Lemma toArray_loop_fuel {V} n : ∀ m a node, (n ≤ m)%nat →
  refines (Graph.toArray_loop (V:=V) n a node) (Graph.toArray_loop m a node).
Proof. loop_more_fuel n. Qed.
#[local] Hint Resolve toArray_loop_fuel : fuel.

Lemma toArray_fuel {V} n m  : (n ≤ m)%nat →
  refines (Graph.toArray (V:=V) n ) (Graph.toArray m ).
Proof. intros. unfold Graph.toArray. more_fuel. Qed.
#[local] Hint Resolve toArray_fuel : fuel.

Lemma DFSTraversal_fuel_both {V} n :
  (∀ m node, (n ≤ m)%nat →
     refines (Graph.__DFSTraversal (V:=V) n node) (Graph.__DFSTraversal m node)) ∧
  (∀ m arc, (n ≤ m)%nat →
     refines (Graph.DFS_arcs (V:=V) n arc) (Graph.DFS_arcs m arc)).
Proof.
  induction n as [|n [IHn IHa]]; split; intros m x Hle;
    try (intros ? ? ?; discriminate);
    (destruct m; [lia|]); simpl; more_fuel;
    first [apply IHn | apply IHa]; lia.
Qed.

Lemma DFSTraversal_fuel {V} n m node : (n ≤ m)%nat →
  refines (Graph.__DFSTraversal (V:=V) n node) (Graph.__DFSTraversal m node).
Proof. apply DFSTraversal_fuel_both. Qed.
#[local] Hint Resolve DFSTraversal_fuel : fuel.

Lemma resolveStart_fuel {V} (veq : V → V → bool) n m startNode : (n ≤ m)%nat →
  refines (Graph.resolveStart veq n startNode) (Graph.resolveStart veq m startNode).
Proof. intros. unfold Graph.resolveStart. more_fuel. Qed.
#[local] Hint Resolve resolveStart_fuel : fuel.

Lemma DFS_fuel {V} (veq : V → V → bool) n m startNode : (n ≤ m)%nat →
  refines (Graph.DFS veq n startNode) (Graph.DFS veq m startNode).
Proof. intros. unfold Graph.DFS. more_fuel. Qed.
#[local] Hint Resolve DFS_fuel : fuel.

Lemma BFS_arcs_fuel {V} n : ∀ m arc, (n ≤ m)%nat →
  refines (Graph.BFS_arcs (V:=V) n arc) (Graph.BFS_arcs m arc).
Proof. loop_more_fuel n. Qed.
#[local] Hint Resolve BFS_arcs_fuel : fuel.

Lemma BFS_loop_fuel {V} n : ∀ m, (n ≤ m)%nat →
  refines (Graph.BFS_loop (V:=V) n) (Graph.BFS_loop m).
Proof. loop_more_fuel n. Qed.
#[local] Hint Resolve BFS_loop_fuel : fuel.

Lemma BFSTraversal_fuel {V} n m node : (n ≤ m)%nat →
  refines (Graph.__BFSTraversal (V:=V) n node) (Graph.__BFSTraversal m node).
Proof. intros. unfold Graph.__BFSTraversal. more_fuel. Qed.
#[local] Hint Resolve BFSTraversal_fuel : fuel.

Lemma BFS_fuel {V} (veq : V → V → bool) n m startNode : (n ≤ m)%nat →
  refines (Graph.BFS veq n startNode) (Graph.BFS veq m startNode).
Proof. intros. unfold Graph.BFS. more_fuel. Qed.
#[local] Hint Resolve BFS_fuel : fuel.

(** *** The adapter and the scenarios *)

Lemma graphFromList_edges_fuel n m nodeList edges : (n ≤ m)%nat →
  refines
    (graphFromList_edges
       (fun from to => Graph.addEdge (V:=string) n from to num_one) nodeList edges)
    (graphFromList_edges
       (fun from to => Graph.addEdge (V:=string) m from to num_one) nodeList edges).
Proof.
  intros Hle. unfold graphFromList_edges. apply refines_forEach. intros e.
  unfold graphFromList_edge. more_fuel.
Qed.

Lemma graphFromList_fuel n m data r : (n ≤ m)%nat →
  graphFromList n data = Ok r → graphFromList m data = Ok r.
Proof.
  intros Hle. destruct data as [data|]; [|done]. unfold graphFromList.
  apply refines_bind; [apply refines_refl|]. intros nodeList.
  by apply graphFromList_edges_fuel.
Qed.

Lemma value_of_fuel {S A} (f : nat → M S A) n m s v :
  refines (f n) (f m) →
  Cases.value_of (f n s) = Some v → Cases.value_of (f m s) = Some v.
Proof.
  intros H. unfold Cases.value_of.
  destruct (f n s) as [[a s1]| |] eqn:E; try discriminate.
  by rewrite (H _ _ E).
Qed.

Lemma targets_loop_fuel n : ∀ m acc arc, (n ≤ m)%nat →
  refines (Cases.targets_loop n acc arc) (Cases.targets_loop m acc arc).
Proof. loop_more_fuel n. Qed.
#[local] Hint Resolve targets_loop_fuel : fuel.

Lemma remove_and_count_fuel n m pick : (n ≤ m)%nat →
  refines (Cases.remove_and_count n pick) (Cases.remove_and_count m pick).
Proof. intros. unfold Cases.remove_and_count, Cases.targets. more_fuel. Qed.

Lemma back_edge_fuel n m : (n ≤ m)%nat →
  refines (Cases.back_edge n) (Cases.back_edge m).
Proof. intros. unfold Cases.back_edge. more_fuel. Qed.
#[local] Hint Resolve back_edge_fuel : fuel.

Lemma dfs_first_fuel n m : (n ≤ m)%nat →
  refines (Cases.dfs_first n) (Cases.dfs_first m).
Proof. intros. unfold Cases.dfs_first. more_fuel. Qed.

Lemma dfs_second_fuel n m : (n ≤ m)%nat →
  refines (Cases.dfs_second n) (Cases.dfs_second m).
Proof. intros. unfold Cases.dfs_second. more_fuel. Qed.

Lemma bfs_first_fuel n m : (n ≤ m)%nat →
  refines (Cases.bfs_first n) (Cases.bfs_first m).
Proof. intros. unfold Cases.bfs_first. more_fuel. Qed.

Lemma bfs_second_fuel n m : (n ≤ m)%nat →
  refines (Cases.bfs_second n) (Cases.bfs_second m).
Proof. intros. unfold Cases.bfs_second. more_fuel. Qed.

Lemma size_and_length_fuel n m : (n ≤ m)%nat →
  refines (Cases.size_and_length n) (Cases.size_and_length m).
Proof. intros. unfold Cases.size_and_length. more_fuel. Qed.
#[local] Hint Resolve size_and_length_fuel : fuel.

Lemma add_remove_fuel n m : (n ≤ m)%nat →
  refines (Cases.add_remove n) (Cases.add_remove m).
Proof. intros. unfold Cases.add_remove. more_fuel. Qed.

Lemma add_add_removeNode_fuel n m : (n ≤ m)%nat →
  refines (Cases.add_add_removeNode n) (Cases.add_add_removeNode m).
Proof. intros. unfold Cases.add_add_removeNode. more_fuel. Qed.

Lemma add_null_fuel n m : (n ≤ m)%nat →
  refines (Cases.add_null n) (Cases.add_null m).
Proof. intros. unfold Cases.add_null. more_fuel. Qed.

Lemma mutual_removeNode_fuel n m : (n ≤ m)%nat →
  refines (Cases.mutual_removeNode n) (Cases.mutual_removeNode m).
Proof. intros. unfold Cases.mutual_removeNode. more_fuel. Qed.

Lemma oneway_removeNode_fuel n m : (n ≤ m)%nat →
  refines (Cases.oneway_removeNode n) (Cases.oneway_removeNode m).
Proof. intros. unfold Cases.oneway_removeNode. more_fuel. Qed.

Lemma cleared_objects_fuel n m : (n ≤ m)%nat →
  refines (Cases.cleared_objects n) (Cases.cleared_objects m).
Proof. intros. unfold Cases.cleared_objects, Cases.build_and_clear. more_fuel. Qed.

Lemma build_fuel n m : (n ≤ m)%nat →
  refines (Scenario.build n) (Scenario.build m).
Proof. intros. unfold Scenario.build. more_fuel. Qed.
#[local] Hint Resolve build_fuel : fuel.

Lemma traversal_ids_fuel search startNode n m :
  (refines (search n startNode) (search m startNode)) → (n ≤ m)%nat →
  refines (Scenario.traversal_ids search startNode n)
          (Scenario.traversal_ids search startNode m).
Proof.
  intros. unfold Scenario.traversal_ids. more_fuel.
Qed.

(** A scenario evaluated with some fuel, for every larger amount. *)
Ltac by_running k lem :=
  intros; eapply (value_of_fuel _ k); [apply lem; lia | vm_compute; reflexivity].

(** ** Marks and the traversal record *)

Section Marks.
Context {V : Type}.
Implicit Types (s : Graph.State V) (r node arc : jsref).

Lemma mark_Ok node s u s' :
  Graph.updNode node (GraphNode.set_marked true) s = Ok (u, s') →
  Graph.this s' = Graph.this s ∧ marked_in s' node ∧
  ∀ r, marked_in s r → marked_in s' r.
Proof.
  intros (a & n & -> & Hn & ->)%updNode_Ok. simpl.
  pose proof (lookup_lt_Some _ _ _ Hn) as Hlt.
  split; [done|]. split.
  - exists a, (GraphNode.set_marked true n). simpl.
    by rewrite list_lookup_insert_eq.
  - intros r (b & m & -> & Hm & Hmk).
    destruct (decide (a = b)) as [->|Hne].
    + exists b, (GraphNode.set_marked true n). simpl.
      by rewrite list_lookup_insert_eq.
    + exists b, m. simpl. by rewrite list_lookup_insert_ne.
Qed.

Lemma unmarked_fresh s node N l :
  Forall (marked_in s) l →
  Graph.readNode node s = Ok (N, s) →
  GraphNode._marked N = false →
  node ∉ l.
Proof.
  intros Hall (_ & a & -> & Ha)%readNode_Ok Hm Hin.
  rewrite Forall_forall in Hall.
  destruct (Hall _ Hin) as (b & n & [= <-] & Hb & Hmk). congruence.
Qed.

Lemma recorded_once_push_trav s node :
  queue s = [] →
  recorded_once s → node ∉ trav s → marked_in s node →
  recorded_once
    (Graph.mkState (Graph.store s)
       (Graph.with_traversal (trav s ++ [node]) (Graph.this s))).
Proof.
  unfold recorded_once, trav, queue. simpl. intros -> [Hnd Hall] Hnin Hm.
  rewrite !app_nil_r in *. split.
  - apply NoDup_app. split; [done|]. split.
    + intros x Hx ->%list_elem_of_singleton. done.
    + apply NoDup_singleton.
  - apply Forall_app. split; [done|]. by apply Forall_singleton.
Qed.

(** *** Depth-first *)

Lemma DFS_preserves (fuel : nat) :
  (∀ node s s', queue s = [] → recorded_once s → node ∉ trav s →
     Graph.__DFSTraversal fuel node s = Ok (tt, s') →
     queue s' = [] ∧ recorded_once s' ∧
     ∃ l, trav s' = trav s ++ node :: l) ∧
  (∀ arc s s', queue s = [] → recorded_once s →
     Graph.DFS_arcs fuel arc s = Ok (tt, s') →
     queue s' = [] ∧ recorded_once s' ∧
     ∃ l, trav s' = trav s ++ l).
Proof.
  induction fuel as [|fuel [IHn IHa]]; [split; intros; discriminate|].
  split.
  - intros node s s' Hq Hinv Hnin H. simpl in H.
    do 3 step_in H. destruct x.
    destruct (mark_Ok _ _ _ _ Hs) as (Hthis & Hmk & Hkeep).
    step_in Hs0. injection Hs0 as -> ->.
    apply readNode_Ok in Hs1 as [-> _].
    assert (recorded_once s0) as Hinv0.
    { destruct Hinv as [Hnd Hall]. unfold recorded_once, trav, queue.
      rewrite Hthis. split; [done|].
      eapply Forall_impl; [exact Hall|]. auto. }
    assert (queue s0 = []) as Hq0 by (unfold queue; by rewrite Hthis).
    assert (trav s0 = trav s) as Ht0 by (unfold trav; by rewrite Hthis).
    assert (node ∉ trav s0) as Hnin0 by (by rewrite Ht0).
    pose proof (recorded_once_push_trav s0 node Hq0 Hinv0 Hnin0 Hmk) as Hpush.
    apply IHa in H as (Hq' & Hinv' & l & Hl); [|done|exact Hpush].
    split; [done|]. split; [done|]. exists l.
    rewrite Hl. unfold trav. simpl. by rewrite Hthis, <- app_assoc.
  - intros arc s s' Hq Hinv H. simpl in H.
    destruct (non_null arc).
    + do 4 step_in H.
      apply readArc_Ok in Hs as [-> _].
      pose proof Hs0 as Hrd. apply readNode_Ok in Hs0 as [-> _].
      apply readArc_Ok in Hs2 as [-> _].
      apply when_Ok in Hs1 as [[Hm Hrun]|[Hm [= -> ->]]].
      * destruct x1.
        apply IHn in Hrun as (Hq1 & Hinv1 & l1 & Hl1); [|done|done|].
        -- apply IHa in H as (Hq2 & Hinv2 & l2 & Hl2); [|done|done].
           split; [done|]. split; [done|]. exists ((GraphArc.node x :: l1) ++ l2).
           rewrite Hl2, Hl1. by rewrite <- app_assoc.
        -- destruct Hinv as [_ Hall]. rewrite Hq, app_nil_r in Hall.
           eapply unmarked_fresh; [exact Hall|exact Hrd|].
           by apply negb_true_iff.
      * apply IHa in H as (Hq2 & Hinv2 & l2 & Hl2); [|done|done]. eauto.
    + step_in H. injection H as <-. split; [done|]. split; [done|].
      exists []. by rewrite app_nil_r.
Qed.

(** *** Breadth-first *)

Lemma BFS_arcs_preserves (fuel : nat) arc s s' :
  recorded_once s →
  Graph.BFS_arcs fuel arc s = Ok (tt, s') →
  recorded_once s' ∧ trav s' = trav s ∧ ∃ l, queue s' = queue s ++ l.
Proof.
  revert arc s. induction fuel as [|fuel IH]; intros arc s Hinv H; [discriminate|].
  simpl in H. destruct (non_null arc).
  - do 4 step_in H.
    apply readArc_Ok in Hs as [-> _].
    pose proof Hs0 as Hrd. apply readNode_Ok in Hs0 as [-> _].
    apply readArc_Ok in Hs2 as [-> _].
    apply when_Ok in Hs1 as [[Hm Hrun]|[Hm [= -> ->]]].
    + do 1 step_in Hrun. destruct x3.
      destruct (mark_Ok _ _ _ _ Hs) as (Hthis & Hmk & Hkeep).
      step_in Hrun. injection Hrun as -> ->.
      destruct Hinv as [Hnd Hall].
      assert (GraphArc.node x ∉ trav s ++ queue s) as Hnin.
      { eapply unmarked_fresh; [exact Hall|exact Hrd|]. by apply negb_true_iff. }
      apply IH in H as (Hinv' & Ht & l & Hl).
      * split; [done|]. split.
        { rewrite Ht. unfold trav. simpl. by rewrite Hthis. }
        exists (GraphArc.node x :: l). rewrite Hl. unfold queue. simpl.
        by rewrite Hthis, <- app_assoc.
      * unfold recorded_once, trav, queue. simpl. rewrite Hthis.
        rewrite !app_assoc. split.
        -- apply NoDup_app. split; [done|]. split.
           ++ intros y Hy ->%list_elem_of_singleton. done.
           ++ apply NoDup_singleton.
        -- apply Forall_app. split.
           ++ eapply Forall_impl; [exact Hall|]. auto.
           ++ by apply Forall_singleton.
    + apply IH in H as (Hinv' & Ht & l & Hl); [|done]. eauto.
  - step_in H. injection H as <-. split; [done|]. split; [done|].
    exists []. by rewrite app_nil_r.
Qed.

Lemma BFS_loop_preserves (fuel : nat) s s' :
  recorded_once s →
  Graph.BFS_loop fuel s = Ok (tt, s') →
  recorded_once s' ∧ queue s' = [] ∧ ∃ l, trav s' = trav s ++ queue s ++ l.
Proof.
  revert s. induction fuel as [|fuel IH]; intros s Hinv H; [discriminate|].
  simpl in H. step_in H. step_in Hs. injection Hs as -> ->.
  destruct (Graph._struct (Graph.this s)) as [|node rest] eqn:Hst.
  - step_in H. injection H as <-. split; [done|]. split; [done|].
    exists []. unfold queue. rewrite Hst. by rewrite !app_nil_r.
  - do 4 step_in H. step_in Hs. injection Hs as -> ->.
    step_in Hs0. injection Hs0 as -> ->.
    apply readNode_Ok in Hs1 as [-> _].
    destruct x2.
    apply BFS_arcs_preserves in Hs2 as (Hinv2 & Ht2 & l2 & Hl2).
    + apply IH in H as (Hinv' & Hq' & l & Hl); [|done].
      split; [done|]. split; [done|]. exists (l2 ++ l).
      rewrite Hl, Ht2, Hl2. unfold trav, queue. simpl. rewrite Hst.
      by rewrite <- !app_assoc.
    + destruct Hinv as [Hnd Hall]. unfold recorded_once, trav, queue in *.
      simpl. rewrite Hst in *. rewrite <- app_assoc. simpl. done.
Qed.

(** *** The steps before the traversal *)

Lemma unmark_loop_this (fuel : nat) node s s' :
  Graph.unmark_loop fuel node s = Ok (tt, s') → Graph.this s' = Graph.this s.
Proof.
  revert node s. induction fuel as [|fuel IH]; intros node s H; [discriminate|].
  simpl in H. destruct (non_null node).
  - do 2 step_in H. apply updNode_Ok in Hs as (a & n & -> & Hn & ->).
    apply readNode_Ok in Hs0 as [-> _]. by apply IH in H.
  - step_in H. by injection H as <-.
Qed.

Lemma findNode_loop_state veq (fuel : nat) value node s r s' :
  Graph.findNode_loop veq fuel value node s = Ok (r, s') → s' = s.
Proof.
  revert node s. induction fuel as [|fuel IH]; intros node s H; [discriminate|].
  simpl in H. destruct (non_null node).
  - step_in H. apply readNode_Ok in Hs as [-> _].
    destruct (Graph.val_loose_eq _ _ _).
    + step_in H. congruence.
    + by apply IH in H.
  - step_in H. congruence.
Qed.

Lemma resolveStart_state veq (fuel : nat) arg s r s' :
  Graph.resolveStart veq fuel arg s = Ok (r, s') → s' = s.
Proof.
  destruct arg; simpl; intros H.
  - step_in H. step_in Hs. step_in H. congruence.
  - step_in H. congruence.
  - unfold Graph.findNode in H. step_in H. step_in Hs. injection Hs as -> ->.
    by apply findNode_loop_state in H.
Qed.

(** A traversal that starts with empty buffers records no node twice
    and records its root first. *)
Lemma DFS_from_empty (fuel : nat) node s s' :
  trav s = [] → queue s = [] →
  Graph.__DFSTraversal fuel node s = Ok (tt, s') →
  NoDup (trav s') ∧ ∃ l, trav s' = node :: l.
Proof.
  intros Ht Hq H.
  destruct (DFS_preserves fuel) as [Hn _].
  apply Hn in H as (Hq' & [Hnd _] & l & Hl); [|done| |].
  - rewrite Hq', app_nil_r in Hnd. split; [done|]. exists l. by rewrite Hl, Ht.
  - unfold recorded_once. rewrite Ht, Hq. simpl. split; [apply NoDup_nil_2|done].
  - rewrite Ht. apply not_elem_of_nil.
Qed.

Lemma BFS_from_empty (fuel : nat) node s s' :
  trav s = [] → queue s = [] →
  Graph.__BFSTraversal fuel node s = Ok (tt, s') →
  NoDup (trav s') ∧ ∃ l, trav s' = node :: l.
Proof.
  intros Ht Hq H. unfold Graph.__BFSTraversal in H.
  do 2 step_in H. destruct x.
  destruct (mark_Ok _ _ _ _ Hs) as (Hthis & Hmk & Hkeep).
  step_in Hs0. injection Hs0 as -> ->.
  apply BFS_loop_preserves in H as ([Hnd _] & Hq' & l & Hl).
  - rewrite Hq', app_nil_r in Hnd. split; [done|]. exists l.
    rewrite Hl. unfold trav, queue in *. simpl. rewrite Hthis, Ht, Hq. done.
  - unfold recorded_once, trav, queue in *. simpl. rewrite Hthis, Ht, Hq. simpl.
    split; [apply NoDup_singleton|by apply Forall_singleton].
Qed.

(** *** The two entry points *)

Lemma DFS_unfold veq (fuel : nat) arg s :
  Graph.DFS veq fuel arg s =
  if Graph._size (Graph.this s) =? 0 then Ok ([], s)
  else if Graph._size (Graph.this s) =? 1 then Ok ([Graph._nodeList (Graph.this s)], s)
  else (let! root := Graph.resolveStart veq fuel arg in
        traverse_from Graph.__DFSTraversal fuel root) (buffers_reset s).
Proof.
  unfold Graph.DFS, traverse_from. unfold bind at 1. simpl.
  destruct (_ =? 0); [done|]. destruct (_ =? 1); done.
Qed.

Lemma BFS_unfold veq (fuel : nat) arg s :
  Graph.BFS veq fuel arg s =
  if Graph._size (Graph.this s) =? 0 then Ok ([], s)
  else if Graph._size (Graph.this s) =? 1 then Ok ([Graph._nodeList (Graph.this s)], s)
  else (let! root := Graph.resolveStart veq fuel arg in
        traverse_from Graph.__BFSTraversal fuel root) (buffers_reset s).
Proof.
  unfold Graph.BFS, traverse_from. unfold bind at 1. simpl.
  destruct (_ =? 0); [done|]. destruct (_ =? 1); done.
Qed.

Lemma traverse_from_Ok go (fuel : nat) root s l s' :
  (∀ s1 s2, trav s1 = [] → queue s1 = [] → go fuel root s1 = Ok (tt, s2) →
            NoDup (trav s2) ∧ ∃ l, trav s2 = root :: l) →
  trav s = [] → queue s = [] →
  traverse_from go fuel root s = Ok (l, s') →
  NoDup l ∧ (non_null root = true → ∃ tl, l = root :: tl).
Proof.
  intros Hgo Ht Hq H. unfold traverse_from in H.
  destruct (non_null root); simpl in H.
  - do 3 step_in H. destruct x, x0. step_in Hs1. injection Hs1 as -> ->.
    step_in H. injection H as -> ->.
    pose proof (unmark_loop_this _ _ _ _ Hs) as Hthis.
    apply Hgo in Hs0 as [Hnd Hl]; [| unfold trav; by rewrite Hthis
                                   | unfold queue; by rewrite Hthis].
    split; [done|]. intros _. exact Hl.
  - step_in H. injection H as -> ->. split; [apply NoDup_nil_2|done].
Qed.

Lemma entry_Ok go veq (fuel : nat) arg s l s' :
  (∀ root s1 s2, trav s1 = [] → queue s1 = [] → go fuel root s1 = Ok (tt, s2) →
                 NoDup (trav s2) ∧ ∃ l, trav s2 = root :: l) →
  (let! root := Graph.resolveStart veq fuel arg in
   traverse_from go fuel root) (buffers_reset s) = Ok (l, s') →
  NoDup l ∧ ∀ a, arg = StartNode a → ∃ tl, l = obj a :: tl.
Proof.
  intros Hgo H. step_in H.
  pose proof (resolveStart_state _ _ _ _ _ _ Hs) as ->.
  eapply traverse_from_Ok in H as [Hnd Hhd]; [|by apply Hgo|done|done].
  split; [done|]. intros a ->. simpl in Hs. step_in Hs. injection Hs as ->.
  by apply Hhd.
Qed.

End Marks.

(** ** The traversals return on a well-linked store *)

Section Returns.
Context {V : Type}.
Implicit Types (s : Graph.State V) (r : jsref) (N : GraphNode.t V).

Lemma same_shape_refl s : same_shape s s.
Proof. done. Qed.

Lemma same_shape_trans s1 s2 s3 :
  same_shape s1 s2 → same_shape s2 s3 → same_shape s1 s3.
Proof. unfold same_shape. intros (?&?&?) (?&?&?). repeat split; congruence. Qed.

Lemma well_linked_shape s s' : same_shape s s' → well_linked s → well_linked s'.
Proof.
  unfold well_linked, arc_links. intros (E1 & E2 & E3). by rewrite E1, E2, E3.
Qed.

(** Assigning [marked] keeps the shape. *)
Lemma set_marked_shape a N b s :
  GraphNode.nodes (Graph.store s) !! a = Some N →
  same_shape s (put_node a (GraphNode.set_marked b N) s).
Proof.
  intros H. split; [|split; [by eapply heads_put|done]].
  unfold node_links, put_node. simpl. rewrite list_fmap_insert. simpl.
  apply list_insert_id. by rewrite list_lookup_fmap, H.
Qed.

Lemma unmarked_put a N N' s :
  GraphNode.nodes (Graph.store s) !! a = Some N →
  GraphNode._marked N = false → GraphNode._marked N' = true →
  (unmarked (put_node a N' s) < unmarked s)%nat.
Proof.
  intros H Hm Hm'. unfold unmarked, put_node. simpl.
  rewrite insert_take_drop by (by eapply lookup_lt_Some).
  rewrite <- (take_drop_middle _ _ _ H) at 3.
  rewrite !filter_app, !length_app, !filter_cons.
  destruct (decide _) as [?|_]; [congruence|].
  destruct (decide _) as [_|?]; [|congruence]. simpl. lia.
Qed.

Lemma heads_valid s a :
  (a < length (heads s))%nat → ∃ N, GraphNode.nodes (Graph.store s) !! a = Some N.
Proof.
  unfold heads. rewrite length_fmap. intros H.
  destruct (lookup_lt_is_Some_2 _ _ H) as [N HN]. eauto.
Qed.

Lemma arc_link s b x :
  arc_links s !! b = Some x →
  ∃ A, GraphNode.arcs (Graph.store s) !! b = Some A ∧ GraphArc.next A = x.
Proof.
  unfold arc_links. rewrite list_lookup_fmap. intros H.
  apply fmap_Some in H as (A & H & ->). eauto.
Qed.

Lemma node_link s a x :
  node_links s !! a = Some x →
  ∃ N, GraphNode.nodes (Graph.store s) !! a = Some N ∧ GraphNode._next N = x.
Proof.
  unfold node_links. rewrite list_lookup_fmap. intros H.
  apply fmap_Some in H as (N & H & ->). eauto.
Qed.

Lemma modG_eq (f : Graph.t → Graph.t) s :
  Graph.modG f s = Ok (tt, Graph.mkState (Graph.store s) (f (Graph.this s))).
Proof. done. Qed.

Lemma getG_eq s : Graph.getG s = Ok (Graph.this s, s).
Proof. done. Qed.

Lemma DFS_arcs_fuel n m arc : (n ≤ m)%nat →
  refines (Graph.DFS_arcs (V:=V) n arc) (Graph.DFS_arcs m arc).
Proof. apply DFSTraversal_fuel_both. Qed.

(** The state with another graph record has the shape of the state. *)
Lemma same_shape_graph s g : same_shape s (Graph.mkState (Graph.store s) g).
Proof. done. Qed.

Lemma unmarked_graph s g : unmarked (Graph.mkState (Graph.store s) g) = unmarked s.
Proof. done. Qed.

(** *** Depth-first *)

Lemma DFS_arcs_returns (k : nat) :
  (∀ s a N, (unmarked s ≤ k)%nat → well_linked s →
     GraphNode.nodes (Graph.store s) !! a = Some N → GraphNode._marked N = false →
     ∃ fuel s', Graph.__DFSTraversal fuel (obj a) s = Ok (tt, s') ∧
                same_shape s s' ∧ (unmarked s' < unmarked s)%nat) →
  ∀ l arc s, (unmarked s ≤ k)%nat → well_linked s → chain (arc_links s) arc l →
     ∃ fuel s', Graph.DFS_arcs fuel arc s = Ok (tt, s') ∧
                same_shape s s' ∧ (unmarked s' ≤ unmarked s)%nat.
Proof.
  intros IH. induction l as [|b l IHl]; intros arc s Hk Hw Hc;
    inversion Hc as [r Hr|b' x l' Hx Hl']; subst.
  - exists 1%nat, s. simpl. rewrite Hr. done.
  - destruct (arc_link _ _ _ Hx) as (A & HA & <-).
    pose proof Hw as (_ & _ & Hw3). destruct (Hw3 _ _ HA) as (t & Ht & Hlt).
    destruct (heads_valid _ _ Hlt) as [T HT].
    destruct (GraphNode._marked T) eqn:Hm.
    + destruct (IHl (GraphArc.next A) s) as (f2 & s2 & E2 & Hs2 & Hu2); [done..|].
      exists (S f2), s2. split; [|done]. simpl.
      rewrite (bind_eq _ _ _ _ _ (readArc_eq _ _ _ HA)). rewrite Ht.
      rewrite (bind_eq _ _ _ _ _ (readNode_eq _ _ _ HT)). rewrite Hm. simpl.
      rewrite (bind_eq _ _ s s tt) by done.
      rewrite (bind_eq _ _ _ _ _ (readArc_eq _ _ _ HA)). exact E2.
    + destruct (IH s t T) as (f1 & s1 & E1 & Hs1 & Hu1); [done..|].
      pose proof Hs1 as (_ & _ & Earcs).
      assert (GraphNode.arcs (Graph.store s1) !! b = Some A) as HA1 by (by rewrite Earcs).
      destruct (IHl (GraphArc.next A) s1) as (f2 & s2 & E2 & Hs2 & Hu2).
      { lia. }
      { by eapply well_linked_shape. }
      { unfold arc_links. by rewrite Earcs. }
      exists (S (f1 `max` f2)), s2. split; [|split].
      * simpl.
        rewrite (bind_eq _ _ _ _ _ (readArc_eq _ _ _ HA)). rewrite Ht.
        rewrite (bind_eq _ _ _ _ _ (readNode_eq _ _ _ HT)). rewrite Hm. simpl.
        rewrite (bind_eq _ _ _ _ _
                   (DFSTraversal_fuel f1 (f1 `max` f2) _ ltac:(lia) _ _ E1)).
        rewrite (bind_eq _ _ _ _ _ (readArc_eq _ _ _ HA1)).
        exact (DFS_arcs_fuel f2 (f1 `max` f2) _ ltac:(lia) _ _ E2).
      * by eapply same_shape_trans.
      * lia.
Qed.

Lemma DFSTraversal_returns (k : nat) :
  ∀ s a N, (unmarked s ≤ k)%nat → well_linked s →
    GraphNode.nodes (Graph.store s) !! a = Some N → GraphNode._marked N = false →
    ∃ fuel s', Graph.__DFSTraversal fuel (obj a) s = Ok (tt, s') ∧
               same_shape s s' ∧ (unmarked s' < unmarked s)%nat.
Proof.
  induction k as [|k IH]; intros s a N Hk Hw Ha Hm;
    pose proof (unmarked_put a N (GraphNode.set_marked true N) s Ha Hm eq_refl) as Hlt;
    [lia|].
  pose proof (set_marked_shape a N true s Ha) as Hs0.
  set (s0 := put_node a (GraphNode.set_marked true N) s) in *.
  set (s1 := Graph.mkState (Graph.store s0)
               (Graph.with_traversal (Graph._traversal (Graph.this s0) ++ [obj a])
                  (Graph.this s0))).
  assert (GraphNode.nodes (Graph.store s1) !! a = Some (GraphNode.set_marked true N))
    as Ha1.
  { subst s1 s0. simpl. apply list_lookup_insert_eq. by eapply lookup_lt_Some. }
  assert (well_linked s1) as Hw1 by (by eapply well_linked_shape).
  pose proof Hw1 as (_ & Hw2 & _).
  destruct (Hw2 a (GraphNode._arcList N)) as [l Hl].
  { unfold heads. by rewrite list_lookup_fmap, Ha1. }
  destruct (DFS_arcs_returns k IH l (GraphNode._arcList N) s1)
    as (f & s' & E & Hs' & Hu'); [|done..|].
  { subst s1. rewrite unmarked_graph. lia. }
  exists (S f), s'. split; [|split].
  - simpl. rewrite (bind_eq _ _ _ _ _ (updNode_eq _ _ _ _ Ha)).
    rewrite (bind_eq _ _ _ _ _ (modG_eq _ _)).
    rewrite (bind_eq _ _ _ _ _ (readNode_eq _ _ _ Ha1)). exact E.
  - eapply same_shape_trans; [exact Hs0|]. exact Hs'.
  - subst s1. rewrite unmarked_graph in Hu'. lia.
Qed.

(** *** The loops before the traversal *)

Lemma chain_of_valid s r :
  well_linked s → valid_ref (length (heads s)) r → ∃ l, chain (node_links s) r l.
Proof.
  intros (Hw & _) Hr. destruct r as [| |a]; try (exists []; by constructor).
  simpl in Hr. destruct (heads_valid _ _ Hr) as [N HN].
  assert (node_links s !! a = Some (GraphNode._next N)) as Hx.
  { unfold node_links. by rewrite list_lookup_fmap, HN. }
  destruct (Hw _ _ Hx) as [l Hl]. exists (a :: l). by econstructor.
Qed.

Lemma unmark_loop_returns l : ∀ node s,
  chain (node_links s) node l →
  ∃ s', Graph.unmark_loop (S (length l)) node s = Ok (tt, s') ∧
        same_shape s s' ∧ Graph.this s' = Graph.this s ∧
        (∀ b M, GraphNode.nodes (Graph.store s) !! b = Some M →
                GraphNode._marked M = false →
                ∃ M', GraphNode.nodes (Graph.store s') !! b = Some M' ∧
                      GraphNode._marked M' = false) ∧
        (∀ b, b ∈ l → ∃ M', GraphNode.nodes (Graph.store s') !! b = Some M' ∧
                            GraphNode._marked M' = false).
Proof.
  induction l as [|a l IH]; intros node s Hc;
    inversion Hc as [r Hr|a' x l' Hx Hl']; subst.
  - exists s. simpl. rewrite Hr. repeat split; eauto.
    intros b Hb. by apply not_elem_of_nil in Hb.
  - destruct (node_link _ _ _ Hx) as (N & HN & <-).
    pose proof (set_marked_shape a N false s HN) as Hs0.
    set (s0 := put_node a (GraphNode.set_marked false N) s) in *.
    assert (GraphNode.nodes (Graph.store s0) !! a = Some (GraphNode.set_marked false N))
      as HN0.
    { subst s0. simpl. apply list_lookup_insert_eq. by eapply lookup_lt_Some. }
    destruct (IH (GraphNode._next N) s0) as (s' & E & Hs' & Ht & Hkeep & Hl).
    { destruct Hs0 as (-> & _). done. }
    exists s'. split; [|split; [|split; [|split]]].
    + change (Graph.unmark_loop (S (length (a :: l))) (obj a) s)
        with ((Graph.updNode (obj a) (GraphNode.set_marked false) ;;;
               let! N := Graph.readNode (obj a) in
               Graph.unmark_loop (S (length l)) (GraphNode._next N)) s).
      rewrite (bind_eq _ _ _ _ _ (updNode_eq _ _ _ _ HN)).
      rewrite (bind_eq _ _ _ _ _ (readNode_eq _ _ _ HN0)). exact E.
    + by eapply same_shape_trans.
    + by rewrite Ht.
    + intros b M Hb Hm. destruct (decide (a = b)) as [->|Hne].
      * by eapply Hkeep.
      * eapply Hkeep; [|exact Hm]. subst s0. simpl.
        by rewrite list_lookup_insert_ne.
    + intros b [->|Hb]%elem_of_cons; [by eapply Hkeep|by apply Hl].
Qed.

Lemma findNode_loop_returns veq value l : ∀ node s,
  chain (node_links s) node l →
  ∃ r, Graph.findNode_loop veq (S (length l)) value node s = Ok (r, s) ∧
       valid_ref (length (heads s)) r.
Proof.
  induction l as [|a l IH]; intros node s Hc;
    inversion Hc as [r Hr|a' x l' Hx Hl']; subst.
  - exists null. simpl. by rewrite Hr.
  - destruct (node_link _ _ _ Hx) as (N & HN & <-).
    destruct (IH _ s Hl') as (r & E & Hv).
    change (Graph.findNode_loop veq (S (length (a :: l))) value (obj a) s)
      with ((let! N := Graph.readNode (obj a) in
             if Graph.val_loose_eq veq (GraphNode._val N) value then ret (obj a)
             else Graph.findNode_loop veq (S (length l)) value (GraphNode._next N)) s).
    rewrite (bind_eq _ _ _ _ _ (readNode_eq _ _ _ HN)).
    destruct (Graph.val_loose_eq _ _ _).
    + exists (obj a). split; [done|]. simpl. unfold heads. rewrite length_fmap.
      by eapply lookup_lt_Some.
    + eauto.
Qed.

(** *** Breadth-first *)

Lemma is_node_shape s s' r : same_shape s s' → is_node s r → is_node s' r.
Proof. unfold is_node. intros (_ & -> & _). done. Qed.

Lemma BFS_arcs_returns l : ∀ arc s,
  well_linked s → chain (arc_links s) arc l → Forall (is_node s) (queue s) →
  ∃ s', Graph.BFS_arcs (S (length l)) arc s = Ok (tt, s') ∧
        same_shape s s' ∧ Forall (is_node s') (queue s') ∧
        (2 * unmarked s' + length (queue s') ≤ 2 * unmarked s + length (queue s))%nat.
Proof.
  induction l as [|b l IHl]; intros arc s Hw Hc Hq;
    inversion Hc as [r Hr|b' x l' Hx Hl']; subst.
  - exists s. simpl. rewrite Hr. done.
  - destruct (arc_link _ _ _ Hx) as (A & HA & <-).
    pose proof Hw as (_ & _ & Hw3). destruct (Hw3 _ _ HA) as (t & Ht & Hlt).
    destruct (heads_valid _ _ Hlt) as [T HT].
    change (Graph.BFS_arcs (S (length (b :: l))) (obj b) s)
      with ((let! A := Graph.readArc (obj b) in
             let node := GraphArc.node A in
             let! N := Graph.readNode node in
             when_ (negb (GraphNode._marked N))
               (Graph.updNode node (GraphNode.set_marked true) ;;;
                Graph.modG (fun g => Graph.with_struct (Graph._struct g ++ [node]) g)) ;;;
             let! A := Graph.readArc (obj b) in
             Graph.BFS_arcs (S (length l)) (GraphArc.next A)) s).
    rewrite (bind_eq _ _ _ _ _ (readArc_eq _ _ _ HA)). cbv zeta. rewrite Ht.
    rewrite (bind_eq _ _ _ _ _ (readNode_eq _ _ _ HT)).
    destruct (GraphNode._marked T) eqn:Hm; cbn [negb when_].
    + rewrite (bind_eq _ _ s s tt) by done.
      rewrite (bind_eq _ _ _ _ _ (readArc_eq _ _ _ HA)).
      by apply IHl.
    + pose proof (set_marked_shape t T true s HT) as Hs0.
      pose proof (unmarked_put t T (GraphNode.set_marked true T) s HT Hm eq_refl) as Hu0.
      set (s0 := put_node t (GraphNode.set_marked true T) s) in *.
      set (s1 := Graph.mkState (Graph.store s0)
                   (Graph.with_struct (Graph._struct (Graph.this s0) ++ [obj t])
                      (Graph.this s0))).
      assert (same_shape s s1) as Hs1 by done.
      destruct (IHl (GraphArc.next A) s1) as (s' & E & Hs' & Hq' & Hm').
      { by eapply well_linked_shape. }
      { unfold arc_links. destruct Hs1 as (_ & _ & ->). done. }
      { unfold queue. simpl. apply Forall_app. split.
        - eapply Forall_impl; [exact Hq|]. intros r. by apply is_node_shape.
        - apply Forall_singleton. exists t. split; [done|].
          destruct Hs1 as (_ & -> & _). done. }
      exists s'. split; [|split; [|split]].
      * rewrite (bind_eq _ _ s s1 tt).
        -- rewrite (bind_eq _ _ _ _ _ (readArc_eq b A s1 HA)). exact E.
        -- rewrite (bind_eq _ _ _ _ _ (updNode_eq _ _ _ _ HT)). done.
      * by eapply same_shape_trans.
      * done.
      * assert (unmarked s1 = unmarked s0) as Hu1 by done.
        assert (length (queue s1) = S (length (queue s))) as Hl1.
        { unfold queue. simpl. rewrite length_app. simpl. lia. }
        lia.
Qed.

Lemma BFS_loop_returns (k : nat) : ∀ s,
  (2 * unmarked s + length (queue s) ≤ k)%nat →
  well_linked s → Forall (is_node s) (queue s) →
  ∃ fuel s', Graph.BFS_loop fuel s = Ok (tt, s').
Proof.
  induction k as [|k IH]; intros s Hk Hw Hq.
  - exists 1%nat, s. simpl. unfold bind. simpl.
    destruct (Graph._struct (Graph.this s)) eqn:E; [done|].
    unfold queue in Hk. rewrite E in Hk. simpl in Hk. lia.
  - destruct (Graph._struct (Graph.this s)) as [|node rest] eqn:Est.
    { exists 1%nat, s. simpl. unfold bind. simpl. by rewrite Est. }
    unfold queue in Hq, Hk. rewrite Est in Hq, Hk.
    apply Forall_cons in Hq as [(a & -> & Ha) Hrest].
    destruct (heads_valid _ _ Ha) as [N HN].
    set (s1 := Graph.mkState (Graph.store s) (Graph.with_struct rest (Graph.this s))).
    set (s2 := Graph.mkState (Graph.store s1)
                 (Graph.with_traversal (Graph._traversal (Graph.this s1) ++ [obj a])
                    (Graph.this s1))).
    pose proof Hw as (_ & Hw2 & _).
    destruct (Hw2 a (GraphNode._arcList N)) as [l Hl].
    { unfold heads. by rewrite list_lookup_fmap, HN. }
    destruct (BFS_arcs_returns l (GraphNode._arcList N) s2)
      as (s3 & E3 & Hs3 & Hq3 & Hm3); [done..|].
    destruct (IH s3) as (f & s' & E); [|by eapply well_linked_shape|done|].
    { assert (unmarked s2 = unmarked s) by done.
      assert (length (queue s2) = length rest) by done.
      simpl in Hk. lia. }
    exists (S (S (length l) `max` f)), s'.
    change (Graph.BFS_loop (S (S (length l) `max` f)) s)
      with ((let! g := Graph.getG in
             match Graph._struct g with
             | [] => ret tt
             | node :: rest =>
                 Graph.modG (Graph.with_struct rest) ;;;
                 Graph.modG (fun g => Graph.with_traversal
                                        (Graph._traversal g ++ [node]) g) ;;;
                 let! N := Graph.readNode node in
                 Graph.BFS_arcs (S (length l) `max` f) (GraphNode._arcList N) ;;;
                 Graph.BFS_loop (S (length l) `max` f)
             end) s).
    rewrite (bind_eq _ _ _ _ _ (getG_eq _)). rewrite Est.
    rewrite (bind_eq _ _ _ _ _ (modG_eq _ _)).
    rewrite (bind_eq _ _ _ _ _ (modG_eq _ _)).
    rewrite (bind_eq _ _ s2 s2 N) by (by apply readNode_eq).
    rewrite (bind_eq _ _ _ _ _
               (BFS_arcs_fuel (S (length l)) (S (length l) `max` f) _ ltac:(lia) _ _ E3)).
    exact (BFS_loop_fuel f (S (length l) `max` f) ltac:(lia) _ _ E).
Qed.

Lemma BFSTraversal_returns s a N :
  well_linked s → queue s = [] →
  GraphNode.nodes (Graph.store s) !! a = Some N →
  ∃ fuel s', Graph.__BFSTraversal fuel (obj a) s = Ok (tt, s').
Proof.
  intros Hw Hq Ha.
  pose proof (set_marked_shape a N true s Ha) as Hs0.
  set (s0 := put_node a (GraphNode.set_marked true N) s) in *.
  set (s1 := Graph.mkState (Graph.store s0)
               (Graph.with_struct (Graph._struct (Graph.this s0) ++ [obj a])
                  (Graph.this s0))).
  destruct (BFS_loop_returns (2 * unmarked s1 + length (queue s1)) s1)
    as (f & s' & E); [done|by eapply well_linked_shape| |].
  { unfold queue in *. simpl. rewrite Hq. simpl. apply Forall_singleton.
    exists a. split; [done|]. change (heads s1) with (heads s0).
    destruct Hs0 as (_ & -> & _).
    unfold heads. rewrite length_fmap. by eapply lookup_lt_Some. }
  exists f, s'. unfold Graph.__BFSTraversal.
  rewrite (bind_eq _ _ _ _ _ (updNode_eq _ _ _ _ Ha)).
  rewrite (bind_eq _ _ _ _ _ (modG_eq _ _)). exact E.
Qed.

(** *** The two entry points *)

Lemma resolveStart_returns veq s arg :
  well_linked s →
  valid_ref (length (heads s)) (Graph._nodeList (Graph.this s)) →
  start_valid s arg →
  ∃ fuel root, Graph.resolveStart veq fuel arg s = Ok (root, s) ∧
               valid_ref (length (heads s)) root.
Proof.
  intros Hw Hh Ha. destruct arg as [|a|v]; simpl.
  - exists 0%nat, (Graph._nodeList (Graph.this s)). done.
  - exists 0%nat, (obj a). done.
  - destruct (chain_of_valid _ _ Hw Hh) as [l Hl].
    destruct (findNode_loop_returns veq (Some v) l _ s Hl) as (r & E & Hr).
    exists (S (length l)), r. split; [|done].
    unfold Graph.findNode. by rewrite (bind_eq _ _ _ _ _ (getG_eq _)).
Qed.

Lemma entry_returns (go : nat → jsref → M (Graph.State V) unit) veq s arg :
  (∀ n m node, (n ≤ m)%nat → refines (go n node) (go m node)) →
  (∀ s1 a N, well_linked s1 → queue s1 = [] →
     GraphNode.nodes (Graph.store s1) !! a = Some N → GraphNode._marked N = false →
     ∃ fuel s2, go fuel (obj a) s1 = Ok (tt, s2)) →
  well_linked s →
  valid_ref (length (heads s)) (Graph._nodeList (Graph.this s)) →
  start_valid s arg →
  ∃ fuel l s', (let! root := Graph.resolveStart veq fuel arg in
                traverse_from go fuel root) (buffers_reset s) = Ok (l, s').
Proof.
  intros Hmono Hgo Hw Hh Ha.
  set (s0 := buffers_reset s).
  assert (well_linked s0) as Hw0 by done.
  destruct (resolveStart_returns veq s0 arg) as (f1 & root & E1 & Hr); [done..|].
  destruct root as [| |a].
  - exists f1, [], s0. by rewrite (bind_eq _ _ _ _ _ E1).
  - exists f1, [], s0. by rewrite (bind_eq _ _ _ _ _ E1).
  - destruct (chain_of_valid _ _ Hw0 Hr) as [l Hl].
    destruct (unmark_loop_returns l _ s0 Hl) as (s1 & E2 & Hs1 & Ht1 & _ & Hun).
    destruct (Hun a) as (N' & HN' & Hm').
    { inversion Hl as [r Hr0|a' x l' Hx Hl']; subst; [discriminate|].
      apply elem_of_cons. by left. }
    destruct (Hgo s1 a N') as (f3 & s2 & E3); [by eapply well_linked_shape| |done..|].
    { unfold queue. by rewrite Ht1. }
    set (F := (f1 `max` (S (length l) `max` f3))%nat).
    exists F, (Graph._traversal (Graph.this s2)), s2.
    rewrite (bind_eq _ _ _ _ _ (resolveStart_fuel veq f1 F _ ltac:(lia) _ _ E1)).
    unfold traverse_from. simpl.
    rewrite (bind_eq _ _ _ _ _
               (unmark_loop_fuel (S (length l)) F _ ltac:(lia) _ _ E2)).
    rewrite (bind_eq _ _ _ _ _ (Hmono f3 F _ ltac:(lia) _ _ E3)).
    by rewrite (bind_eq _ _ _ _ _ (getG_eq _)).
Qed.

Lemma DFS_returns veq s arg :
  well_linked s →
  valid_ref (length (heads s)) (Graph._nodeList (Graph.this s)) →
  start_valid s arg →
  ∃ fuel l s', Graph.DFS veq fuel arg s = Ok (l, s').
Proof.
  intros Hw Hh Ha.
  destruct (entry_returns Graph.__DFSTraversal veq s arg) as (f & l & s' & E);
    [by apply DFSTraversal_fuel| |done..|].
  { intros s1 a N Hw1 _ HN Hm.
    destruct (DFSTraversal_returns (unmarked s1) s1 a N) as (fuel & s2 & ? & _);
      eauto. }
  exists f. rewrite DFS_unfold.
  destruct (_ =? 0); [eauto|]. destruct (_ =? 1); eauto.
Qed.

Lemma BFS_returns veq s arg :
  well_linked s →
  valid_ref (length (heads s)) (Graph._nodeList (Graph.this s)) →
  start_valid s arg →
  ∃ fuel l s', Graph.BFS veq fuel arg s = Ok (l, s').
Proof.
  intros Hw Hh Ha.
  destruct (entry_returns Graph.__BFSTraversal veq s arg) as (f & l & s' & E);
    [by apply BFSTraversal_fuel| |done..|].
  { intros s1 a N Hw1 Hq HN _. by eapply BFSTraversal_returns. }
  exists f. rewrite BFS_unfold.
  destruct (_ =? 0); [eauto|]. destruct (_ =? 1); eauto.
Qed.

End Returns.

(** ** Claims on the traversals *)

Section Traversals.
Context {V : Type} (veq : V → V → bool).
Implicit Types (s : Graph.State V) (arg : StartArg V).

Lemma findNode_loop_frame (fuel : nat) value node st g g' :
  Graph.findNode_loop veq fuel value node (Graph.mkState st g') =
  match Graph.findNode_loop veq fuel value node (Graph.mkState st g) with
  | Ok (r, _) => Ok (r, Graph.mkState st g')
  | TypeError => TypeError
  | OutOfFuel => OutOfFuel
  end.
Proof.
  revert node. induction fuel as [|fuel IH]; intros node; [done|].
  simpl. destruct node as [| |a]; simpl; try done.
  unfold bind, Graph.readNode, Graph.call, GraphNode.readNode. simpl.
  destruct (GraphNode.nodes st !! a) as [N|]; [|done].
  destruct (Graph.val_loose_eq veq _ _); [done|]. apply IH.
Qed.

Lemma resolve_value (fuel : nat) v s r s1 :
  Graph.findNode veq fuel (Some v) s = Ok (r, s1) →
  Graph.resolveStart veq fuel (StartValue v) (buffers_reset s)
  = Ok (r, buffers_reset s).
Proof.
  destruct s as [st g]. unfold Graph.resolveStart, Graph.findNode, buffers_reset.
  unfold bind at 1 2. simpl. intros H.
  rewrite (findNode_loop_frame _ _ _ st g). simpl in H. by rewrite H.
Qed.

Lemma DFS_NoDup (fuel : nat) arg s l s' :
  Graph.DFS veq fuel arg s = Ok (l, s') → NoDup l.
Proof.
  intros H. rewrite DFS_unfold in H.
  destruct (_ =? 0); [injection H as <- _; apply NoDup_nil_2|].
  destruct (_ =? 1); [injection H as <- _; apply NoDup_singleton|].
  eapply entry_Ok in H as [Hnd _]; [done|].
  intros root s1 s2. apply DFS_from_empty.
Qed.

Lemma BFS_NoDup (fuel : nat) arg s l s' :
  Graph.BFS veq fuel arg s = Ok (l, s') → NoDup l.
Proof.
  intros H. rewrite BFS_unfold in H.
  destruct (_ =? 0); [injection H as <- _; apply NoDup_nil_2|].
  destruct (_ =? 1); [injection H as <- _; apply NoDup_singleton|].
  eapply entry_Ok in H as [Hnd _]; [done|].
  intros root s1 s2. apply BFS_from_empty.
Qed.

(** C10.  One call of [DFS] or of [BFS] returns no node twice: a node is
    marked when it is recorded (depth-first) or queued (breadth-first),
    and only unmarked nodes are visited.  This holds on every store; on a
    well-linked store, with a start node of the store, both calls do
    return, for every amount of fuel from some amount on. *)
Theorem traversal_records_each_node_once arg s :
  (∀ fuel l s', Graph.DFS veq fuel arg s = Ok (l, s') → NoDup l) ∧
  (∀ fuel l s', Graph.BFS veq fuel arg s = Ok (l, s') → NoDup l) ∧
  (well_linked s →
   valid_ref (length (heads s)) (Graph._nodeList (Graph.this s)) →
   start_valid s arg →
   ∃ fuel ld sd lb sb, ∀ k,
     Graph.DFS veq (fuel + k) arg s = Ok (ld, sd) ∧
     Graph.BFS veq (fuel + k) arg s = Ok (lb, sb)).
Proof.
  split; [intros; by eapply DFS_NoDup|].
  split; [intros; by eapply BFS_NoDup|].
  intros Hw Hh Ha.
  destruct (DFS_returns veq s arg Hw Hh Ha) as (fd & ld & sd & Ed).
  destruct (BFS_returns veq s arg Hw Hh Ha) as (fb & lb & sb & Eb).
  exists (fd `max` fb)%nat, ld, sd, lb, sb. intros k. split.
  - exact (DFS_fuel veq fd (fd `max` fb + k) _ ltac:(lia) _ _ Ed).
  - exact (BFS_fuel veq fb (fd `max` fb + k) _ ltac:(lia) _ _ Eb).
Qed.

Lemma start_rules_of go search :
  (∀ fuel arg s,
     search fuel arg s =
     if Graph._size (Graph.this s) =? 0 then Ok ([], s)
     else if Graph._size (Graph.this s) =? 1
          then Ok ([Graph._nodeList (Graph.this s)], s)
          else (let! root := Graph.resolveStart veq fuel arg in
                traverse_from go fuel root) (buffers_reset s)) →
  (∀ fuel root s1 s2, trav s1 = [] → queue s1 = [] →
     go fuel root s1 = Ok (tt, s2) →
     NoDup (trav s2) ∧ ∃ l, trav s2 = root :: l) →
  ∀ fuel s, start_rules veq search fuel s.
Proof.
  intros Hunf Hgo fuel s. unfold start_rules. simpl.
  repeat split.
  - intros arg Hz. rewrite Hunf, Hz. done.
  - intros arg Hz. rewrite Hunf, Hz. done.
  - intros h Hh. rewrite !Hunf.
    destruct (_ =? 0); [done|]. destruct (_ =? 1); [done|].
    unfold Graph.resolveStart, bind, Graph.getG, ret. simpl. by rewrite Hh.
  - intros a l s' Hz Ho H. rewrite Hunf in H.
    apply Z.eqb_neq in Hz, Ho. rewrite Hz, Ho in H.
    eapply entry_Ok in H as [_ Hhd]; [by apply Hhd|]. apply Hgo.
  - intros v a s1 Hf. rewrite !Hunf.
    destruct (_ =? 0); [done|]. destruct (_ =? 1); [done|].
    unfold bind. rewrite (resolve_value _ _ _ _ _ Hf). done.
  - intros v r s1 Ho Hf Hr. rewrite Hunf.
    destruct (_ =? 0); [eauto|].
    apply Z.eqb_neq in Ho. rewrite Ho.
    unfold bind at 1. rewrite (resolve_value _ _ _ _ _ Hf).
    unfold traverse_from. rewrite Hr. simpl. eauto.
Qed.

(** C7.  [DFS] and [BFS] alike: an empty graph gives the empty sequence,
    a graph of one node gives that node whatever the argument, an absent
    argument starts at the first node of the graph, a node reference is
    itself the start, any other value starts at the node that [findNode]
    returns, and gives the empty sequence when [findNode] returns null. *)
Theorem traversal_start_resolution (fuel : nat) s
    (search : nat → StartArg V → M (Graph.State V) (list jsref)) :
  search = Graph.DFS veq ∨ search = Graph.BFS veq →
  let g := Graph.this s in
  (* empty graph *)
  (∀ arg, Graph._size g = 0 → search fuel arg s = Ok ([], s)) ∧
  (* exactly one node *)
  (∀ arg, Graph._size g = 1 → search fuel arg s = Ok ([Graph._nodeList g], s)) ∧
  (* absent: the first node of the graph *)
  (∀ h, Graph._nodeList g = obj h →
        search fuel StartAbsent s = search fuel (StartNode h) s) ∧
  (* a node reference is the first node recorded *)
  (∀ a l s', Graph._size g ≠ 0 → Graph._size g ≠ 1 →
        search fuel (StartNode a) s = Ok (l, s') → ∃ tl, l = obj a :: tl) ∧
  (* any other value: the node that findNode returns *)
  (∀ v a s1, Graph.findNode veq fuel (Some v) s = Ok (obj a, s1) →
        search fuel (StartValue v) s = search fuel (StartNode a) s) ∧
  (* and nothing when findNode returns null *)
  (∀ v r s1, Graph._size g ≠ 1 →
        Graph.findNode veq fuel (Some v) s = Ok (r, s1) → non_null r = false →
        ∃ s', search fuel (StartValue v) s = Ok ([], s')).
Proof.
  intros [->| ->].
  - apply (start_rules_of Graph.__DFSTraversal).
    + intros. apply DFS_unfold.
    + intros ? ? ? ?. apply DFS_from_empty.
  - apply (start_rules_of Graph.__BFSTraversal).
    + intros. apply BFS_unfold.
    + intros ? ? ? ?. apply BFS_from_empty.
Qed.

End Traversals.

(** ** Claims on arcs, nodes and the graph, on concrete objects *)

(** C8.  Assigning a finite cost that is zero or more and reading it back
    gives that cost; assigning a negative, NaN or infinite number leaves
    the arc as it was.  No case raises an error: the setter is total. *)
Theorem set_cost_accepts_or_keeps (a : GraphArc.t) (c : number) :
  (isFinite c = true → num_ge c num_zero = true →
     GraphArc.cost (GraphArc.set_cost c a) = c ∧
     GraphArc.node (GraphArc.set_cost c a) = GraphArc.node a ∧
     GraphArc.previous (GraphArc.set_cost c a) = GraphArc.previous a ∧
     GraphArc.next (GraphArc.set_cost c a) = GraphArc.next a) ∧
  (SFltb c num_zero = true ∨ isNaN c = true ∨ isFinite c = false →
     GraphArc.set_cost c a = a).
Proof.
  split.
  - intros Hf Hge. unfold GraphArc.set_cost, GraphArc.cost. simpl.
    rewrite Hf, Hge. destruct c; try discriminate; done.
  - intros H. destruct a as [n p x k]. unfold GraphArc.set_cost. simpl. f_equal.
    destruct H as [H|[H|H]].
    + destruct c as [[]|[]| |[] m e]; try discriminate; done.
    + destruct c; try discriminate; done.
    + destruct c; try discriminate; done.
Qed.

Lemma set_cost_accepts_or_keeps_witness :
  GraphArc.cost (GraphArc.set_cost num_one (GraphArc.constructor null num_zero)) = num_one ∧
  GraphArc.set_cost (S754_infinity false) (GraphArc.constructor null num_one)
  = GraphArc.constructor null num_one.
Proof.
  split.
  - apply (proj1 (set_cost_accepts_or_keeps (GraphArc.constructor null num_zero) num_one));
      reflexivity.
  - apply (proj2 (set_cost_accepts_or_keeps (GraphArc.constructor null num_one)
                    (S754_infinity false))).
    right. right. reflexivity.
Defined.

(** C1.  [removeArc] on the last of two arcs returns true and unlinks
    nothing: the arc count stays 2 and both targets remain.  The assignment
    [arc.previous.next = arc.next] passes null to an accessor that ignores
    null.  Removing the first arc does take it out. *)
Theorem removeArc_of_tail_unlinks_nothing (k : nat) :
  Cases.value_of (Cases.remove_and_count (10 + k) snd Cases.S0)
  = Some (2, true, 2, [obj 1; obj 2]) ∧
  Cases.value_of (Cases.remove_and_count (10 + k) (fun x => snd (fst x)) Cases.S0)
  = Some (2, true, 1, [obj 2]) ∧
  Cases.value_of (Cases.remove_and_count (10 + k) (fun _ => obj 0) Cases.S0)
  = Some (2, false, 2, [obj 1; obj 2]).
Proof. repeat split; by_running 10%nat remove_and_count_fuel. Qed.

(** C2.  The marks are cleared from the start node to the end of the node
    list only.  With nodes A, B and the edge B->A, [DFS(B)] and [BFS(B)]
    give [B; A] on the graph as built and [B] alone after a traversal from
    A, whose mark on A is still set. *)
Theorem marks_before_start_survive (k : nat) :
  Cases.value_of (Cases.dfs_first (10 + k) fresh_state) = Some [obj 1; obj 0] ∧
  Cases.value_of (Cases.dfs_second (10 + k) fresh_state) = Some ([obj 0], [obj 1]) ∧
  Cases.value_of (Cases.bfs_first (10 + k) fresh_state) = Some [obj 1; obj 0] ∧
  Cases.value_of (Cases.bfs_second (10 + k) fresh_state) = Some ([obj 0], [obj 1]).
Proof.
  split; [by_running 10%nat dfs_first_fuel|].
  split; [by_running 10%nat dfs_second_fuel|].
  split; [by_running 10%nat bfs_first_fuel|by_running 10%nat bfs_second_fuel].
Qed.

(** C3.  [size] and [toArray().length] part: after [addNode(n); remove(v)]
    they are 0 and 1, after [addNode(n1); addNode(n2); removeNode(n2)]
    they are 1 and 2, after [addNode(null)] they are 1 and 0. *)
Theorem size_leaves_toArray_length (k : nat) :
  Cases.value_of (Cases.add_remove (10 + k) fresh_state) = Some (true, (0, 1%nat)) ∧
  Cases.value_of (Cases.add_add_removeNode (10 + k) fresh_state) = Some (1, 2%nat) ∧
  Cases.value_of (Cases.add_null (10 + k) fresh_state) = Some (1, 0%nat).
Proof.
  split; [by_running 10%nat add_remove_fuel|].
  split; [by_running 10%nat add_add_removeNode_fuel|by_running 10%nat add_null_fuel].
Qed.

(** With arcs in both directions between A and B, after [removeNode(B)]
    the node list is [A], A is still connected to B, and the arc list of B
    still has its head: the unlinking assigns null through accessors that
    ignore null. *)
Theorem removeNode_leaves_incoming_arc (k : nat) :
  Cases.value_of (Cases.mutual_removeNode (10 + k) fresh_state)
  = Some ([obj 1], true, obj 1).
Proof. by_running 10%nat mutual_removeNode_fuel. Qed.

(** C6.  After [clear()] the graph is empty, and the node and the arc it
    held are as before: the node keeps its value, its next link and its
    arc list, the arc keeps its target. *)
Theorem clear_leaves_objects_linked (k : nat) :
  Cases.value_of (Cases.cleared_objects (10 + k) fresh_state)
  = Some (Graph.constructor, Some "1"%string, obj 1, obj 0, obj 1).
Proof. by_running 10%nat cleared_objects_fuel. Qed.

(** The graph part of C6 holds for every graph on which [clear] returns. *)
Section Clear.
Context {V : Type}.
Implicit Types (s : Graph.State V).

Lemma call_this {A} (m : M (GraphNode.Store V) A) s a s' :
  Graph.call m s = Ok (a, s') → Graph.this s' = Graph.this s.
Proof.
  unfold Graph.call. destruct (m (Graph.store s)) as [[b st]| |]; try discriminate.
  by intros [= _ <-].
Qed.

Lemma clear_arcs_this (fuel : nat) arc s s' :
  Graph.clear_arcs fuel arc s = Ok (tt, s') → Graph.this s' = Graph.this s.
Proof.
  revert arc s. induction fuel as [|fuel IH]; intros arc s H; [discriminate|].
  simpl in H. destruct (non_null arc).
  - do 4 step_in H.
    apply call_this in Hs, Hs0, Hs1, Hs2. apply IH in H. congruence.
  - step_in H. congruence.
Qed.

Lemma clear_nodes_this (fuel : nat) node s s' :
  Graph.clear_nodes fuel node s = Ok (tt, s') → Graph.this s' = Graph.this s.
Proof.
  revert node s. induction fuel as [|fuel IH]; intros node s H; [discriminate|].
  simpl in H. destruct (non_null node).
  - do 6 step_in H. destruct x0.
    apply call_this in Hs, Hs1, Hs2, Hs3, Hs4.
    apply clear_arcs_this in Hs0. apply IH in H. congruence.
  - step_in H. congruence.
Qed.

Lemma clear_empties_graph (fuel : nat) s s' :
  Graph.clear fuel s = Ok (tt, s') → Graph.this s' = Graph.constructor.
Proof.
  unfold Graph.clear. intros H. do 6 step_in H. destruct x2.
  apply clear_nodes_this in Hs2.
  repeat match goal with
         | H : Graph.modG _ _ = Ok _ |- _ => step_in H
         | H : Graph.getG _ = Ok _ |- _ => step_in H
         end.
  simplify_eq. simpl in *. rewrite Hs2. reflexivity.
Qed.
End Clear.

(** C5.  On the graph with nodes R, A, B, C, D, E, F, G and the edges
    A->D, D->G, R->A, R->B, R->C, B->E, C->F added in this order, [DFS]
    from R returns R, A, D, G, B, E, C, F and [BFS] from R returns
    R, A, B, C, D, E, F, G; R given as a node, by default, or by value. *)
Theorem scenario_traversal_orders (k : nat) :
  let DFS := Graph.DFS String.eqb in
  let BFS := Graph.BFS String.eqb in
  let run search startNode :=
    Cases.value_of (Scenario.traversal_ids search startNode (30 + k) fresh_state) in
  let dfs := Scenario.strs ["R"; "A"; "D"; "G"; "B"; "E"; "C"; "F"]%string in
  let bfs := Scenario.strs ["R"; "A"; "B"; "C"; "D"; "E"; "F"; "G"]%string in
  run DFS (StartNode 0) = dfs ∧ run BFS (StartNode 0) = bfs ∧
  run DFS StartAbsent = dfs ∧ run BFS StartAbsent = bfs ∧
  run DFS (StartValue "R"%string) = dfs ∧ run BFS (StartValue "R"%string) = bfs.
Proof.
  intros DFS BFS run dfs bfs. subst run. cbv beta.
  repeat apply conj;
    (apply (value_of_fuel (Scenario.traversal_ids _ _) 30%nat (30 + k)%nat);
     [apply traversal_ids_fuel; [subst DFS BFS; eauto with fuel|lia]
     | vm_compute; reflexivity]).
Qed.

(** The adapter builds the same graph from the list of the tests. *)
Lemma graph1_from_list (k : nat) :
  graphFromList (30 + k) (Some Scenario.graph1)
  = Scenario.build (30 + k) fresh_state.
Proof.
  assert (∃ r, graphFromList 30 (Some Scenario.graph1) = Ok r ∧
               Scenario.build 30 fresh_state = Ok r) as (r & H1 & H2).
  { eexists. split; vm_compute; reflexivity. }
  rewrite (graphFromList_fuel 30 (30 + k) _ _ ltac:(lia) H1).
  symmetry. by apply (build_fuel 30 (30 + k) ltac:(lia)).
Qed.

(** ** Claims on graphFromList *)

Lemma forEach_log nodeList from toList log :
  forEach toList (fun nodeID => Cases.log_call from (cache_get nodeList nodeID)) log
  = Ok (tt, log ++ map (fun nodeID => (from, cache_get nodeList nodeID)) toList).
Proof.
  revert log. induction toList as [|i l IH]; intros log; simpl.
  - by rewrite app_nil_r.
  - unfold bind. simpl. rewrite IH. by rewrite <- app_assoc.
Qed.

(** C9.  Given no description, [graphFromList] returns a new graph: size
    0, no node list, an empty array of nodes.  For an edge whose [to] is an
    array, it calls [addEdge] once per element, in order, from the node of
    [from] to the node of that element. *)
Theorem graphFromList_absent_and_fanout :
  (∀ fuel, graphFromList fuel None = Ok (tt, fresh_state)) ∧
  Graph._size (Graph.this (@fresh_state string)) = 0 ∧
  Graph._nodeList (Graph.this (@fresh_state string)) = null ∧
  (∀ fuel, Graph.toArray (S fuel) (@fresh_state string) = Ok ([], fresh_state)) ∧
  (∀ nodeList from toList log,
     graphFromList_edge Cases.log_call nodeList
       (IGraphEdge.mk from (IGraphEdge.Many toList)) log
     = Ok (tt, log ++ map (fun nodeID => (cache_get nodeList from,
                                           cache_get nodeList nodeID)) toList)) ∧
  (∀ fuel data,
     graphFromList fuel (Some data)
     = (let! nodeList := graphFromList_nodes (GraphList.nodes data) ∅ in
        forEach (GraphList.edges data)
          (graphFromList_edge (fun from to => Graph.addEdge fuel from to num_one)
             nodeList)) fresh_state).
Proof.
  split; [done|]. split; [done|]. split; [done|]. split; [done|]. split.
  - intros. unfold graphFromList_edge. simpl. apply forEach_log.
  - done.
Qed.

(** One edge from R to the array A, B, C leaves three arcs on R. *)
Lemma fan_has_three_arcs :
  Cases.arcs_of 10 (obj 0) (graphFromList 10 (Some Scenario.fan))
  = Some (3, [obj 1; obj 2; obj 3]).
Proof. vm_compute; reflexivity. Qed.

(** ** The claims with a premise, on concrete graphs *)

Lemma two_nodes_well_linked : well_linked Cases.two_nodes.
Proof.
  split; [|split].
  - intros [|[|a]] x; vm_compute; intros [= <-].
    + exists [1%nat]. econstructor; [reflexivity|]. by constructor.
    + exists []. by constructor.
  - intros [|[|a]] h; vm_compute; intros [= <-].
    + exists []. by constructor.
    + exists [0%nat]. econstructor; [reflexivity|]. by constructor.
  - intros [|b] A; vm_compute; intros [= <-].
    exists 0%nat. split; [reflexivity|lia].
Qed.

Lemma traversal_records_each_node_once_witness :
  (∃ l s', Graph.DFS String.eqb 10 (StartNode 1) Cases.two_nodes = Ok (l, s') ∧
           NoDup l) ∧
  (∃ fuel ld sd lb sb, ∀ k,
     Graph.DFS String.eqb (fuel + k) (StartNode 1) Cases.two_nodes = Ok (ld, sd) ∧
     Graph.BFS String.eqb (fuel + k) (StartNode 1) Cases.two_nodes = Ok (lb, sb)).
Proof.
  pose proof (traversal_records_each_node_once String.eqb (StartNode 1)
                Cases.two_nodes) as (HD & _ & HR).
  split.
  - eexists _, _. split; [vm_compute; reflexivity|].
    eapply (HD 10%nat). vm_compute; reflexivity.
  - apply HR.
    + exact two_nodes_well_linked.
    + vm_compute. lia.
    + vm_compute. lia.
Defined.

Lemma traversal_start_resolution_witness :
  Graph.DFS String.eqb 10 (StartValue "x"%string) fresh_state = Ok ([], fresh_state) ∧
  Graph.BFS String.eqb 10 (StartValue "x"%string) Cases.one_node
  = Ok ([obj 0], Cases.one_node) ∧
  Graph.DFS String.eqb 10 StartAbsent Cases.two_nodes
  = Graph.DFS String.eqb 10 (StartNode 0) Cases.two_nodes ∧
  Graph.BFS String.eqb 10 (StartValue "B"%string) Cases.two_nodes
  = Graph.BFS String.eqb 10 (StartNode 1) Cases.two_nodes ∧
  (∃ s', Graph.DFS String.eqb 10 (StartValue "x"%string) Cases.two_nodes = Ok ([], s')).
Proof.
  pose proof (traversal_start_resolution String.eqb 10 fresh_state
                (Graph.DFS String.eqb) (or_introl eq_refl)) as D0.
  pose proof (traversal_start_resolution String.eqb 10 Cases.one_node
                (Graph.BFS String.eqb) (or_intror eq_refl)) as B1.
  pose proof (traversal_start_resolution String.eqb 10 Cases.two_nodes
                (Graph.DFS String.eqb) (or_introl eq_refl)) as D2.
  pose proof (traversal_start_resolution String.eqb 10 Cases.two_nodes
                (Graph.BFS String.eqb) (or_intror eq_refl)) as B2.
  destruct D0 as (E0 & _).
  destruct B1 as (_ & E1 & _).
  destruct D2 as (_ & _ & E2 & _ & _ & E5).
  destruct B2 as (_ & _ & _ & _ & E4 & _).
  split; [apply E0; reflexivity|].
  split; [apply E1; reflexivity|].
  split; [apply E2; reflexivity|].
  split; [eapply E4; vm_compute; reflexivity|].
  eapply E5; [vm_compute; discriminate|vm_compute; reflexivity|reflexivity].
Defined.

(** ** removeNode on a node without arcs *)

Section RemoveNode.
Context {V : Type}.
Implicit Types (s : Graph.State V) (N : GraphNode.t V).

Lemma set_next_relinks : relinks (V:=V) GraphNode.set_next.
Proof.
  intros x N. unfold GraphNode.set_next.
  destruct (GraphNode.accepted x); simpl; auto.
Qed.

Lemma set_previous_relinks : relinks (V:=V) GraphNode.set_previous.
Proof.
  intros x N. unfold GraphNode.set_previous.
  destruct (GraphNode.accepted x); simpl; auto.
Qed.

(** [if (r != null) r.next = x] or [if (r != null) r.previous = x]. *)
Lemma relink_step f r x s :
  relinks f → links_valid s →
  valid_ref (length (GraphNode.nodes (Graph.store s))) r →
  valid_ref (length (GraphNode.nodes (Graph.store s))) x →
  ∃ s1, when_ (non_null r) (Graph.updNode r (f x)) s = Ok (tt, s1) ∧
        links_valid s1 ∧ heads s1 = heads s ∧
        GraphNode.arcs (Graph.store s1) = GraphNode.arcs (Graph.store s) ∧
        Graph.this s1 = Graph.this s.
Proof.
  intros Hf Hv Hr Hx. destruct r as [| |p]; simpl; try (exists s; done).
  simpl in Hr. destruct (lookup_lt_is_Some_2 _ _ Hr) as [P HP].
  exists (put_node p (f x P) s). split; [by apply updNode_eq|].
  split; [|split; [|done]].
  - intros a M. unfold put_node. simpl. rewrite length_insert.
    destruct (decide (p = a)) as [->|Hne].
    + rewrite list_lookup_insert_eq by done. intros [= <-].
      destruct (Hv _ _ HP). by apply Hf.
    + rewrite list_lookup_insert_ne by done. apply Hv.
  - eapply heads_put; [done|apply Hf].
Qed.

Lemma heads_lookup s s1 a N :
  heads s1 = heads s →
  GraphNode.nodes (Graph.store s) !! a = Some N →
  ∃ N1, GraphNode.nodes (Graph.store s1) !! a = Some N1 ∧
        GraphNode._arcList N1 = GraphNode._arcList N.
Proof.
  unfold heads. intros E H.
  assert ((GraphNode._arcList <$> GraphNode.nodes (Graph.store s1)) !! a
          = Some (GraphNode._arcList N)) as H1.
  { rewrite E, list_lookup_fmap, H. done. }
  rewrite list_lookup_fmap in H1.
  destruct (GraphNode.nodes (Graph.store s1) !! a) as [N1|]; [|done].
  injection H1 as H1. eauto.
Qed.

Lemma unlink_without_arcs (fuel : nat) n N s :
  GraphNode.nodes (Graph.store s) !! n = Some N →
  non_null (GraphNode._arcList N) = false →
  Graph.__unlink (S fuel) (obj n) s = Ok (tt, s).
Proof.
  intros Hn Ha. unfold Graph.__unlink.
  rewrite (bind_eq _ _ _ _ _ (readNode_eq _ _ _ Hn)). simpl. rewrite Ha.
  rewrite (bind_eq _ _ s s tt) by done.
  rewrite (updNode_eq _ _ _ _ Hn). unfold GraphNode.set_arcList. simpl.
  by rewrite put_node_same.
Qed.

(** C4.  When node [n] owns no arc, [removeNode(n)] returns and
    changes no arc and no arc-list head: the arcs of other nodes whose
    target is [n] stay, and the arc-list head of [n] is absent. *)
Theorem removeNode_without_arcs_keeps_all_arcs (fuel : nat) n N s :
  links_valid s →
  GraphNode.nodes (Graph.store s) !! n = Some N →
  non_null (GraphNode._arcList N) = false →
  ∃ s', Graph.removeNode (S fuel) (obj n) s = Ok (tt, s') ∧
        GraphNode.arcs (Graph.store s') = GraphNode.arcs (Graph.store s) ∧
        heads s' = heads s ∧
        (∃ N', GraphNode.nodes (Graph.store s') !! n = Some N' ∧
               non_null (GraphNode._arcList N') = false) ∧
        Graph._size (Graph.this s') = Graph._size (Graph.this s) - 1.
Proof.
  intros Hv Hn Ha. unfold Graph.removeNode. simpl.
  rewrite (bind_eq _ _ _ _ _ (unlink_without_arcs fuel _ _ _ Hn Ha)).
  rewrite (bind_eq _ _ _ _ _ (readNode_eq _ _ _ Hn)).
  destruct (Hv _ _ Hn) as [Hp Hx].
  destruct (relink_step GraphNode.set_next (GraphNode._prev N) (GraphNode._next N) s)
    as (s1 & E1 & Hv1 & Hh1 & Ha1 & Ht1); [apply set_next_relinks|done..|].
  rewrite (bind_eq _ _ _ _ _ E1).
  destruct (heads_lookup s s1 n N Hh1 Hn) as (N1 & Hn1 & HA1).
  rewrite (bind_eq _ _ _ _ _ (readNode_eq _ _ _ Hn1)).
  destruct (Hv1 _ _ Hn1) as [Hp1 Hx1].
  destruct (relink_step GraphNode.set_previous (GraphNode._next N1)
              (GraphNode._prev N1) s1)
    as (s2 & E2 & Hv2 & Hh2 & Ha2 & Ht2); [apply set_previous_relinks|done..|].
  rewrite (bind_eq _ _ _ _ _ E2).
  destruct (heads_lookup s1 s2 n N1 Hh2 Hn1) as (N2 & Hn2 & HA2).
  rewrite (bind_eq _ _ s2 s2 (Graph.this s2)) by done.
  rewrite (bind_eq _ _ _ _ _ (readNode_eq _ _ _ Hn2)).
  destruct (ref_strict_eq _ _); simpl; unfold bind, Graph.modG; simpl;
    (eexists; split; [reflexivity|]; simpl;
     split; [congruence|]; split; [unfold heads in *; simpl; congruence|];
     split; [exists N2; split; [done|congruence]|congruence]).
Qed.

End RemoveNode.

Lemma removeNode_without_arcs_keeps_all_arcs_witness :
  ∃ s', Graph.removeNode 1 (obj 0) Cases.one_way = Ok (tt, s') ∧
        GraphNode.arcs (Graph.store s') = GraphNode.arcs (Graph.store Cases.one_way) ∧
        heads s' = heads Cases.one_way.
Proof.
  destruct (removeNode_without_arcs_keeps_all_arcs 0 0
              (GraphNode.with_next (obj 1) (GraphNode.constructor (Some "B"%string)))
              Cases.one_way)
    as (s' & H & Ha & Hh & _).
  - intros a M. vm_compute.
    destruct a as [|[|a]]; intros [= <-]; vm_compute; auto.
  - reflexivity.
  - reflexivity.
  - exists s'. auto.
Defined.

(** C4 as stated fails on a one-way arc: with nodes B, A and the edge
    A->B, after [removeNode(B)] node A remains and is connected to B. *)
Lemma removeNode_keeps_one_way_arc :
  Cases.value_of (Cases.oneway_removeNode 10 fresh_state) = Some ([obj 1], true).
Proof. vm_compute; reflexivity. Qed.

(** * Further properties of the lists *)

(** ** Chains of links *)

Section Chains.
Implicit Types (nexts : list jsref) (r : jsref) (l : list nat).

Lemma chain_functional nexts r l1 l2 :
  chain nexts r l1 → chain nexts r l2 → l1 = l2.
Proof.
  intros H. revert l2. induction H as [r Hr|a x l Hx Hl IH]; intros l2 H2.
  - inversion H2; subst; [done|discriminate].
  - inversion H2 as [r Hr|a' x' l' Hx' Hl']; subst; [discriminate|].
    rewrite Hx in Hx'. injection Hx' as <-. f_equal. by apply IH.
Qed.

Lemma chain_lt nexts r l a : chain nexts r l → a ∈ l → (a < length nexts)%nat.
Proof.
  induction 1 as [r Hr|b x l Hx Hl IH]; intros Ha.
  - by apply not_elem_of_nil in Ha.
  - apply elem_of_cons in Ha as [->|Ha]; [by eapply lookup_lt_Some|by apply IH].
Qed.

(** From a member of a chain, the chain goes on with the rest. *)
Lemma chain_from_member nexts r l a :
  chain nexts r l → a ∈ l →
  ∃ l1 l2, l = l1 ++ a :: l2 ∧ chain nexts (obj a) (a :: l2).
Proof.
  induction 1 as [r Hr|b x l Hx Hl IH]; intros Ha.
  - by apply not_elem_of_nil in Ha.
  - destruct (decide (a = b)) as [->|Hne].
    + exists [], l. split; [done|]. by econstructor.
    + apply elem_of_cons in Ha as [?|Ha]; [done|].
      destruct (IH Ha) as (l1 & l2 & -> & Hc). exists (b :: l1), l2. done.
Qed.

(** A chain that ends visits no object twice. *)
Lemma chain_NoDup nexts r l : chain nexts r l → NoDup l.
Proof.
  induction 1 as [r Hr|a x l Hx Hl IH]; [apply NoDup_nil_2|].
  apply NoDup_cons. split; [|done]. intros Ha.
  destruct (chain_from_member _ _ _ _ Hl Ha) as (l1 & l2 & -> & Hc).
  assert (chain nexts (obj a) (a :: l1 ++ a :: l2)) as Hc' by (by econstructor).
  pose proof (chain_functional _ _ _ _ Hc Hc') as E.
  apply (f_equal length) in E. simpl in E. rewrite length_app in E. simpl in E. lia.
Qed.

(** New objects at the end of the store keep a chain. *)
Lemma chain_app nexts ys r l : chain nexts r l → chain (nexts ++ ys) r l.
Proof.
  induction 1 as [r Hr|a x l Hx Hl IH]; [by constructor|].
  econstructor; [|exact IH]. by apply lookup_app_l_Some.
Qed.

(** A link assigned on an object off the chain keeps the chain. *)
Lemma chain_insert nexts i y r l :
  i ∉ l → chain nexts r l → chain (<[i := y]> nexts) r l.
Proof.
  intros Hi. induction 1 as [r Hr|a x l Hx Hl IH]; [by constructor|].
  apply not_elem_of_cons in Hi as [Hne Hi].
  econstructor; [|by apply IH]. by rewrite list_lookup_insert_ne.
Qed.

(** The same, read backwards. *)
Lemma chain_insert_inv nexts i y r l :
  i ∉ l → chain (<[i := y]> nexts) r l → chain nexts r l.
Proof.
  intros Hi. induction 1 as [r Hr|a x l Hx Hl IH]; [by constructor|].
  apply not_elem_of_cons in Hi as [Hne Hi].
  econstructor; [|by apply IH]. by rewrite list_lookup_insert_ne in Hx.
Qed.

(** Linking the last object of a chain to an object [n] off the chain,
    whose own link is null, extends the chain by [n]. *)
Lemma chain_extend nexts r l t n x :
  chain nexts r (l ++ [t]) → n ∉ l ++ [t] →
  nexts !! n = Some x → non_null x = false →
  chain (<[t := obj n]> nexts) r (l ++ [t; n]).
Proof.
  intros Hc Hn Hx Hnull.
  pose proof (chain_NoDup _ _ _ Hc) as Hnd.
  revert r Hc Hnd Hn. induction l as [|a l IH]; intros r Hc Hnd Hn; simpl in *.
  - inversion Hc as [|a' y l' Hy Hl']; subst.
    assert (t ≠ n) as Hne by (intros ->; apply Hn; by left).
    econstructor.
    + apply list_lookup_insert_eq. by eapply lookup_lt_Some.
    + econstructor; [|by constructor]. by rewrite list_lookup_insert_ne.
  - inversion Hc as [|a' y l' Hy Hl']; subst.
    apply NoDup_cons in Hnd as [Ha Hnd].
    apply not_elem_of_cons in Hn as [Hna Hn].
    econstructor; [|by apply IH].
    rewrite list_lookup_insert_ne; [done|].
    intros ->. apply Ha. apply elem_of_app. right. by left.
Qed.

(** The members of a chain are what the links lead to. *)
Lemma chain_last_null nexts r l t :
  chain nexts r l → last l = Some t → ∃ x, nexts !! t = Some x ∧ non_null x = false.
Proof.
  induction 1 as [r Hr|a x l Hx Hl IH]; [done|].
  destruct l as [|b l'].
  - intros [= <-]. inversion Hl; subst. eauto.
  - intros Hlast. apply IH. by rewrite last_cons_cons in Hlast.
Qed.

End Chains.

(** ** Reading the lists *)

Section Reading.
Context {V : Type}.
Implicit Types (st : GraphNode.Store V) (s : Graph.State V).

Lemma sreadNode_eq st a N :
  GraphNode.nodes st !! a = Some N → GraphNode.readNode (obj a) st = Ok (N, st).
Proof. intros H. unfold GraphNode.readNode. by rewrite H. Qed.

Lemma sreadArc_eq st b A :
  GraphNode.arcs st !! b = Some A → GraphNode.readArc (obj b) st = Ok (A, st).
Proof. intros H. unfold GraphNode.readArc. by rewrite H. Qed.

Lemma supdNode_eq st a N f :
  GraphNode.nodes st !! a = Some N →
  GraphNode.updNode (obj a) f st
  = Ok (tt, GraphNode.mkStore (<[a := f N]> (GraphNode.nodes st)) (GraphNode.arcs st)).
Proof. intros H. unfold GraphNode.updNode. by rewrite H. Qed.

Lemma supdArc_eq st b A f :
  GraphNode.arcs st !! b = Some A →
  GraphNode.updArc (obj b) f st
  = Ok (tt, GraphNode.mkStore (GraphNode.nodes st) (<[b := f A]> (GraphNode.arcs st))).
Proof. intros H. unfold GraphNode.updArc. by rewrite H. Qed.

Lemma arc_next_lookup st b x :
  arc_nexts st !! b = Some x →
  ∃ A, GraphNode.arcs st !! b = Some A ∧ GraphArc.next A = x.
Proof.
  unfold arc_nexts. rewrite list_lookup_fmap. intros H.
  apply fmap_Some in H as (A & H & ->). eauto.
Qed.

Lemma node_next_lookup st a x :
  node_nexts st !! a = Some x →
  ∃ N, GraphNode.nodes st !! a = Some N ∧ GraphNode._next N = x.
Proof.
  unfold node_nexts. rewrite list_lookup_fmap. intros H.
  apply fmap_Some in H as (N & H & ->). eauto.
Qed.

Lemma chain_nil_null nexts r : chain nexts r [] → non_null r = false.
Proof. by inversion 1. Qed.

Lemma arcs_of_functional st a la lb :
  arcs_of st a la → arcs_of st a lb → la = lb.
Proof.
  intros (N & HN & Hc & _) (N' & HN' & Hc' & _).
  rewrite HN in HN'. injection HN' as <-. by eapply chain_functional.
Qed.

(** *** arcCount *)

Lemma arcCount_loop_chain st arc la :
  chain (arc_nexts st) arc la →
  ∀ (fuel : nat) count, (length la < fuel)%nat →
    GraphNode.arcCount_loop fuel count arc st = Ok (count + Z.of_nat (length la), st).
Proof.
  induction 1 as [r Hr|b x l Hx Hl IH]; intros [|fuel] count Hf; simpl in *; try lia.
  - rewrite Hr. unfold ret. do 2 f_equal. lia.
  - destruct (arc_next_lookup _ _ _ Hx) as (A & HA & <-).
    rewrite (bind_eq _ _ _ _ _ (sreadArc_eq _ _ _ HA)).
    rewrite IH by lia. do 2 f_equal. lia.
Qed.

(** [arcCount] is the length of the list of arcs of the node. *)
Theorem arcCount_is_length st a la (fuel : nat) :
  arcs_of st a la → (length la < fuel)%nat →
  GraphNode.arcCount fuel (obj a) st = Ok (Z.of_nat (length la), st).
Proof.
  intros (N & HN & Hc & _) Hf. unfold GraphNode.arcCount.
  rewrite (bind_eq _ _ _ _ _ (sreadNode_eq _ _ _ HN)).
  by rewrite (arcCount_loop_chain _ _ _ Hc).
Qed.

(** *** getArc, connected, mutuallyConnected *)

Lemma target_of_lookup st b A :
  GraphNode.arcs st !! b = Some A → target_of st b = GraphArc.node A.
Proof. intros H. unfold target_of. by rewrite H. Qed.

Lemma getArc_loop_chain st target arc la :
  chain (arc_nexts st) arc la →
  ∀ fuel : nat, (length la < fuel)%nat →
    GraphNode.getArc_loop fuel target arc st = Ok (first_arc_to st target la, st).
Proof.
  induction 1 as [r Hr|b x l Hx Hl IH]; intros [|fuel] Hf; simpl in *; try lia.
  - by rewrite Hr.
  - destruct (arc_next_lookup _ _ _ Hx) as (A & HA & <-).
    rewrite (bind_eq _ _ _ _ _ (sreadArc_eq _ _ _ HA)).
    rewrite (target_of_lookup _ _ _ HA).
    destruct (ref_loose_eq _ _); [done|]. apply IH. lia.
Qed.

Lemma getArc_chain st a la t (fuel : nat) :
  arcs_of st a la → (length la < fuel)%nat →
  GraphNode.getArc fuel (obj a) (obj t) st = Ok (first_arc_to st (obj t) la, st).
Proof.
  intros (N & HN & Hc & _) Hf. unfold GraphNode.getArc. simpl.
  rewrite (bind_eq _ _ _ _ _ (sreadNode_eq _ _ _ HN)).
  by apply getArc_loop_chain.
Qed.

(** [getArc] returns the first arc of the node to the target, null when
    the target is absent or the node has no arc to it. *)
Theorem getArc_is_first st a la target (fuel : nat) :
  arcs_of st a la → (length la < fuel)%nat →
  GraphNode.getArc fuel (obj a) target st
  = Ok (if non_null target then first_arc_to st target la else null, st).
Proof.
  intros (N & HN & Hc & _) Hf. unfold GraphNode.getArc.
  destruct target as [| |t]; simpl; [done..|].
  rewrite (bind_eq _ _ _ _ _ (sreadNode_eq _ _ _ HN)).
  by apply getArc_loop_chain.
Qed.

Lemma ref_loose_eq_obj r t : ref_loose_eq r (obj t) = true ↔ r = obj t.
Proof.
  destruct r as [| |a]; simpl; try (split; [discriminate|congruence]).
  rewrite Nat.eqb_eq. split; congruence.
Qed.

Lemma first_arc_to_obj st t la :
  non_null (first_arc_to st (obj t) la) = bool_decide (obj t ∈ targets_of st la).
Proof.
  induction la as [|b la IH].
  - reflexivity.
  - cbn [first_arc_to]. destruct (ref_loose_eq _ _) eqn:E.
    + apply ref_loose_eq_obj in E. simpl. symmetry. apply bool_decide_eq_true_2.
      unfold targets_of. simpl. rewrite E. by left.
    + rewrite IH. apply bool_decide_ext. unfold targets_of. simpl.
      rewrite elem_of_cons. split; [auto|]. intros [Heq|?]; [|done].
      symmetry in Heq. apply ref_loose_eq_obj in Heq. congruence.
Qed.

(** [connected] tells whether the target is among the targets of the arcs
    of the node; it is false for an absent target. *)
Theorem connected_iff_target st a la target (fuel : nat) :
  arcs_of st a la → (length la < fuel)%nat →
  GraphNode.connected fuel (obj a) target st
  = Ok (match target with
        | obj t => bool_decide (obj t ∈ targets_of st la)
        | _ => false
        end, st).
Proof.
  intros Ha Hf. unfold GraphNode.connected.
  destruct target as [| |t]; simpl; [done..|].
  rewrite (bind_eq _ _ _ _ _ (getArc_chain _ _ _ t _ Ha Hf)).
  unfold ret. by rewrite first_arc_to_obj.
Qed.

(** [mutuallyConnected] holds when each node is among the targets of the
    other. *)
Theorem mutuallyConnected_iff_both st a la t lt (fuel : nat) :
  arcs_of st a la → arcs_of st t lt →
  (length la < fuel)%nat → (length lt < fuel)%nat →
  GraphNode.mutuallyConnected fuel (obj a) (obj t) st
  = Ok (bool_decide (obj t ∈ targets_of st la) &&
        bool_decide (obj a ∈ targets_of st lt), st).
Proof.
  intros Ha Ht Hfa Hft. unfold GraphNode.mutuallyConnected. simpl.
  rewrite (bind_eq _ _ _ _ _ (getArc_chain _ _ _ t _ Ha Hfa)).
  rewrite <- first_arc_to_obj.
  destruct (non_null (first_arc_to st (obj t) la)); [|done].
  rewrite (bind_eq _ _ _ _ _ (getArc_chain _ _ _ a _ Ht Hft)).
  unfold ret. by rewrite first_arc_to_obj.
Qed.

End Reading.

(** ** Adding an arc *)

Section AddArc.
Context {V : Type}.
Implicit Types (st : GraphNode.Store V) (N : GraphNode.t V).

Lemma arc_nexts_app st A :
  arc_nexts (GraphNode.mkStore (GraphNode.nodes st) (GraphNode.arcs st ++ [A]))
  = arc_nexts st ++ [GraphArc.next A].
Proof. unfold arc_nexts. simpl. by rewrite fmap_app. Qed.

Lemma grown_chain st arcs' target tl r l N a :
  grown st arcs' target tl →
  (∀ t, tl = Some t → t ∉ l) →
  chain (arc_nexts st) r l → chain (arc_nexts (put st a N arcs')) r l.
Proof.
  intros (_ & Hold & _) Htl. induction 1 as [r Hr|b x l Hx Hl IH]; [by constructor|].
  destruct (arc_next_lookup _ _ _ Hx) as (A & HA & <-).
  destruct (Hold _ _ HA) as (A' & HA' & _ & Hnext).
  apply (chain_step _ b (GraphArc.next A)).
  - unfold arc_nexts, put. simpl. rewrite list_lookup_fmap, HA'. simpl. f_equal.
    apply Hnext. intros E. eapply Htl; [by symmetry|]. by left.
  - apply IH. intros t Ht Hin. eapply Htl; [done|]. by right.
Qed.

Lemma grown_targets st arcs' target tl l N a :
  grown st arcs' target tl →
  (∀ b, b ∈ l → (b < length (GraphNode.arcs st))%nat) →
  targets_of (put st a N arcs') l = targets_of st l.
Proof.
  intros (_ & Hold & _) Hl. unfold targets_of. apply list_fmap_ext.
  intros i b Hb. unfold target_of, put. simpl.
  assert (b ∈ l) as Hin by (by eapply list_elem_of_lookup_2).
  destruct (lookup_lt_is_Some_2 _ _ (Hl _ Hin)) as [A HA].
  destruct (Hold _ _ HA) as (A' & HA' & Hn & _). rewrite HA, HA'. exact Hn.
Qed.

Lemma arcs_of_lt st a la b :
  arcs_of st a la → b ∈ la → (b < length (GraphNode.arcs st))%nat.
Proof.
  intros (N & _ & Hc & _) Hb. pose proof (chain_lt _ _ _ _ Hc Hb) as H.
  unfold arc_nexts in H. by rewrite length_fmap in H.
Qed.

Lemma arcs_of_node st a la :
  arcs_of st a la → (a < length (GraphNode.nodes st))%nat.
Proof. intros (N & HN & _). by eapply lookup_lt_Some. Qed.

(** The general step: node [a] gets the arc list [la ++ [m]], [m] new. *)
Lemma grown_store_ok st a N N' la arcs' target tl :
  store_ok st →
  GraphNode.nodes st !! a = Some N → arcs_of st a la →
  grown st arcs' target tl →
  (∀ t, tl = Some t → t ∈ la) →
  chain (arc_nexts (put st a N' arcs')) (GraphNode._arcList N')
        (la ++ [length (GraphNode.arcs st)]) →
  GraphNode._curArc N' = obj (length (GraphNode.arcs st)) →
  let st' := put st a N' arcs' in
  store_ok st' ∧ arcs_of st' a (la ++ [length (GraphNode.arcs st)]) ∧
  targets_of st' (la ++ [length (GraphNode.arcs st)]) = targets_of st la ++ [target] ∧
  (∀ b lb, b ≠ a → arcs_of st b lb →
           arcs_of st' b lb ∧ targets_of st' lb = targets_of st lb).
Proof.
  intros [Hall Hsep] HN Ha Hg Htl Hc Hcur st'.
  assert (a < length (GraphNode.nodes st))%nat as Halt by (by eapply lookup_lt_Some).
  assert (arcs_of st' a (la ++ [length (GraphNode.arcs st)])) as Ha'.
  { exists N'. split; [|split].
    - subst st'. unfold put. simpl. by apply list_lookup_insert_eq.
    - done.
    - intros t. rewrite last_snoc. by intros [= <-]. }
  assert (∀ b lb, b ≠ a → arcs_of st b lb →
            arcs_of st' b lb ∧ targets_of st' lb = targets_of st lb) as Hother.
  { intros b lb Hne (M & HM & HcM & HcurM). split.
    - exists M. split; [|split; [|done]].
      + subst st'. unfold put. simpl. by rewrite list_lookup_insert_ne.
      + eapply grown_chain; [done| |done].
        intros t -> Hin. eapply (Hsep a b la lb); [done|done| |by apply Htl|done].
        by exists M.
    - eapply grown_targets; [done|]. intros c Hc'. eapply arcs_of_lt; [|done].
      by exists M. }
  split; [split|split; [done|split; [|done]]].
  - intros b Hb. subst st'. unfold put in Hb. simpl in Hb.
    rewrite length_insert in Hb.
    destruct (decide (b = a)) as [->|Hne]; [eauto|].
    destruct (Hall b Hb) as [lb Hlb]. exists lb. by apply Hother.
  - intros b c lb lc Hne Hb Hc'.
    assert (∀ d ld, d ≠ a → arcs_of st' d ld → arcs_of st d ld) as Hback.
    { intros d ld Hd Hld.
      pose proof (arcs_of_node _ _ _ Hld) as Hdlt.
      subst st'. unfold put in Hdlt. simpl in Hdlt. rewrite length_insert in Hdlt.
      destruct (Hall d Hdlt) as [ld0 Hld0].
      destruct (Hother d ld0 Hd Hld0) as [Hld0' _].
      by rewrite (arcs_of_functional _ _ _ _ Hld Hld0'). }
    assert (∀ d ld, d ≠ a → arcs_of st' d ld →
              (la ++ [length (GraphNode.arcs st)]) ## ld) as Hnew.
    { intros d ld Hd Hld x Hx Hx'. apply Hback in Hld; [|done].
      apply elem_of_app in Hx as [Hx|Hx].
      - by eapply (Hsep a d la ld).
      - apply list_elem_of_singleton in Hx as ->.
        pose proof (arcs_of_lt _ _ _ _ Hld Hx'). lia. }
    destruct (decide (b = a)) as [->|Hba]; [|destruct (decide (c = a)) as [->|Hca]].
    + rewrite (arcs_of_functional _ _ _ _ Hb Ha'). by apply (Hnew c).
    + rewrite (arcs_of_functional _ _ _ _ Hc' Ha'). intros x Hx1 Hx2. by eapply (Hnew b lb).
    + eapply (Hsep b c); [done|by apply (Hback b)|by apply (Hback c)].
  - pose proof Hg as (_ & _ & A' & HA' & Hnode & _).
    unfold targets_of. rewrite fmap_app. f_equal.
    + apply (grown_targets st arcs' target tl la N' a);
        [done|]. intros c Hc'. by eapply arcs_of_lt.
    + simpl. unfold target_of. subst st'. unfold put. simpl. rewrite HA'. simpl.
      by rewrite Hnode.
Qed.

Lemma chain_nonempty nexts r l : chain nexts r l → l ≠ [] → non_null r = true.
Proof. by inversion 1. Qed.

Lemma no_arcs_put st a N N' arcs' :
  GraphNode.nodes st !! a = Some N → no_arcs N' = no_arcs N →
  no_arcs <$> GraphNode.nodes (put st a N' arcs') = no_arcs <$> GraphNode.nodes st.
Proof.
  intros HN E. unfold put. simpl. rewrite list_fmap_insert, E.
  apply list_insert_id. by rewrite list_lookup_fmap, HN.
Qed.

Lemma addArc_grows st a la target cost :
  store_ok st → arcs_of st a la → non_null target = true →
  let m := length (GraphNode.arcs st) in
  ∃ st', GraphNode.addArc (obj a) target cost st = Ok (tt, st') ∧
         store_ok st' ∧ arcs_of st' a (la ++ [m]) ∧
         targets_of st' (la ++ [m]) = targets_of st la ++ [target] ∧
         (∀ b lb, b ≠ a → arcs_of st b lb →
                  arcs_of st' b lb ∧ targets_of st' lb = targets_of st lb) ∧
         no_arcs <$> GraphNode.nodes st' = no_arcs <$> GraphNode.nodes st ∧
         GraphArc.cost <$> GraphNode.arcs st' !! m = Some (Math_max num_zero cost) ∧
         length (GraphNode.arcs st') = S m ∧
         arc_prevs st' = arc_prevs st ++ [default null (obj <$> last la)].
Proof.
  intros Hok Ha Ht m. pose proof Ha as (N & HN & Hc & Hcur).
  destruct target as [| |t]; try discriminate.
  set (A0 := GraphArc.constructor (obj t) (Math_max num_zero cost)).
  set (st1 := GraphNode.mkStore (GraphNode.nodes st) (GraphNode.arcs st ++ [A0])).
  assert (GraphNode.arcs st1 !! m = Some A0) as Hm by (by apply list_lookup_middle).
  unfold GraphNode.addArc.
  change (GraphNode.accepted (obj t)) with true. cbv iota.
  rewrite (bind_eq _ _ st st1 (obj m)) by done.
  rewrite (bind_eq _ _ _ _ _ (sreadNode_eq st1 a N HN)).
  destruct la as [|tl l _] using rev_ind.
  - rewrite (chain_nil_null _ _ Hc). simpl.
    rewrite (bind_eq _ _ _ _ _ (supdNode_eq st1 a N _ HN)).
    erewrite supdNode_eq by (simpl; apply list_lookup_insert_eq; by eapply lookup_lt_Some).
    simpl. rewrite list_insert_insert_eq.
    set (N' := GraphNode.with_curArc (obj m) (GraphNode.with_arcList (obj m) N)).
    change (GraphNode.mkStore (<[a:=N']> (GraphNode.nodes st)) (GraphNode.arcs st ++ [A0]))
      with (put st a N' (GraphNode.arcs st ++ [A0])).
    eexists. split; [reflexivity|].
    destruct (grown_store_ok st a N N' [] (GraphNode.arcs st ++ [A0]) (obj t) None)
      as (H1 & H2 & H3 & H4); try done.
    + split; [|split].
      * rewrite length_app. simpl. lia.
      * intros b A HA. exists A. split; [by apply lookup_app_l_Some|done].
      * exists A0. done.
    + simpl. apply (chain_step _ m null); [|by constructor].
      unfold arc_nexts, put. simpl.
      rewrite list_lookup_fmap. simpl in Hm. by rewrite Hm.
    + split; [done|]. split; [done|]. split; [done|]. split; [done|].
      split; [|split; [|split]].
      * by apply (no_arcs_put _ _ N).
      * unfold put. simpl. simpl in Hm. by rewrite Hm.
      * unfold put. simpl. rewrite length_app. simpl. lia.
      * unfold arc_prevs, put. simpl. by rewrite fmap_app.
  - assert (GraphNode._curArc N = obj tl) as Hcur' by (apply Hcur; by rewrite last_snoc).
    assert (tl < m)%nat as Htl.
    { eapply arcs_of_lt; [exact Ha|]. apply elem_of_app. right. by left. }
    destruct (lookup_lt_is_Some_2 _ _ Htl) as [Atl HAtl].
    rewrite (chain_nonempty _ _ _ Hc) by (by destruct l). simpl.
    rewrite Hcur'.
    rewrite (bind_eq _ _ _ _ _ (supdArc_eq st1 m A0 _ Hm)).
    set (A0p := GraphArc.set_previous (obj tl) A0).
    erewrite (bind_eq _ _ _ _ tt); cycle 1.
    { apply (supdArc_eq _ tl Atl). simpl.
      rewrite list_lookup_insert_ne by lia. by apply lookup_app_l_Some. }
    set (N' := GraphNode.with_curArc (obj m) N).
    set (arcs' := <[tl:=GraphArc.set_next (obj m) Atl]>
                    (<[m:=A0p]> (GraphNode.arcs st ++ [A0]))).
    exists (put st a N' arcs').
    split; [unfold GraphNode.updNode; simpl; by rewrite HN|].
    destruct (grown_store_ok st a N N' (l ++ [tl]) arcs' (obj t) (Some tl))
      as (H1 & H2 & H3 & H4); try done.
    + split; [|split].
      * subst arcs'. rewrite !length_insert, length_app. simpl. lia.
      * intros b A HA. pose proof (lookup_lt_Some _ _ _ HA) as Hb.
        destruct (decide (b = tl)) as [->|Hne].
        -- exists (GraphArc.set_next (obj m) Atl). split; [|split; [|done]].
           ++ subst arcs'. apply list_lookup_insert_eq.
              rewrite length_insert, length_app. simpl. lia.
           ++ rewrite HAtl in HA. by injection HA as <-.
        -- exists A. split; [|done]. subst arcs'.
           rewrite list_lookup_insert_ne by done.
           rewrite list_lookup_insert_ne by (fold m; lia).
           by apply lookup_app_l_Some.
      * exists A0p. split; [|done]. subst arcs'.
        rewrite list_lookup_insert_ne by (fold m; lia).
        apply list_lookup_insert_eq. rewrite length_app. simpl. fold m. lia.
    + intros t' [= <-]. apply elem_of_app. right. by left.
    + assert (arc_nexts (put st a N' arcs') = <[tl := obj m]> (arc_nexts st ++ [null]))
        as ->.
      { unfold arc_nexts, put. simpl. subst arcs'.
        rewrite !list_fmap_insert, fmap_app. simpl. f_equal.
        apply list_insert_id. apply list_lookup_middle. by rewrite length_fmap. }
      rewrite <- app_assoc. simpl.
      apply (chain_extend _ _ _ _ _ null).
      * by apply chain_app.
      * intros Hin. pose proof (arcs_of_lt _ _ _ _ Ha Hin). fold m in H. lia.
      * apply list_lookup_middle. unfold arc_nexts. by rewrite length_fmap.
      * done.
    + split; [done|]. split; [done|]. split; [done|]. split; [done|].
      split; [|split; [|split]].
      * by apply (no_arcs_put _ _ N).
      * unfold put. simpl. subst arcs'.
        rewrite list_lookup_insert_ne by (fold m; lia).
        rewrite list_lookup_insert_eq by (rewrite length_app; simpl; fold m; lia).
        done.
      * unfold put. simpl. subst arcs'.
        rewrite !length_insert, length_app. simpl. lia.
      * unfold arc_prevs, put. simpl. subst arcs'.
        rewrite !list_fmap_insert, fmap_app, last_snoc. simpl.
        rewrite list_insert_id.
        -- rewrite insert_app_r_alt by (rewrite length_fmap; fold m; lia).
           rewrite length_fmap. fold m. by rewrite Nat.sub_diag.
        -- rewrite list_lookup_insert_ne by (fold m; lia).
           rewrite lookup_app_l by (rewrite length_fmap; fold m; lia).
           by rewrite list_lookup_fmap, HAtl.
Qed.

(** [addArc] with a present target adds one arc at the end of the arc list
    of the node: its target is the given one and its cost is the given
    cost clipped by [Math.max(0, cost)]; the arcs of the other nodes, and
    everything of the nodes but the arc list of this one, stay. *)
Theorem addArc_appends st a la target cost :
  store_ok st → arcs_of st a la → non_null target = true →
  let m := length (GraphNode.arcs st) in
  ∃ st', GraphNode.addArc (obj a) target cost st = Ok (tt, st') ∧
         store_ok st' ∧ arcs_of st' a (la ++ [m]) ∧
         targets_of st' (la ++ [m]) = targets_of st la ++ [target] ∧
         (∀ b lb, b ≠ a → arcs_of st b lb →
                  arcs_of st' b lb ∧ targets_of st' lb = targets_of st lb) ∧
         no_arcs <$> GraphNode.nodes st' = no_arcs <$> GraphNode.nodes st ∧
         GraphArc.cost <$> GraphNode.arcs st' !! m = Some (Math_max num_zero cost).
Proof.
  intros Hok Ha Ht m.
  destruct (addArc_grows st a la target cost Hok Ha Ht)
    as (st' & H1 & H2 & H3 & H4 & H5 & H6 & H7 & _).
  by exists st'.
Qed.

Lemma connected_chain st a la t (fuel : nat) :
  arcs_of st a la → (length la < fuel)%nat →
  GraphNode.connected fuel (obj a) (obj t) st
  = Ok (bool_decide (obj t ∈ targets_of st la), st).
Proof.
  intros Ha Hf. unfold GraphNode.connected. simpl.
  rewrite (bind_eq _ _ _ _ _ (getArc_chain _ _ _ t _ Ha Hf)).
  unfold ret. by rewrite first_arc_to_obj.
Qed.

(** After [addArc] with a node as target, the node counts one arc more
    and is connected to the target. *)
Theorem addArc_then_connected st a la t cost (fuel : nat) :
  store_ok st → arcs_of st a la → (length la + 1 < fuel)%nat →
  ∃ st',
    (GraphNode.addArc (obj a) (obj t) cost ;;; GraphNode.arcCount fuel (obj a)) st
    = Ok (Z.of_nat (length la) + 1, st') ∧
    (GraphNode.addArc (obj a) (obj t) cost ;;; GraphNode.connected fuel (obj a) (obj t)) st
    = Ok (true, st').
Proof.
  intros Hok Ha Hf.
  destruct (addArc_grows st a la (obj t) cost Hok Ha eq_refl)
    as (st' & Hadd & _ & Ha' & Ht & _).
  exists st'. rewrite !(bind_eq _ _ _ _ _ Hadd). split.
  - destruct Ha' as (N & HN & Hc & _). unfold GraphNode.arcCount.
    rewrite (bind_eq _ _ _ _ _ (sreadNode_eq _ _ _ HN)).
    rewrite (arcCount_loop_chain _ _ _ Hc) by (rewrite length_app; simpl; lia).
    rewrite length_app. simpl. do 2 f_equal. lia.
  - rewrite (connected_chain _ _ _ _ _ Ha') by (rewrite length_app; simpl; lia).
    rewrite Ht, bool_decide_eq_true_2; [done|].
    apply elem_of_app. right. by left.
Qed.

End AddArc.

(** ** The node list of a graph *)

Section NodeList.
Context {V : Type}.
Implicit Types (st : GraphNode.Store V) (s : Graph.State V).

Lemma fmap_lookup_eq {A B} (f : A → B) (l l' : list A) a x :
  f <$> l' = f <$> l → l !! a = Some x → ∃ x', l' !! a = Some x' ∧ f x' = f x.
Proof.
  intros E H. apply (f_equal (.!! a)) in E. rewrite !list_lookup_fmap, H in E.
  destruct (l' !! a) as [x'|]; [|done]. exists x'. split; [done|].
  by injection E.
Qed.

(** *** toArray, findNode, contains *)

Lemma toArray_loop_chain s node L :
  chain (node_nexts (Graph.store s)) node L →
  ∀ (fuel : nat) acc, (length L < fuel)%nat →
    Graph.toArray_loop fuel acc node s = Ok (acc ++ (obj <$> L), s).
Proof.
  induction 1 as [r Hr|a x l Hx Hl IH]; intros [|fuel] acc Hf; simpl in *; try lia.
  - rewrite Hr. unfold ret. by rewrite app_nil_r.
  - destruct (node_next_lookup _ _ _ Hx) as (N & HN & <-).
    rewrite (bind_eq _ _ _ _ _ (readNode_eq _ _ _ HN)).
    rewrite IH by lia. by rewrite <- app_assoc.
Qed.

Lemma findNode_loop_chain veq s value node L :
  chain (node_nexts (Graph.store s)) node L →
  ∀ fuel : nat, (length L < fuel)%nat →
    Graph.findNode_loop veq fuel value node s
    = Ok (first_node_with (Graph.val_loose_eq veq) (Graph.store s) value L, s).
Proof.
  induction 1 as [r Hr|a x l Hx Hl IH]; intros [|fuel] Hf; simpl in *; try lia.
  - by rewrite Hr.
  - destruct (node_next_lookup _ _ _ Hx) as (N & HN & <-).
    rewrite (bind_eq _ _ _ _ _ (readNode_eq _ _ _ HN)).
    unfold value_of_node. rewrite HN. simpl.
    destruct (Graph.val_loose_eq _ _ _); [done|]. apply IH. lia.
Qed.

Lemma contains_loop_chain vseq s x node L :
  chain (node_nexts (Graph.store s)) node L →
  ∀ fuel : nat, (length L < fuel)%nat →
    Graph.contains_loop vseq fuel x node s
    = Ok (existsb (λ a, Graph.val_strict_eq vseq (value_of_node (Graph.store s) a) x) L, s).
Proof.
  induction 1 as [r Hr|a y l Hy Hl IH]; intros [|fuel] Hf; simpl in *; try lia.
  - by rewrite Hr.
  - destruct (node_next_lookup _ _ _ Hy) as (N & HN & <-).
    rewrite (bind_eq _ _ _ _ _ (readNode_eq _ _ _ HN)).
    unfold value_of_node at 1. rewrite HN. simpl.
    destruct (Graph.val_strict_eq _ _ _); [done|]. apply IH. lia.
Qed.

(** [toArray] returns the nodes of the node list, in the order of the
    list, and changes nothing. *)
Theorem toArray_is_node_list s L (fuel : nat) :
  nodes_of s L → (length L < fuel)%nat →
  Graph.toArray fuel s = Ok (obj <$> L, s).
Proof.
  intros (Hc & _) Hf. unfold Graph.toArray.
  rewrite (bind_eq _ _ s s (Graph.this s)) by done.
  by rewrite (toArray_loop_chain _ _ _ Hc).
Qed.

(** [findNode] returns the first node of the list whose value is loosely
    equal to the one sought, and null when there is none. *)
Theorem findNode_is_first veq s L value (fuel : nat) :
  nodes_of s L → (length L < fuel)%nat →
  Graph.findNode veq fuel value s
  = Ok (first_node_with (Graph.val_loose_eq veq) (Graph.store s) value L, s).
Proof.
  intros (Hc & _) Hf. unfold Graph.findNode.
  rewrite (bind_eq _ _ s s (Graph.this s)) by done.
  by apply findNode_loop_chain.
Qed.

(** [contains] tells whether some node of the list has a value strictly
    equal to the one sought. *)
Theorem contains_iff_value vseq s L x (fuel : nat) :
  nodes_of s L → (length L < fuel)%nat →
  Graph.contains vseq fuel x s
  = Ok (existsb (λ a, Graph.val_strict_eq vseq (value_of_node (Graph.store s) a) x) L, s).
Proof.
  intros (Hc & _) Hf. unfold Graph.contains.
  rewrite (bind_eq _ _ s s (Graph.this s)) by done.
  by apply contains_loop_chain.
Qed.

(** *** Stores with the same arcs *)

Lemma arcs_of_same st st' a la :
  GraphNode.arcs st' = GraphNode.arcs st →
  no_links <$> GraphNode.nodes st' = no_links <$> GraphNode.nodes st →
  arcs_of st a la → arcs_of st' a la.
Proof.
  intros Ea En (N & HN & Hc & Hcur).
  destruct (fmap_lookup_eq _ _ _ _ _ En HN) as (N' & HN' & E).
  exists N'. split; [done|].
  assert (GraphNode._arcList N' = GraphNode._arcList N) as ->
    by apply (f_equal GraphNode._arcList E).
  assert (GraphNode._curArc N' = GraphNode._curArc N) as ->
    by apply (f_equal GraphNode._curArc E).
  unfold arc_nexts. by rewrite Ea.
Qed.

Lemma store_ok_same st st' :
  GraphNode.arcs st' = GraphNode.arcs st →
  no_links <$> GraphNode.nodes st' = no_links <$> GraphNode.nodes st →
  store_ok st → store_ok st'.
Proof.
  intros Ea En [H1 H2]. split.
  - intros a Ha. destruct (H1 a) as [la Hla].
    { apply (f_equal length) in En. rewrite !length_fmap in En. lia. }
    exists la. by apply (arcs_of_same st).
  - intros a b la lb Hab Hla Hlb.
    apply (H2 a b); [done|by apply (arcs_of_same st')..].
Qed.

(** *** addNode *)

Lemma addNode_grows s L n N :
  graph_ok s L →
  GraphNode.nodes (Graph.store s) !! n = Some N →
  non_null (GraphNode._next N) = false → n ∉ L →
  ∃ s', Graph.addNode (obj n) s = Ok (tt, s') ∧ graph_ok s' (L ++ [n]) ∧
        GraphNode.arcs (Graph.store s') = GraphNode.arcs (Graph.store s) ∧
        no_links <$> GraphNode.nodes (Graph.store s')
        = no_links <$> GraphNode.nodes (Graph.store s).
Proof.
  intros [Hok (Hc & Hcur & Hsize)] HN Hnext Hn.
  destruct s as [st g]. simpl in *.
  unfold Graph.addNode. simpl.
  unfold bind at 1. simpl. unfold bind at 1. simpl.
  destruct L as [|tl l _] using rev_ind.
  - rewrite (chain_nil_null _ _ Hc). simpl.
    eexists. split; [reflexivity|]. simpl.
    split; [|done]. split; [done|]. split; [|split].
    + simpl. apply (chain_step _ n (GraphNode._next N)); [|by constructor].
      unfold node_nexts. by rewrite list_lookup_fmap, HN.
    + simpl. by intros t [= <-].
    + simpl. rewrite Hsize. simpl. lia.
  - rewrite (chain_nonempty _ _ _ Hc) by (by destruct l). simpl.
    assert (Graph._curNode g = obj tl) as Hcur' by (apply Hcur; by rewrite last_snoc).
    rewrite Hcur'.
    assert (tl ≠ n) as Hne.
    { intros ->. apply Hn, elem_of_app. right. by left. }
    assert (tl < length (node_nexts st))%nat as Htl.
    { eapply chain_lt; [exact Hc|]. apply elem_of_app. right. by left. }
    unfold node_nexts in Htl. rewrite length_fmap in Htl.
    destruct (lookup_lt_is_Some_2 _ _ Htl) as [T HT].
    set (s0 := Graph.mkState st (Graph.with_size (Graph._size g + 1) g)).
    rewrite (bind_eq _ _ _ _ _ (updNode_eq n N _ s0 HN)).
    erewrite (bind_eq _ _ _ _ tt); cycle 1.
    { apply (updNode_eq tl T). simpl. by rewrite list_lookup_insert_ne. }
    eexists. split; [reflexivity|]. simpl.
    change (GraphNode.set_previous (obj tl) N) with (GraphNode.with_prev (obj tl) N).
    change (GraphNode.set_next (obj n) T) with (GraphNode.with_next (obj n) T).
    assert (no_links <$> <[tl:=GraphNode.with_next (obj n) T]>
                           (<[n:=GraphNode.with_prev (obj tl) N]> (GraphNode.nodes st))
            = no_links <$> GraphNode.nodes st) as Hnl.
    { rewrite !list_fmap_insert.
      rewrite (list_insert_id _ n) by (by rewrite list_lookup_fmap, HN).
      apply list_insert_id. by rewrite list_lookup_fmap, HT. }
    split; [split|done].
    + by apply (store_ok_same st).
    + split; [|split]; simpl.
      * assert (node_nexts
                  (GraphNode.mkStore
                     (<[tl:=GraphNode.with_next (obj n) T]>
                        (<[n:=GraphNode.with_prev (obj tl) N]> (GraphNode.nodes st)))
                     (GraphNode.arcs st))
                = <[tl := obj n]> (node_nexts st)) as ->.
        { unfold node_nexts. simpl. rewrite !list_fmap_insert. simpl. f_equal.
          apply list_insert_id. by rewrite list_lookup_fmap, HN. }
        rewrite <- app_assoc. simpl.
        apply (chain_extend _ _ _ _ _ (GraphNode._next N)); [done..| |done].
        unfold node_nexts. by rewrite list_lookup_fmap, HN.
      * rewrite last_snoc. by intros t [= <-].
      * rewrite Hsize, !length_app. simpl. lia.
Qed.

(** *** addEdge, addMutualEdge *)

Lemma Math_max_zero_idem c :
  Math_max num_zero (Math_max num_zero c) = Math_max num_zero c.
Proof.
  unfold Math_max at 2. simpl.
  destruct (isNaN c) eqn:En; [by destruct c|].
  destruct (SFltb num_zero c) eqn:E1.
  - unfold Math_max. simpl. by rewrite En, E1.
  - assert (Math_max num_zero c = num_zero) as ->.
    { unfold Math_max. simpl. rewrite En, E1. by destruct (SFltb c num_zero). }
    by destruct (SFltb c num_zero).
Qed.

Lemma elem_of_obj (a : nat) (L : list nat) : obj a ∈ obj <$> L ↔ a ∈ L.
Proof.
  rewrite list_elem_of_fmap. split; [|by eauto].
  by intros (b & [= ->] & Hb).
Qed.

Lemma addEdge_inner_chain s src target cost walk L :
  chain (node_nexts (Graph.store s)) walk L →
  ∀ fuel : nat, (length L < fuel)%nat →
    Graph.addEdge_inner fuel src target cost walk s
    = if bool_decide (target ∈ obj <$> L)
      then Graph.call (GraphNode.addArc src target cost) s else Ok (tt, s).
Proof.
  induction 1 as [r Hr|a x l Hx Hl IH]; intros [|fuel] Hf; simpl in *; try lia.
  - by rewrite Hr.
  - unfold ref_strict_eq. destruct (decide (obj a = target)) as [<-|Hne].
    + rewrite bool_decide_eq_true_2 by done.
      rewrite bool_decide_eq_true_2 by left. done.
    + rewrite (bool_decide_eq_false_2 (obj a = target)) by done.
      destruct (node_next_lookup _ _ _ Hx) as (N & HN & <-).
      rewrite (bind_eq _ _ _ _ _ (readNode_eq _ _ _ HN)).
      rewrite IH by lia. erewrite bool_decide_ext; [reflexivity|].
      rewrite elem_of_cons. split; [auto|]. by intros [->|?].
Qed.

Lemma addEdge_outer_chain s source target cost walk L L' :
  chain (node_nexts (Graph.store s)) (Graph._nodeList (Graph.this s)) L →
  chain (node_nexts (Graph.store s)) walk L' →
  ∀ fuel : nat, (length L' + length L < fuel)%nat →
    Graph.addEdge_outer fuel source target cost walk s
    = if bool_decide (source ∈ obj <$> L') && bool_decide (target ∈ obj <$> L)
      then Graph.call (GraphNode.addArc source target cost) s else Ok (tt, s).
Proof.
  intros HL.
  induction 1 as [r Hr|a x l Hx Hl IH]; intros [|fuel] Hf; simpl in *; try lia.
  - by rewrite Hr.
  - unfold ref_strict_eq. destruct (decide (obj a = source)) as [<-|Hne].
    + rewrite bool_decide_eq_true_2 by done.
      rewrite (bool_decide_eq_true_2 (obj a ∈ _)) by left. simpl.
      rewrite (bind_eq _ _ s s (Graph.this s)) by done.
      apply addEdge_inner_chain; [done|lia].
    + rewrite (bool_decide_eq_false_2 (obj a = source)) by done.
      destruct (node_next_lookup _ _ _ Hx) as (N & HN & <-).
      rewrite (bind_eq _ _ _ _ _ (readNode_eq _ _ _ HN)).
      rewrite IH by lia. erewrite bool_decide_ext; [reflexivity|].
      rewrite elem_of_cons. split; [auto|]. by intros [->|?].
Qed.

Lemma addEdge_eq s L source target cost (fuel : nat) :
  nodes_of s L → (2 * length L < fuel)%nat →
  Graph.addEdge fuel source target cost s
  = if bool_decide (source ∈ obj <$> L) && bool_decide (target ∈ obj <$> L)
    then Graph.call (GraphNode.addArc source target (Math_max num_zero cost)) s
    else Ok (tt, s).
Proof.
  intros (Hc & _) Hf. unfold Graph.addEdge.
  rewrite (bind_eq _ _ s s (Graph.this s)) by done.
  apply addEdge_outer_chain; [done..|lia].
Qed.

Lemma ref_loose_eq_obj_l a r : ref_loose_eq (obj a) r = bool_decide (r = obj a).
Proof.
  destruct r as [| |t]; simpl; try done.
  destruct (Nat.eqb_spec a t) as [->|Hne].
  - by rewrite bool_decide_eq_true_2.
  - rewrite bool_decide_eq_false_2; congruence.
Qed.

Lemma addMutualEdge_inner_chain s src target cost walk L :
  chain (node_nexts (Graph.store s)) walk L →
  ∀ fuel : nat, (length L < fuel)%nat →
    Graph.addMutualEdge_inner fuel src target cost walk s
    = if bool_decide (target ∈ obj <$> L)
      then (Graph.call (GraphNode.addArc src target cost) ;;;
            Graph.call (GraphNode.addArc target src cost)) s
      else Ok (tt, s).
Proof.
  induction 1 as [r Hr|a x l Hx Hl IH]; intros [|fuel] Hf;
    try (simpl in Hf; lia); cbn [Graph.addMutualEdge_inner].
  - by rewrite Hr.
  - cbn [non_null]. rewrite ref_loose_eq_obj_l.
    destruct (decide (target = obj a)) as [->|Hne].
    + rewrite bool_decide_eq_true_2 by done.
      rewrite bool_decide_eq_true_2 by left. done.
    + rewrite (bool_decide_eq_false_2 (target = obj a)) by done.
      destruct (node_next_lookup _ _ _ Hx) as (N & HN & <-).
      rewrite (bind_eq _ _ _ _ _ (readNode_eq _ _ _ HN)).
      rewrite IH by (simpl in Hf; lia). erewrite bool_decide_ext; [reflexivity|].
      rewrite fmap_cons, elem_of_cons. split; [auto|]. by intros [->|?].
Qed.

Lemma addMutualEdge_eq s L source target cost (fuel : nat) :
  nodes_of s L → (2 * length L < fuel)%nat →
  Graph.addMutualEdge fuel source target cost s
  = if bool_decide (source ∈ obj <$> L) && bool_decide (target ∈ obj <$> L)
    then (Graph.call (GraphNode.addArc source target cost) ;;;
          Graph.call (GraphNode.addArc target source cost)) s
    else Ok (tt, s).
Proof.
  intros (Hc & _) Hf. unfold Graph.addMutualEdge.
  rewrite (bind_eq _ _ s s (Graph.this s)) by done.
  assert (∀ walk L', chain (node_nexts (Graph.store s)) walk L' →
            ∀ fuel : nat, (length L' + length L < fuel)%nat →
              Graph.addMutualEdge_outer fuel source target cost walk s
              = if bool_decide (source ∈ obj <$> L') && bool_decide (target ∈ obj <$> L)
                then (Graph.call (GraphNode.addArc source target cost) ;;;
                      Graph.call (GraphNode.addArc target source cost)) s
                else Ok (tt, s)) as Houter.
  { clear fuel Hf.
    induction 1 as [r Hr|a x l Hx Hl IH]; intros [|fuel] Hf; simpl in *; try lia.
    - by rewrite Hr.
    - unfold ref_strict_eq. destruct (decide (obj a = source)) as [<-|Hne].
      + rewrite bool_decide_eq_true_2 by done.
        rewrite (bool_decide_eq_true_2 (obj a ∈ _)) by left. simpl.
        rewrite (bind_eq _ _ s s (Graph.this s)) by done.
        apply addMutualEdge_inner_chain; [done|lia].
      + rewrite (bool_decide_eq_false_2 (obj a = source)) by done.
        destruct (node_next_lookup _ _ _ Hx) as (N & HN & <-).
        rewrite (bind_eq _ _ _ _ _ (readNode_eq _ _ _ HN)).
        rewrite IH by lia. erewrite bool_decide_ext; [reflexivity|].
        rewrite elem_of_cons. split; [auto|]. by intros [->|?]. }
  apply Houter; [done|lia].
Qed.

Lemma fmap_through {A B C} (f : A → B) (g : B → C) (h : A → C) (l l' : list A) :
  (∀ x, g (f x) = h x) → f <$> l' = f <$> l → h <$> l' = h <$> l.
Proof.
  intros Hh E. apply list_eq. intros i. apply (f_equal (.!! i)) in E.
  rewrite !list_lookup_fmap in E. rewrite !list_lookup_fmap.
  destruct (l !! i), (l' !! i); simplify_eq/=; [|done]. by rewrite <- !Hh, E.
Qed.

Lemma nodes_of_same s s' L :
  Graph.this s' = Graph.this s →
  no_arcs <$> GraphNode.nodes (Graph.store s')
  = no_arcs <$> GraphNode.nodes (Graph.store s) →
  nodes_of s L → nodes_of s' L.
Proof.
  intros Et En. unfold nodes_of, node_nexts. rewrite Et.
  by rewrite (fmap_through no_arcs GraphNode._next GraphNode._next _ _ (λ _, eq_refl) En).
Qed.

(** An arc added by a method of the graph. *)
Lemma call_addArc_grows s L a la target cost :
  graph_ok s L → arcs_of (Graph.store s) a la → non_null target = true →
  let m := length (GraphNode.arcs (Graph.store s)) in
  ∃ s', Graph.call (GraphNode.addArc (obj a) target cost) s = Ok (tt, s') ∧
        graph_ok s' L ∧ Graph.this s' = Graph.this s ∧
        arcs_of (Graph.store s') a (la ++ [m]) ∧
        targets_of (Graph.store s') (la ++ [m])
        = targets_of (Graph.store s) la ++ [target] ∧
        (∀ b lb, b ≠ a → arcs_of (Graph.store s) b lb →
                 arcs_of (Graph.store s') b lb ∧
                 targets_of (Graph.store s') lb = targets_of (Graph.store s) lb) ∧
        no_arcs <$> GraphNode.nodes (Graph.store s')
        = no_arcs <$> GraphNode.nodes (Graph.store s) ∧
        GraphArc.cost <$> GraphNode.arcs (Graph.store s') !! m
        = Some (Math_max num_zero cost) ∧
        length (GraphNode.arcs (Graph.store s')) = S m.
Proof.
  intros [Hok HL] Ha Ht m.
  destruct (addArc_grows _ a la target cost Hok Ha Ht)
    as (st' & Hadd & Hok' & Ha' & Htg & Hothers & Hframe & Hcost & Hlen & _).
  exists (Graph.mkState st' (Graph.this s)). unfold Graph.call. rewrite Hadd.
  split; [done|]. simpl. split; [|done].
  split; [done|]. by apply (nodes_of_same s).
Qed.

(** [addEdge] does nothing when its source or its target is not a node
    of the node list of the graph. *)
Theorem addEdge_ignores_outsiders s L source target cost (fuel : nat) :
  nodes_of s L → (2 * length L < fuel)%nat →
  source ∉ obj <$> L ∨ target ∉ obj <$> L →
  Graph.addEdge fuel source target cost s = Ok (tt, s).
Proof.
  intros HL Hf Hout. rewrite (addEdge_eq _ L) by done.
  destruct Hout as [Hout|Hout]; rewrite (bool_decide_eq_false_2 _ Hout); [done|].
  by destruct (bool_decide _).
Qed.

Lemma addEdge_grows s L a t la cost (fuel : nat) :
  graph_ok s L → a ∈ L → t ∈ L → arcs_of (Graph.store s) a la →
  (2 * length L < fuel)%nat →
  let m := length (GraphNode.arcs (Graph.store s)) in
  ∃ s', Graph.addEdge fuel (obj a) (obj t) cost s = Ok (tt, s') ∧
        graph_ok s' L ∧ Graph.this s' = Graph.this s ∧
        arcs_of (Graph.store s') a (la ++ [m]) ∧
        targets_of (Graph.store s') (la ++ [m])
        = targets_of (Graph.store s) la ++ [obj t] ∧
        (∀ b lb, b ≠ a → arcs_of (Graph.store s) b lb →
                 arcs_of (Graph.store s') b lb ∧
                 targets_of (Graph.store s') lb = targets_of (Graph.store s) lb) ∧
        no_arcs <$> GraphNode.nodes (Graph.store s')
        = no_arcs <$> GraphNode.nodes (Graph.store s) ∧
        GraphArc.cost <$> GraphNode.arcs (Graph.store s') !! m
        = Some (Math_max num_zero cost) ∧
        length (GraphNode.arcs (Graph.store s')) = S m.
Proof.
  intros Hg Ha Ht Hla Hf m.
  rewrite (addEdge_eq _ L) by (done || apply Hg).
  rewrite !bool_decide_eq_true_2 by (by apply elem_of_obj). simpl.
  destruct (call_addArc_grows s L a la (obj t) (Math_max num_zero cost) Hg Hla eq_refl)
    as (s' & H1 & H2 & H3 & H4 & H5 & H6 & H7 & H8 & H9).
  rewrite Math_max_zero_idem in H8. by exists s'.
Qed.

(** [addEdge] between two nodes of the graph adds one arc at the end of
    the arc list of the source, with the target and the clipped cost; the
    node list, and the arcs of the other nodes, stay. *)
Theorem addEdge_appends s L a t la cost (fuel : nat) :
  graph_ok s L → a ∈ L → t ∈ L → arcs_of (Graph.store s) a la →
  (2 * length L < fuel)%nat →
  let m := length (GraphNode.arcs (Graph.store s)) in
  ∃ s', Graph.addEdge fuel (obj a) (obj t) cost s = Ok (tt, s') ∧
        graph_ok s' L ∧
        arcs_of (Graph.store s') a (la ++ [m]) ∧
        targets_of (Graph.store s') (la ++ [m])
        = targets_of (Graph.store s) la ++ [obj t] ∧
        (∀ b lb, b ≠ a → arcs_of (Graph.store s) b lb →
                 arcs_of (Graph.store s') b lb ∧
                 targets_of (Graph.store s') lb = targets_of (Graph.store s) lb) ∧
        GraphArc.cost <$> GraphNode.arcs (Graph.store s') !! m
        = Some (Math_max num_zero cost).
Proof.
  intros Hg Ha Ht Hla Hf m.
  destruct (addEdge_grows s L a t la cost fuel Hg Ha Ht Hla Hf)
    as (s' & H1 & H2 & _ & H3 & H4 & H5 & _ & H6 & _).
  by exists s'.
Qed.

Lemma call_connected s a la t (fuel : nat) :
  arcs_of (Graph.store s) a la → (length la < fuel)%nat →
  Graph.call (GraphNode.connected fuel (obj a) (obj t)) s
  = Ok (bool_decide (obj t ∈ targets_of (Graph.store s) la), s).
Proof.
  intros Ha Hf. unfold Graph.call. rewrite (connected_chain _ _ _ _ _ Ha Hf).
  by destruct s.
Qed.

(** After [addEdge] between two nodes of the graph, the source is
    connected to the target. *)
Theorem addEdge_then_connected s L a t la cost (fuel fuel' : nat) :
  graph_ok s L → a ∈ L → t ∈ L → arcs_of (Graph.store s) a la →
  (2 * length L < fuel)%nat → (length la + 1 < fuel')%nat →
  ∃ s', (Graph.addEdge fuel (obj a) (obj t) cost ;;;
         Graph.call (GraphNode.connected fuel' (obj a) (obj t))) s = Ok (true, s').
Proof.
  intros Hg Ha Ht Hla Hf Hf'.
  destruct (addEdge_grows s L a t la cost fuel Hg Ha Ht Hla Hf)
    as (s' & H1 & _ & _ & H3 & H4 & _).
  exists s'. rewrite (bind_eq _ _ _ _ _ H1).
  rewrite (call_connected _ _ _ _ _ H3) by (rewrite length_app; simpl; lia).
  rewrite H4, bool_decide_eq_true_2; [done|].
  apply elem_of_app. right. by left.
Qed.

Lemma addMutualEdge_grows s L a t la lt cost (fuel : nat) :
  graph_ok s L → a ∈ L → t ∈ L → a ≠ t →
  arcs_of (Graph.store s) a la → arcs_of (Graph.store s) t lt →
  (2 * length L < fuel)%nat →
  let m := length (GraphNode.arcs (Graph.store s)) in
  ∃ s', Graph.addMutualEdge fuel (obj a) (obj t) cost s = Ok (tt, s') ∧
        graph_ok s' L ∧
        arcs_of (Graph.store s') a (la ++ [m]) ∧
        arcs_of (Graph.store s') t (lt ++ [S m]) ∧
        targets_of (Graph.store s') (la ++ [m])
        = targets_of (Graph.store s) la ++ [obj t] ∧
        targets_of (Graph.store s') (lt ++ [S m])
        = targets_of (Graph.store s) lt ++ [obj a] ∧
        (∀ b lb, b ≠ a → b ≠ t → arcs_of (Graph.store s) b lb →
                 arcs_of (Graph.store s') b lb ∧
                 targets_of (Graph.store s') lb = targets_of (Graph.store s) lb).
Proof.
  intros Hg Ha Ht Hat Hla Hlt Hf m. subst m.
  rewrite (addMutualEdge_eq _ L) by (done || apply Hg).
  rewrite !bool_decide_eq_true_2 by (by apply elem_of_obj). simpl.
  destruct (call_addArc_grows s L a la (obj t) cost Hg Hla eq_refl)
    as (s1 & E1 & Hg1 & _ & Ha1 & Ht1 & Ho1 & _ & _ & Hlen1).
  rewrite (bind_eq _ _ _ _ _ E1).
  destruct (Ho1 t lt (not_eq_sym Hat) Hlt) as [Hlt1 Htt1].
  destruct (call_addArc_grows s1 L t lt (obj a) cost Hg1 Hlt1 eq_refl)
    as (s2 & E2 & Hg2 & _ & Ha2 & Ht2 & Ho2 & _).
  rewrite Hlen1 in Ha2, Ht2.
  exists s2. split; [done|]. split; [done|].
  destruct (Ho2 a _ Hat Ha1) as [Ha3 Ht3].
  split; [done|]. split; [done|]. split; [by rewrite Ht3|].
  split; [by rewrite Ht2, Htt1|].
  intros b lb Hba Hbt Hb. destruct (Ho1 b lb Hba Hb) as [Hb1 Hbt1].
  destruct (Ho2 b lb Hbt Hb1) as [Hb2 Hbt2]. split; [done|]. by rewrite Hbt2.
Qed.

(** [addMutualEdge] between two different nodes of the graph adds one arc
    at the end of the arc list of each, towards the other; the node list,
    and the arcs of the other nodes, stay. *)
Theorem addMutualEdge_appends s L a t la lt cost (fuel : nat) :
  graph_ok s L → a ∈ L → t ∈ L → a ≠ t →
  arcs_of (Graph.store s) a la → arcs_of (Graph.store s) t lt →
  (2 * length L < fuel)%nat →
  let m := length (GraphNode.arcs (Graph.store s)) in
  ∃ s', Graph.addMutualEdge fuel (obj a) (obj t) cost s = Ok (tt, s') ∧
        graph_ok s' L ∧
        arcs_of (Graph.store s') a (la ++ [m]) ∧
        arcs_of (Graph.store s') t (lt ++ [S m]) ∧
        targets_of (Graph.store s') (la ++ [m])
        = targets_of (Graph.store s) la ++ [obj t] ∧
        targets_of (Graph.store s') (lt ++ [S m])
        = targets_of (Graph.store s) lt ++ [obj a] ∧
        (∀ b lb, b ≠ a → b ≠ t → arcs_of (Graph.store s) b lb →
                 arcs_of (Graph.store s') b lb ∧
                 targets_of (Graph.store s') lb = targets_of (Graph.store s) lb).
Proof. apply addMutualEdge_grows. Qed.

(** After [addMutualEdge] between two different nodes of the graph, the
    two nodes are mutually connected. *)
Theorem addMutualEdge_then_mutuallyConnected s L a t la lt cost (fuel fuel' : nat) :
  graph_ok s L → a ∈ L → t ∈ L → a ≠ t →
  arcs_of (Graph.store s) a la → arcs_of (Graph.store s) t lt →
  (2 * length L < fuel)%nat →
  (length la + 1 < fuel')%nat → (length lt + 1 < fuel')%nat →
  ∃ s', (Graph.addMutualEdge fuel (obj a) (obj t) cost ;;;
         Graph.call (GraphNode.mutuallyConnected fuel' (obj a) (obj t))) s
        = Ok (true, s').
Proof.
  intros Hg Ha Ht Hat Hla Hlt Hf Hfa Hft.
  destruct (addMutualEdge_grows s L a t la lt cost fuel Hg Ha Ht Hat Hla Hlt Hf)
    as (s' & E & _ & Ha' & Ht' & Hta & Htt & _).
  exists s'. rewrite (bind_eq _ _ _ _ _ E).
  unfold Graph.call, GraphNode.mutuallyConnected. simpl.
  assert (length (la ++ [length (GraphNode.arcs (Graph.store s))]) < fuel')%nat
    as Hfa' by (rewrite length_app; simpl; lia).
  assert (length (lt ++ [S (length (GraphNode.arcs (Graph.store s)))]) < fuel')%nat
    as Hft' by (rewrite length_app; simpl; lia).
  rewrite (bind_eq _ _ _ _ _ (getArc_chain _ _ _ t _ Ha' Hfa')).
  assert (∀ x l, non_null (first_arc_to (Graph.store s') (obj x) l) = true
                 ↔ obj x ∈ targets_of (Graph.store s') l) as Hfirst.
  { intros x l. rewrite first_arc_to_obj. apply bool_decide_eq_true. }
  assert (non_null (first_arc_to (Graph.store s') (obj t) (la ++ [length (GraphNode.arcs (Graph.store s))])) = true) as ->.
  { apply Hfirst. rewrite Hta. apply elem_of_app. right. by left. }
  rewrite (bind_eq _ _ _ _ _ (getArc_chain _ _ _ a _ Ht' Hft')).
  unfold ret.
  assert (non_null (first_arc_to (Graph.store s') (obj a) (lt ++ [S (length (GraphNode.arcs (Graph.store s)))])) = true) as ->.
  { apply Hfirst. rewrite Htt. apply elem_of_app. right. by left. }
  by destruct s'.
Qed.

(** *** addNode observed, clearMarks, clearParent *)

(** [addNode] with a node of the store that is not on the node list, and
    has no next node, puts it at the end of the list and counts it; the
    arcs, and everything of the nodes but their links in the list, stay. *)
Theorem addNode_appends s L n N :
  graph_ok s L →
  GraphNode.nodes (Graph.store s) !! n = Some N →
  non_null (GraphNode._next N) = false → n ∉ L →
  ∃ s', Graph.addNode (obj n) s = Ok (tt, s') ∧ graph_ok s' (L ++ [n]) ∧
        GraphNode.arcs (Graph.store s') = GraphNode.arcs (Graph.store s) ∧
        no_links <$> GraphNode.nodes (Graph.store s')
        = no_links <$> GraphNode.nodes (Graph.store s).
Proof. apply addNode_grows. Qed.

(** After [addNode] with such a node, [toArray] returns the former nodes
    followed by the new one, and [size] is one more. *)
Theorem addNode_then_toArray s L n N (fuel : nat) :
  graph_ok s L →
  GraphNode.nodes (Graph.store s) !! n = Some N →
  non_null (GraphNode._next N) = false → n ∉ L →
  (length L + 1 < fuel)%nat →
  ∃ s', (Graph.addNode (obj n) ;;; Graph.toArray fuel) s
        = Ok ((obj <$> L) ++ [obj n], s') ∧
        (Graph.addNode (obj n) ;;; Graph.size) s
        = Ok (Z.of_nat (length L) + 1, s').
Proof.
  intros Hg HN Hnext Hn Hf.
  destruct (addNode_grows s L n N Hg HN Hnext Hn) as (s' & E & [_ HL'] & _).
  exists s'. rewrite !(bind_eq _ _ _ _ _ E). split.
  - pose proof HL' as (Hc & _). unfold Graph.toArray.
    rewrite (bind_eq _ _ s' s' (Graph.this s')) by done.
    rewrite (toArray_loop_chain _ _ _ Hc) by (rewrite length_app; simpl; lia).
    by rewrite fmap_app.
  - destruct HL' as (_ & _ & Hsize). unfold Graph.size.
    rewrite (bind_eq _ _ s' s' (Graph.this s')) by done.
    unfold ret. rewrite Hsize, length_app. simpl. do 2 f_equal. lia.
Qed.

Lemma node_nexts_put a N N' s :
  GraphNode.nodes (Graph.store s) !! a = Some N →
  GraphNode._next N' = GraphNode._next N →
  node_nexts (Graph.store (put_node a N' s)) = node_nexts (Graph.store s).
Proof.
  intros H E. unfold node_nexts, put_node. simpl.
  rewrite list_fmap_insert, E.
  apply list_insert_id. by rewrite list_lookup_fmap, H.
Qed.

Lemma unmark_loop_chain nexts node L :
  chain nexts node L →
  ∀ s (fuel : nat), node_nexts (Graph.store s) = nexts → (length L < fuel)%nat →
    ∃ s', Graph.unmark_loop fuel node s = Ok (tt, s') ∧
          Graph.this s' = Graph.this s ∧
          GraphNode.arcs (Graph.store s') = GraphNode.arcs (Graph.store s) ∧
          ∀ a N, GraphNode.nodes (Graph.store s) !! a = Some N →
                 GraphNode.nodes (Graph.store s') !! a
                 = Some (if bool_decide (a ∈ L)
                         then GraphNode.with_marked false N else N).
Proof.
  induction 1 as [r Hr|a x l Hx Hl IH]; intros s [|fuel] Hs Hf;
    try (simpl in Hf; lia); cbn [Graph.unmark_loop].
  - rewrite Hr. by exists s.
  - cbn [non_null]. subst nexts.
    destruct (node_next_lookup _ _ _ Hx) as (N & HN & <-).
    rewrite (bind_eq _ _ _ _ _ (updNode_eq a N _ s HN)).
    set (s1 := put_node a (GraphNode.set_marked false N) s).
    assert (GraphNode.nodes (Graph.store s1) !! a = Some (GraphNode.with_marked false N))
      as HN1.
    { simpl. apply list_lookup_insert_eq. by eapply lookup_lt_Some. }
    rewrite (bind_eq _ _ _ _ _ (readNode_eq a _ s1 HN1)). simpl GraphNode._next.
    destruct (IH s1 fuel) as (s' & E & Hthis & Harcs & Hnodes).
    { by apply (node_nexts_put a N). }
    { simpl in Hf. lia. }
    exists s'. split; [done|]. split; [done|]. split; [done|].
    intros b B HB. destruct (decide (b = a)) as [->|Hne].
    + rewrite HN in HB. injection HB as <-.
      rewrite (Hnodes _ _ HN1).
      rewrite (bool_decide_eq_true_2 (a ∈ a :: l)) by left.
      by destruct (bool_decide _).
    + rewrite (Hnodes b B) by (simpl; by rewrite list_lookup_insert_ne).
      erewrite bool_decide_ext; [reflexivity|].
      rewrite elem_of_cons. split; [auto|]. by intros [->|?].
Qed.

(** [clearMarks] takes the mark off every node of the node list, and
    changes nothing else. *)
Theorem clearMarks_unmarks s L (fuel : nat) :
  nodes_of s L → (length L < fuel)%nat →
  ∃ s', Graph.clearMarks fuel s = Ok (tt, s') ∧
        Graph.this s' = Graph.this s ∧
        GraphNode.arcs (Graph.store s') = GraphNode.arcs (Graph.store s) ∧
        ∀ a N, GraphNode.nodes (Graph.store s) !! a = Some N →
               GraphNode.nodes (Graph.store s') !! a
               = Some (if bool_decide (a ∈ L)
                       then GraphNode.with_marked false N else N).
Proof.
  intros (Hc & _) Hf. unfold Graph.clearMarks.
  rewrite (bind_eq _ _ s s (Graph.this s)) by done.
  by apply (unmark_loop_chain _ _ _ Hc).
Qed.

(** [clearParent] changes nothing: the accessor it assigns through keeps
    the parent when it is given null. *)
Theorem clearParent_changes_nothing s L (fuel : nat) :
  nodes_of s L → (length L < fuel)%nat →
  Graph.clearParent fuel s = Ok (tt, s).
Proof.
  intros (Hc & _) Hf. unfold Graph.clearParent.
  rewrite (bind_eq _ _ s s (Graph.this s)) by done.
  revert fuel Hf.
  induction Hc as [r Hr|a x l Hx Hl IH]; intros [|fuel] Hf;
    try (simpl in Hf; lia); cbn [Graph.clearParent_loop].
  - by rewrite Hr.
  - cbn [non_null]. destruct (node_next_lookup _ _ _ Hx) as (N & HN & <-).
    rewrite (bind_eq _ _ _ _ _ (updNode_eq a N _ s HN)).
    change (GraphNode.set_parent null N) with N. rewrite (put_node_same _ _ _ HN).
    rewrite (bind_eq _ _ _ _ _ (readNode_eq a N s HN)).
    apply IH. simpl in Hf. lia.
Qed.

(** *** clear *)

Lemma updArc_id b A f s :
  GraphNode.arcs (Graph.store s) !! b = Some A → f A = A →
  Graph.updArc (obj b) f s = Ok (tt, s).
Proof.
  intros H E. unfold Graph.updArc, Graph.call, GraphNode.updArc.
  rewrite H, E, list_insert_id by done. by destruct s as [[] ?].
Qed.

Lemma updNode_id a N f s :
  GraphNode.nodes (Graph.store s) !! a = Some N → f N = N →
  Graph.updNode (obj a) f s = Ok (tt, s).
Proof.
  intros H E. rewrite (updNode_eq _ _ _ _ H), E. by rewrite put_node_same.
Qed.

Lemma chain_length_le nexts r l : chain nexts r l → (length l ≤ length nexts)%nat.
Proof.
  intros Hc. rewrite <- (length_seq (length nexts) 0) at 1.
  apply submseteq_length, NoDup_submseteq; [by eapply chain_NoDup|].
  intros x Hx. apply elem_of_seq. pose proof (chain_lt _ _ _ _ Hc Hx). lia.
Qed.

Lemma clear_arcs_chain s arc la :
  chain (arc_nexts (Graph.store s)) arc la →
  ∀ fuel : nat, (length la < fuel)%nat → Graph.clear_arcs fuel arc s = Ok (tt, s).
Proof.
  induction 1 as [r Hr|b x l Hx Hl IH]; intros [|fuel] Hf;
    try (simpl in Hf; lia); cbn [Graph.clear_arcs].
  - by rewrite Hr.
  - cbn [non_null]. destruct (arc_next_lookup _ _ _ Hx) as (A & HA & <-).
    rewrite (bind_eq _ _ _ _ _ (readArc_eq b A s HA)).
    assert (GraphArc.set_previous null A = A) as E1 by (by destruct A).
    assert (GraphArc.set_next null A = A) as E2 by (by destruct A).
    assert (GraphArc.set_node null A = A) as E3 by (by destruct A).
    rewrite (bind_eq _ _ _ _ _ (updArc_id b A _ s HA E1)).
    rewrite (bind_eq _ _ _ _ _ (updArc_id b A _ s HA E2)).
    rewrite (bind_eq _ _ _ _ _ (updArc_id b A _ s HA E3)).
    apply IH. simpl in Hf. lia.
Qed.

Lemma clear_nodes_chain s node L :
  chain (node_nexts (Graph.store s)) node L →
  (∀ a, a ∈ L → ∃ la, arcs_of (Graph.store s) a la) →
  ∀ fuel : nat, (length L + length (GraphNode.arcs (Graph.store s)) < fuel)%nat →
    Graph.clear_nodes fuel node s = Ok (tt, s).
Proof.
  induction 1 as [r Hr|a x l Hx Hl IH]; intros Harcs [|fuel] Hf;
    try (simpl in Hf; lia); cbn [Graph.clear_nodes].
  - by rewrite Hr.
  - cbn [non_null]. destruct (node_next_lookup _ _ _ Hx) as (N & HN & <-).
    rewrite (bind_eq _ _ _ _ _ (readNode_eq a N s HN)).
    destruct (Harcs a) as (la & N' & HN' & Hc & _); [by left|].
    rewrite HN in HN'. injection HN' as <-.
    pose proof (chain_length_le _ _ _ Hc) as Hle.
    unfold arc_nexts in Hle. rewrite length_fmap in Hle.
    assert (length la < fuel)%nat as Hfa by (simpl in Hf; lia).
    rewrite (bind_eq _ _ _ _ _ (clear_arcs_chain s _ la Hc fuel Hfa)).
    rewrite (bind_eq _ _ _ _ _ (updNode_id a N (GraphNode.set_value None) s HN eq_refl)).
    rewrite (bind_eq _ _ _ _ _ (updNode_id a N (GraphNode.set_previous null) s HN eq_refl)).
    rewrite (bind_eq _ _ _ _ _ (updNode_id a N (GraphNode.set_next null) s HN eq_refl)).
    rewrite (bind_eq _ _ _ _ _ (updNode_id a N (GraphNode.set_arcList null) s HN eq_refl)).
    apply IH; [|simpl in Hf; lia].
    intros c Hc'. apply Harcs. by right.
Qed.

(** [clear] resets the fields of the graph and changes no node and no arc
    of the store: every accessor it assigns null through keeps what it
    had. *)
Theorem clear_resets_graph_only s L (fuel : nat) :
  graph_ok s L →
  (length L + length (GraphNode.arcs (Graph.store s)) < fuel)%nat →
  Graph.clear fuel s = Ok (tt, Graph.mkState (Graph.store s) Graph.constructor).
Proof.
  intros [[Hok _] (Hc & _)] Hf. unfold Graph.clear.
  unfold bind at 1. cbn [Graph.modG]. unfold bind at 1. cbn [Graph.modG].
  unfold bind at 1. cbn [Graph.getG Graph.this].
  assert (∀ a, a ∈ L → ∃ la, arcs_of (Graph.store s) a la) as Harcs.
  { intros a Ha. apply Hok. pose proof (chain_lt _ _ _ _ Hc Ha) as Hlt.
    unfold node_nexts in Hlt. by rewrite length_fmap in Hlt. }
  set (s0 := Graph.mkState (Graph.store s)
               (Graph.with_traversal [] (Graph.with_struct [] (Graph.this s)))).
  rewrite (bind_eq _ _ _ _ _ (clear_nodes_chain s0 _ L Hc Harcs fuel Hf)).
  reflexivity.
Qed.

(** *** remove *)

Lemma remove_loop_chain veq st x node L :
  chain (node_nexts st) node L →
  (∀ a N, a ∈ L → GraphNode.nodes st !! a = Some N →
          Graph.val_loose_eq veq (GraphNode._val N) x = true →
          non_null (GraphNode._arcList N) = false) →
  ∀ (fuel : nat) g found, (length L < fuel)%nat →
    Graph.remove_loop veq fuel x found node (Graph.mkState st g)
    = Ok (found || existsb (λ a, Graph.val_loose_eq veq (value_of_node st a) x) L,
          Graph.mkState st
            (Graph.with_size
               (Graph._size g
                - Z.of_nat (length (nodes_with (Graph.val_loose_eq veq) st x L))) g)).
Proof.
  induction 1 as [r Hr|a y l Hy Hl IH]; intros Hno [|fuel] g found Hf;
    try (simpl in Hf; lia); cbn [Graph.remove_loop].
  - rewrite Hr. simpl. rewrite orb_false_r, Z.sub_0_r. by destruct g.
  - cbn [non_null]. destruct (node_next_lookup _ _ _ Hy) as (N & HN & <-).
    set (s := Graph.mkState st g).
    assert (GraphNode.nodes (Graph.store s) !! a = Some N) as HNs by done.
    rewrite (bind_eq _ _ _ _ _ (readNode_eq a N s HNs)).
    assert (∀ b N', b ∈ l → GraphNode.nodes st !! b = Some N' →
              Graph.val_loose_eq veq (GraphNode._val N') x = true →
              non_null (GraphNode._arcList N') = false) as Hno'.
    { intros b N' Hb. apply Hno. by right. }
    cbn [existsb nodes_with List.filter]. fold (nodes_with (Graph.val_loose_eq veq) st x l).
    unfold value_of_node at 1 3. rewrite HN. cbn [mbind option_bind].
    destruct (Graph.val_loose_eq veq (GraphNode._val N) x) eqn:E.
    + destruct fuel as [|fuel]; [simpl in Hf; lia|].
      assert (non_null (GraphNode._arcList N) = false) as Ha.
      { apply (Hno a N); [by left|done..]. }
      rewrite (bind_eq _ _ _ _ _ (unlink_without_arcs fuel a N s HNs Ha)).
      rewrite (bind_eq _ _ _ _ _ (updNode_id a N _ s HNs eq_refl)).
      rewrite (bind_eq _ _ _ _ _ (updNode_id a N _ s HNs eq_refl)).
      rewrite (bind_eq _ _ _ _ _ (updNode_id a N _ s HNs eq_refl)).
      assert (GraphNode.set_arcList null N = N) as Hs by done.
      rewrite (bind_eq _ _ _ _ _ (updNode_id a N _ s HNs Hs)).
      unfold bind at 1. cbn [Graph.modG]. unfold s. cbn [Graph.this Graph.store].
      rewrite (IH Hno' (S fuel) _ true) by (simpl in Hf; lia).
      rewrite orb_true_r. cbn [orb length]. do 3 f_equal.
      destruct g. unfold Graph.with_size. simpl. f_equal. lia.
    + rewrite orb_false_l. apply IH; [done|]. simpl in Hf. lia.
Qed.

(** [remove] takes no node off the node list.  When the nodes
    whose value is loosely equal to [x] have no arcs, it changes no node
    and no arc: the four assignments to the node are of null, which the
    accessors ignore.  It tells whether there is such a node, and takes
    their number off [size]. *)
Theorem remove_only_counts veq s L x (fuel : nat) :
  nodes_of s L →
  (∀ a N, a ∈ L → GraphNode.nodes (Graph.store s) !! a = Some N →
          Graph.val_loose_eq veq (GraphNode._val N) x = true →
          non_null (GraphNode._arcList N) = false) →
  (length L < fuel)%nat →
  Graph.remove veq fuel x s
  = Ok (existsb (λ a, Graph.val_loose_eq veq (value_of_node (Graph.store s) a) x) L,
        Graph.mkState (Graph.store s)
          (Graph.with_size
             (Z.of_nat (length L)
              - Z.of_nat (length (nodes_with (Graph.val_loose_eq veq)
                                    (Graph.store s) x L)))
             (Graph.this s))).
Proof.
  intros (Hc & _ & Hsz) Hno Hf. unfold Graph.remove.
  rewrite (bind_eq _ _ s s (Graph.this s)) by done.
  destruct s as [st g]. cbn [Graph.this Graph.store] in *.
  rewrite (remove_loop_chain veq st x _ L Hc Hno fuel g false Hf).
  by rewrite Hsz.
Qed.

End NodeList.

(** ** Taking an arc off a list *)

Section RemoveArc.
Context {V : Type}.
Implicit Types (st : GraphNode.Store V).

Lemma chain_skip nexts r l1 q b l2 n :
  chain nexts r (l1 ++ q :: b :: l2) → nexts !! b = Some n →
  chain (<[q := n]> nexts) r (l1 ++ q :: l2).
Proof.
  intros Hc Hn. pose proof (chain_NoDup _ _ _ Hc) as Hnd.
  revert r Hc Hnd. induction l1 as [|a l1 IH]; intros r Hc Hnd; simpl in *.
  - inversion Hc as [|a' x l' Hx Hl']; subst.
    inversion Hl' as [|a'' y l'' Hy Hl'']; subst.
    rewrite Hn in Hy. injection Hy as <-.
    apply NoDup_cons in Hnd as [Hq _].
    apply (chain_step _ q n).
    + apply list_lookup_insert_eq. by eapply lookup_lt_Some.
    + apply chain_insert; [|done]. intros Hin. apply Hq. by right.
  - inversion Hc as [|a' x l' Hx Hl']; subst.
    apply NoDup_cons in Hnd as [Ha Hnd].
    apply (chain_step _ a x).
    + rewrite list_lookup_insert_ne; [done|]. intros ->. apply Ha.
      apply elem_of_app. right. by left.
    + by apply IH.
Qed.

Lemma chain_suffix nexts r l1 l2 :
  chain nexts r (l1 ++ l2) →
  ∃ x, chain nexts x l2 ∧ (l1 = [] → x = r) ∧
       (∀ q, last l1 = Some q → nexts !! q = Some x).
Proof.
  revert r. induction l1 as [|a l1 IH]; intros r Hc; simpl in *.
  - exists r. done.
  - inversion Hc as [|a' x l' Hx Hl']; subst.
    destruct (IH _ Hl') as (y & Hy & Hnil & Hlast). exists y.
    split; [done|]. split; [done|]. intros q Hq.
    destruct l1 as [|a1 l1]; [|by apply Hlast].
    injection Hq as <-. by rewrite (Hnil eq_refl).
Qed.

Lemma backs_insert prevs y x p l :
  y ∉ l → backs prevs p l → backs (<[y := x]> prevs) p l.
Proof.
  revert p. induction l as [|z l IH]; intros p Hy Hb; [done|].
  apply not_elem_of_cons in Hy as [Hne Hy]. destruct Hb as [Hz Hb].
  split; [by rewrite list_lookup_insert_ne|by apply IH].
Qed.

Lemma backs_app prevs p l1 l2 :
  backs prevs p (l1 ++ l2) ↔ backs prevs p l1 ∧ backs prevs (default p (last l1)) l2.
Proof.
  revert p. induction l1 as [|a l1 IH]; intros p; simpl.
  - tauto.
  - rewrite IH. destruct l1 as [|a1 l1]; [simpl; tauto|].
    rewrite last_cons_cons.
    destruct (proj2 (last_is_Some (a1 :: l1)) ltac:(done)) as [z ->]. simpl. tauto.
Qed.

Lemma split_first_None st target la :
  split_first st target la = None →
  first_arc_to st target la = null ∧ ∀ b, b ∈ la → ref_loose_eq (target_of st b) target = false.
Proof.
  induction la as [|b l IH]; simpl.
  - intros _. split; [done|]. intros b Hb. by apply not_elem_of_nil in Hb.
  - destruct (ref_loose_eq _ _) eqn:E; [done|].
    destruct (split_first st target l) as [[[l1 x] l2]|]; [done|].
    intros _. destruct (IH eq_refl) as [H1 H2]. split; [done|].
    intros c Hc. apply elem_of_cons in Hc as [->|Hc]; [done|by apply H2].
Qed.

Lemma split_first_Some st target la l1 b l2 :
  split_first st target la = Some (l1, b, l2) →
  first_arc_to st target la = obj b ∧ la = l1 ++ b :: l2 ∧
  ref_loose_eq (target_of st b) target = true.
Proof.
  revert l1. induction la as [|c l IH]; intros l1; simpl; [done|].
  destruct (ref_loose_eq (target_of st c) target) eqn:E.
  - intros H. by simplify_eq.
  - destruct (split_first st target l) as [[[l1' x] l2']|]; [|done].
    intros H. simplify_eq. destruct (IH l1' eq_refl) as (H1 & H2 & H3).
    split; [done|]. split; [by rewrite H2|done].
Qed.

Lemma chain_agree nexts nexts' r l :
  (∀ i, i ∈ l → nexts' !! i = nexts !! i) → chain nexts r l → chain nexts' r l.
Proof.
  intros H Hc. induction Hc as [r Hr|a x l Hx Hl IH]; [by constructor|].
  econstructor.
  - rewrite H; [done|by left].
  - apply IH. intros i Hi. apply H. by right.
Qed.

Lemma backs_agree prevs prevs' p l :
  (∀ i, i ∈ l → prevs' !! i = prevs !! i) → backs prevs p l → backs prevs' p l.
Proof.
  revert p. induction l as [|y l IH]; intros p H Hb; [done|].
  destruct Hb as [Hy Hb]. split.
  - rewrite H; [done|by left].
  - apply IH; [|done]. intros i Hi. apply H. by right.
Qed.

(** A store [st'] that differs from [st] in links of arcs of the list
    [la] of node [a], or of arcs off all lists, and in which [a] has the
    list [la'] taken from [la]: it is well formed as [st] is. *)
Lemma wf_after st st' a N N' la la' :
  store_wf st → GraphNode.nodes st !! a = Some N → arcs_of st a la →
  GraphNode.nodes st' = <[a := N']> (GraphNode.nodes st) →
  length (GraphNode.arcs st') = length (GraphNode.arcs st) →
  (∀ i, arc_nexts st' !! i = arc_nexts st !! i ∨ i ∈ la ∨ off_lists st i) →
  (∀ i, arc_prevs st' !! i = arc_prevs st !! i ∨ i ∈ la ∨ off_lists st i) →
  arcs_of st' a la' → la' ⊆ la →
  match la' with
  | [] => True
  | h :: l =>
      (∃ x, arc_prevs st' !! h = Some x ∧
            match x with
            | obj g => off_lists st g ∨ (g ∈ la ∧ g ∉ la')
            | _ => True
            end) ∧
      backs (arc_prevs st') h l
  end →
  store_wf st' ∧ (∀ x lx, x ≠ a → arcs_of st x lx → arcs_of st' x lx).
Proof.
  intros [[Hok1 Hok2] Hwf] HN Ha Hnodes Hlen Hn Hp Ha' Hsubset Hback.
  assert (∀ x lx, x ≠ a → arcs_of st x lx → arcs_of st' x lx) as Hothers.
  { intros x lx Hx Hlx. pose proof Hlx as (Nx & HNx & Hcx & Hcurx).
    exists Nx. split; [by rewrite Hnodes, list_lookup_insert_ne|].
    split; [|done]. apply (chain_agree (arc_nexts st)); [|done].
    intros i Hi. destruct (Hn i) as [|[Hin|[_ Hoff]]]; [done| |].
    - exfalso. by apply (Hok2 x a lx la Hx Hlx Ha i).
    - exfalso. by apply (Hoff x lx). }
  assert (∀ x lx', arcs_of st' x lx' → ∃ lx, arcs_of st x lx ∧ lx' ⊆ lx) as Hsub.
  { intros x lx' Hx'. pose proof (arcs_of_node _ _ _ Hx') as Hlt.
    rewrite Hnodes, length_insert in Hlt. destruct (Hok1 x Hlt) as [lx Hlx].
    exists lx. split; [done|]. destruct (decide (x = a)) as [->|Hne].
    - rewrite (arcs_of_functional _ _ _ _ Hx' Ha').
      by rewrite (arcs_of_functional _ _ _ _ Hlx Ha).
    - by rewrite (arcs_of_functional _ _ _ _ Hx' (Hothers x lx Hne Hlx)). }
  assert (∀ g, off_lists st g ∨ (g ∈ la ∧ g ∉ la') → off_lists st' g) as Hoff'.
  { intros g Hg. split.
    - rewrite Hlen. destruct Hg as [[Hb _]|[Hin _]]; [done|by eapply arcs_of_lt].
    - intros y ly' Hy' Hgy. destruct (Hsub y ly' Hy') as (ly & Hly & Hs).
      destruct Hg as [[_ Hoff]|[Hin Hnin]].
      + apply (Hoff y ly Hly). by apply Hs.
      + destruct (decide (y = a)) as [->|Hne].
        * apply Hnin. by rewrite <- (arcs_of_functional _ _ _ _ Hy' Ha').
        * apply (Hok2 y a ly la Hne Hly Ha g); [by apply Hs|done]. }
  split; [|done]. split; [split|].
  - intros x Hx. rewrite Hnodes, length_insert in Hx.
    destruct (decide (x = a)) as [->|Hne]; [by exists la'|].
    destruct (Hok1 x Hx) as [lx Hlx]. exists lx. by apply Hothers.
  - intros x y lx' ly' Hxy Hx' Hy' i Hi Hi'.
    destruct (Hsub x lx' Hx') as (lx & Hlx & Hsx).
    destruct (Hsub y ly' Hy') as (ly & Hly & Hsy).
    apply (Hok2 x y lx ly Hxy Hlx Hly i); [by apply Hsx|by apply Hsy].
  - intros x lx' Hx'. destruct (decide (x = a)) as [->|Hne].
    + rewrite (arcs_of_functional _ _ _ _ Hx' Ha').
      destruct la' as [|h l]; [done|].
      destruct Hback as [(x0 & Hx0 & Hhb) Hbacks]. split; [|done].
      exists x0. split; [done|]. destruct x0 as [| |g]; try done.
      by apply Hoff'.
    + pose proof (arcs_of_node _ _ _ Hx') as Hlt.
      rewrite Hnodes, length_insert in Hlt. destruct (Hok1 x Hlt) as [lx Hlx].
      rewrite (arcs_of_functional _ _ _ _ Hx' (Hothers x lx Hne Hlx)).
      pose proof (Hwf x lx Hlx) as Hbl. destruct lx as [|h l]; [done|].
      destruct Hbl as [(x0 & Hx0 & Hhb) Hbacks].
      assert (∀ i, i ∈ h :: l → arc_prevs st' !! i = arc_prevs st !! i) as Hsame.
      { intros i Hi. destruct (Hp i) as [|[Hin|[_ Hoff]]]; [done| |].
        - exfalso. by apply (Hok2 x a (h :: l) la Hne Hlx Ha i).
        - exfalso. by apply (Hoff x (h :: l)). }
      split.
      * exists x0. split; [rewrite Hsame; [done|by left]|].
        destruct x0 as [| |g]; try done. apply Hoff'. by left.
      * apply (backs_agree (arc_prevs st)); [|done].
        intros i Hi. apply Hsame. by right.
Qed.

Lemma supdArc_alter st q f :
  (q < length (GraphNode.arcs st))%nat →
  GraphNode.updArc (obj q) f st
  = Ok (tt, GraphNode.mkStore (GraphNode.nodes st) (alter f q (GraphNode.arcs st))).
Proof.
  intros Hq. destruct (lookup_lt_is_Some_2 _ _ Hq) as [Q HQ].
  rewrite (supdArc_eq _ _ _ _ HQ). do 3 f_equal.
  apply list_eq. intros i. destruct (decide (i = q)) as [->|Hne].
  - rewrite list_lookup_insert_eq by done. by rewrite list_lookup_alter_eq, HQ.
  - rewrite list_lookup_insert_ne by done. by rewrite list_lookup_alter_ne.
Qed.

Lemma fmap_alter_same {A B} (g : A → B) (f : A → A) i (l : list A) :
  (∀ x, g (f x) = g x) → g <$> alter f i l = g <$> l.
Proof.
  intros H. rewrite (list_fmap_alter g f id) by (apply Forall_forall; intros; apply H).
  by apply list_alter_id.
Qed.

Lemma fmap_alter_const {A B} (g : A → B) (f : A → A) i (l : list A) y :
  (∀ x, g (f x) = y) → g <$> alter f i l = <[i := y]> (g <$> l).
Proof.
  intros H. rewrite list_insert_alter.
  apply (list_fmap_alter g f (λ _, y)). apply Forall_forall. intros; apply H.
Qed.

Lemma unlinked_nexts st a N A head :
  arc_nexts (unlinked st a N A head)
  = match GraphArc.previous A, GraphArc.next A with
    | obj q, obj c => <[q := obj c]> (arc_nexts st)
    | _, _ => arc_nexts st
    end.
Proof.
  unfold arc_nexts, unlinked. cbn [GraphNode.arcs].
  destruct (GraphArc.next A) as [| |c] eqn:En;
    destruct (GraphArc.previous A) as [| |q] eqn:Ep;
    rewrite ?(fmap_alter_same GraphArc.next (GraphArc.set_previous _)) by done;
    try done.
  - by apply fmap_alter_same.
  - by apply fmap_alter_same.
  - by apply fmap_alter_const.
Qed.

Lemma unlinked_prevs st a N A head :
  arc_prevs (unlinked st a N A head)
  = match GraphArc.next A, GraphArc.previous A with
    | obj c, obj q => <[c := obj q]> (arc_prevs st)
    | _, _ => arc_prevs st
    end.
Proof.
  unfold arc_prevs, unlinked. cbn [GraphNode.arcs].
  destruct (GraphArc.next A) as [| |c] eqn:En;
    destruct (GraphArc.previous A) as [| |q] eqn:Ep;
    rewrite ?(fmap_alter_same GraphArc.previous (GraphArc.set_next _)) by done;
    try done.
  - by apply fmap_alter_same.
  - by apply fmap_alter_same.
  - rewrite (fmap_alter_const GraphArc.previous _ _ _ (obj q)) by done.
    by rewrite (fmap_alter_same GraphArc.previous (GraphArc.set_next _)).
Qed.

Lemma unlinked_targets st a N A head :
  GraphArc.node <$> GraphNode.arcs (unlinked st a N A head)
  = GraphArc.node <$> GraphNode.arcs st.
Proof.
  unfold unlinked. cbn [GraphNode.arcs].
  destruct (GraphArc.next A), (GraphArc.previous A);
    by rewrite ?(fmap_alter_same GraphArc.node) by done.
Qed.

Lemma unlinked_length st a N A head :
  length (GraphNode.arcs (unlinked st a N A head)) = length (GraphNode.arcs st).
Proof.
  pose proof (f_equal length (unlinked_targets st a N A head)) as H.
  by rewrite !length_fmap in H.
Qed.

Lemma when_updArc st r f :
  (∀ q, r = obj q → (q < length (GraphNode.arcs st))%nat) →
  when_ (non_null r) (GraphNode.updArc r f) st
  = Ok (tt, GraphNode.mkStore (GraphNode.nodes st)
              match r with
              | obj q => alter f q (GraphNode.arcs st)
              | _ => GraphNode.arcs st
              end).
Proof.
  intros H. destruct r as [| |q]; simpl; try (by destruct st).
  by apply supdArc_alter, H.
Qed.

Lemma removeArc_run st a N la b A t (fuel : nat) :
  GraphNode.nodes st !! a = Some N → arcs_of st a la →
  first_arc_to st (obj t) la = obj b →
  GraphNode.arcs st !! b = Some A → (length la < fuel)%nat →
  (∀ q, GraphArc.previous A = obj q → (q < length (GraphNode.arcs st))%nat ∧ q ≠ b) →
  (∀ c, GraphArc.next A = obj c → (c < length (GraphNode.arcs st))%nat ∧ c ≠ b) →
  GraphNode.removeArc fuel (obj a) (obj t) st
  = Ok (true, unlinked st a N A (ref_loose_eq (GraphNode._arcList N) (obj b))).
Proof.
  intros HN Ha Hfirst HA Hf Hp Hn. unfold GraphNode.removeArc.
  change (GraphNode.accepted (obj t)) with true. cbv iota.
  rewrite (bind_eq _ _ _ _ _ (getArc_chain _ _ _ t _ Ha Hf)), Hfirst. cbn [non_null].
  rewrite (bind_eq _ _ _ _ _ (sreadArc_eq _ _ _ HA)).
  rewrite (bind_eq _ _ _ _ _ (when_updArc st (GraphArc.previous A) _
             (λ q Hq, proj1 (Hp q Hq)))).
  set (arcs1 := match GraphArc.previous A with
                | obj q => alter (GraphArc.set_next (GraphArc.next A)) q (GraphNode.arcs st)
                | _ => GraphNode.arcs st
                end).
  set (st1 := GraphNode.mkStore (GraphNode.nodes st) arcs1).
  assert (length arcs1 = length (GraphNode.arcs st)) as Hlen1.
  { subst arcs1. destruct (GraphArc.previous A); by rewrite ?length_alter. }
  assert (GraphNode.arcs st1 !! b = Some A) as HA1.
  { simpl. subst arcs1. destruct (GraphArc.previous A) as [| |q] eqn:Ep; try done.
    rewrite list_lookup_alter_ne; [done|]. by apply Hp. }
  rewrite (bind_eq _ _ _ _ _ (sreadArc_eq _ _ _ HA1)).
  rewrite (bind_eq _ _ _ _ _ (when_updArc st1 (GraphArc.next A) _
             (λ c Hc, eq_ind_r (λ n, (c < n)%nat) (proj1 (Hn c Hc)) Hlen1))).
  set (arcs2 := match GraphArc.next A with
                | obj c => alter (GraphArc.set_previous (GraphArc.previous A)) c
                             (GraphNode.arcs st1)
                | _ => GraphNode.arcs st1
                end).
  set (st2 := GraphNode.mkStore (GraphNode.nodes st1) arcs2).
  assert (GraphNode.arcs st2 !! b = Some A) as HA2.
  { simpl. subst arcs2. destruct (GraphArc.next A) as [| |c] eqn:En; try done.
    rewrite list_lookup_alter_ne; [done|]. by apply Hn. }
  rewrite (bind_eq _ _ _ _ _ (sreadNode_eq st2 a N HN)).
  rewrite (bind_eq _ _ _ _ _ (sreadArc_eq _ _ _ HA2)).
  unfold unlinked. fold arcs1. 
  destruct (ref_loose_eq (GraphNode._arcList N) (obj b)); cbn [when_].
  - rewrite (bind_eq _ _ _ _ _ (supdNode_eq st2 a N _ HN)). done.
  - done.
Qed.

Lemma arc_prev_lookup st b x :
  arc_prevs st !! b = Some x →
  ∃ A, GraphNode.arcs st !! b = Some A ∧ GraphArc.previous A = x.
Proof.
  unfold arc_prevs. rewrite list_lookup_fmap. intros H.
  apply fmap_Some in H as (A & H & ->). eauto.
Qed.

Lemma removeArc_absent st a la t (fuel : nat) :
  arcs_of st a la → (length la < fuel)%nat →
  split_first st (obj t) la = None →
  GraphNode.removeArc fuel (obj a) (obj t) st = Ok (false, st) ∧
  obj t ∉ targets_of st la.
Proof.
  intros Ha Hf Hsp. destruct (split_first_None _ _ _ Hsp) as [Hfirst Hno]. split.
  - unfold GraphNode.removeArc. change (GraphNode.accepted (obj t)) with true.
    cbv iota.
    by rewrite (bind_eq _ _ _ _ _ (getArc_chain _ _ _ t _ Ha Hf)), Hfirst.
  - intros Hin. apply list_elem_of_fmap in Hin as (b & Hb & Hbin).
    specialize (Hno b Hbin). rewrite <- Hb in Hno. simpl in Hno.
    by rewrite Nat.eqb_refl in Hno.
Qed.

(** The first arc of the list is taken off. *)
Lemma removeArc_head st a N b l2 A t (fuel : nat) :
  store_wf st → GraphNode.nodes st !! a = Some N → arcs_of st a (b :: l2) →
  first_arc_to st (obj t) (b :: l2) = obj b →
  GraphNode.arcs st !! b = Some A → (length (b :: l2) < fuel)%nat →
  ∃ st', GraphNode.removeArc fuel (obj a) (obj t) st = Ok (true, st') ∧
         store_wf st' ∧ arcs_of st' a l2 ∧
         (∀ x lx, x ≠ a → arcs_of st x lx → arcs_of st' x lx) ∧
         GraphArc.node <$> GraphNode.arcs st' = GraphArc.node <$> GraphNode.arcs st ∧
         no_arcs <$> GraphNode.nodes st' = no_arcs <$> GraphNode.nodes st ∧
         arc_nexts st' !! b = arc_nexts st !! b.
Proof.
  intros Hwf HN Ha Hfirst HA Hf. pose proof Hwf as [[Hok1 Hok2] Hbl].
  pose proof Ha as (N' & HN' & Hc & Hcur).
  rewrite HN in HN'. injection HN' as <-.
  pose proof (chain_NoDup _ _ _ Hc) as Hnd.
  apply NoDup_cons in Hnd as [Hb2 Hnd2].
  inversion Hc as [|b' n l' Hnb Hl2 Hhead]; subst b' l'.
  destruct (arc_next_lookup _ _ _ Hnb) as (A' & HA' & Hn).
  rewrite HA in HA'. injection HA' as <-. subst n.
  destruct (Hbl a _ Ha) as [(x & Hx & Hhb) Hbacks].
  destruct (arc_prev_lookup _ _ _ Hx) as (A' & HA' & Hp).
  rewrite HA in HA'. injection HA' as <-. subst x.
  assert (∀ q, GraphArc.previous A = obj q →
               (q < length (GraphNode.arcs st))%nat ∧ q ≠ b) as Hpv.
  { intros q Hq. rewrite Hq in Hhb. destruct Hhb as [Hlt Hoff].
    split; [done|]. intros ->. apply (Hoff a _ Ha). by left. }
  assert (∀ c, GraphArc.next A = obj c →
               (c < length (GraphNode.arcs st))%nat ∧ c ≠ b ∧ ∃ l, l2 = c :: l) as Hnv.
  { intros c Hcn. rewrite Hcn in Hl2.
    inversion Hl2 as [r Hr|c' y l Hy Hl]; subst; [discriminate|].
    split; [|split; [|by eexists]].
    - apply (arcs_of_lt _ _ _ _ Ha). right. by left.
    - intros ->. apply Hb2. by left. }
  exists (unlinked st a N A true). split.
  { rewrite (removeArc_run st a N _ b A t fuel HN Ha Hfirst HA Hf Hpv).
    - rewrite <- Hhead. simpl. by rewrite Nat.eqb_refl.
    - intros c Hcn. destruct (Hnv c Hcn) as (? & ? & _). done. }
  assert (arcs_of (unlinked st a N A true) a l2) as Ha'.
  { exists (GraphNode.with_arcList (GraphArc.next A) N). split.
    { simpl. apply list_lookup_insert_eq. by eapply lookup_lt_Some. }
    split.
    - simpl. rewrite unlinked_nexts.
      destruct (GraphArc.previous A) as [| |q] eqn:Ep; try done.
      destruct (GraphArc.next A) as [| |c] eqn:En; try done.
      apply chain_insert; [|done]. intros Hq. destruct Hhb as [_ Hoff].
      apply (Hoff a _ Ha). by right.
    - simpl. intros t' Ht'. apply Hcur. rewrite last_cons, Ht'. done. }
  destruct (wf_after st (unlinked st a N A true) a N
              (GraphNode.with_arcList (GraphArc.next A) N) (b :: l2) l2)
    as [Hwf' Hothers]; try done.
  - apply unlinked_length.
  - intros i. rewrite unlinked_nexts.
    destruct (GraphArc.previous A) as [| |q] eqn:Ep; try (by left).
    destruct (GraphArc.next A) as [| |c] eqn:En; try (by left).
    destruct (decide (i = q)) as [->|Hne]; [by right; right|].
    left. by rewrite list_lookup_insert_ne.
  - intros i. rewrite unlinked_prevs.
    destruct (GraphArc.next A) as [| |c] eqn:En; try (by left).
    destruct (GraphArc.previous A) as [| |q] eqn:Ep; try (by left).
    destruct (decide (i = c)) as [->|Hne]; [|left; by rewrite list_lookup_insert_ne].
    right. left. destruct (Hnv c eq_refl) as (_ & _ & l & ->). right. by left.
  - intros i Hi. by right.
  - destruct l2 as [|c l]; [done|].
    destruct Hbacks as [Hpc Hbacks].
    assert (GraphArc.next A = obj c) as En.
    { by inversion Hl2. }
    apply NoDup_cons in Hnd2 as [Hcl _].
    rewrite unlinked_prevs, En. split.
    + destruct (GraphArc.previous A) as [| |q] eqn:Ep.
      * exists (obj b). split; [done|]. right. split; [by left|done].
      * exists (obj b). split; [done|]. right. split; [by left|done].
      * exists (obj q). split; [|by left].
        apply list_lookup_insert_eq. by eapply lookup_lt_Some.
    + destruct (GraphArc.previous A) as [| |q] eqn:Ep; try done.
      by apply backs_insert.
  - split; [done|]. split; [done|]. split; [done|].
    split; [apply unlinked_targets|]. split.
    + simpl. rewrite list_fmap_insert.
      apply list_insert_id. by rewrite list_lookup_fmap, HN.
    + rewrite unlinked_nexts.
      destruct (GraphArc.previous A) as [| |q] eqn:Ep; try done.
      destruct (GraphArc.next A) as [| |c] eqn:En; try done.
      rewrite list_lookup_insert_ne; [done|]. by apply Hpv.
Qed.

(** An arc that is not the first is taken off, unless it is the last. *)
Lemma removeArc_inner st a N h l1 b l2 A t (fuel : nat) :
  store_wf st → GraphNode.nodes st !! a = Some N →
  arcs_of st a ((h :: l1) ++ b :: l2) →
  first_arc_to st (obj t) ((h :: l1) ++ b :: l2) = obj b →
  GraphNode.arcs st !! b = Some A → (length ((h :: l1) ++ b :: l2) < fuel)%nat →
  ∃ st', GraphNode.removeArc fuel (obj a) (obj t) st = Ok (true, st') ∧
         store_wf st' ∧
         arcs_of st' a (match l2 with
                        | [] => (h :: l1) ++ [b]
                        | _ => (h :: l1) ++ l2
                        end) ∧
         (∀ x lx, x ≠ a → arcs_of st x lx → arcs_of st' x lx) ∧
         GraphArc.node <$> GraphNode.arcs st' = GraphArc.node <$> GraphNode.arcs st ∧
         no_arcs <$> GraphNode.nodes st' = no_arcs <$> GraphNode.nodes st ∧
         arc_nexts st' !! b = arc_nexts st !! b.
Proof.
  intros Hwf HN Ha Hfirst HA Hf. pose proof Hwf as [[Hok1 Hok2] Hbl].
  pose proof Ha as (N' & HN' & Hc & Hcur).
  rewrite HN in HN'. injection HN' as <-.
  pose proof (chain_NoDup _ _ _ Hc) as Hnd.
  assert (GraphNode._arcList N = obj h) as Hhead by (by inversion Hc).
  destruct (chain_suffix _ _ _ _ Hc) as (x & Hx & _ & Hxlast).
  inversion Hx as [|b' n l' Hnb Hl2 Hxb]; subst b' l'.
  destruct (arc_next_lookup _ _ _ Hnb) as (A' & HA' & Hn).
  rewrite HA in HA'. injection HA' as <-. subst n.
  destruct (Hbl a _ Ha) as [(x0 & Hx0 & Hhb) Hbacks].
  apply backs_app in Hbacks as [Hb1 [Hpb Hb2]].
  set (q := default h (last l1)) in *.
  assert (last (h :: l1) = Some q) as Hlast.
  { rewrite last_cons. subst q. by destruct (last l1). }
  destruct (proj1 (last_Some _ _) Hlast) as [front Hfront].
  destruct (arc_prev_lookup _ _ _ Hpb) as (A' & HA' & Hp).
  rewrite HA in HA'. injection HA' as <-.
  assert ((b ∉ (h :: l1)) ∧ (b ∉ l2) ∧ NoDup l2 ∧ NoDup (h :: l1) ∧
          (∀ i, i ∈ (h :: l1) → i ∉ l2))
    as (Hbl1 & Hbl2 & Hnd2 & Hnd1 & Hdisj).
  { apply NoDup_app in Hnd as (Hnd1 & Hd & Hnd2).
    apply NoDup_cons in Hnd2 as [Hb Hnd2].
    split; [|split; [done|split; [done|split; [done|]]]].
    - intros Hin. apply (Hd b Hin). by left.
    - intros i Hi Hi2. apply (Hd i Hi). by right. }
  assert (q ∈ h :: l1) as Hq1 by (by apply last_Some_elem_of).
  assert (h ≠ b) as Hhb' by (intros ->; apply Hbl1; by left).
  assert (q ≠ b) as Hqb by (intros E; apply Hbl1; by rewrite <- E).
  assert (∀ i, i ∈ (h :: l1) ++ b :: l2 → (i < length (GraphNode.arcs st))%nat) as Hlt.
  { intros i Hi. by apply (arcs_of_lt _ _ _ _ Ha). }
  assert (∀ q', GraphArc.previous A = obj q' →
                (q' < length (GraphNode.arcs st))%nat ∧ q' ≠ b) as Hpv.
  { intros q' Hq'. rewrite Hp in Hq'. injection Hq' as <-. split; [|done].
    apply Hlt, elem_of_app. by left. }
  assert (∀ c, GraphArc.next A = obj c →
               (c < length (GraphNode.arcs st))%nat ∧ c ≠ b ∧ ∃ l, l2 = c :: l) as Hnv.
  { intros c Hcn. rewrite Hcn in Hl2.
    inversion Hl2 as [r Hr|c' y l Hy Hl]; subst; [discriminate|].
    split; [|split; [|by eexists]].
    - apply Hlt, elem_of_app. right. right. by left.
    - intros ->. apply Hbl2. by left. }
  exists (unlinked st a N A false). split.
  { rewrite (removeArc_run st a N _ b A t fuel HN Ha Hfirst HA Hf Hpv).
    - rewrite Hhead. simpl. by rewrite (proj2 (Nat.eqb_neq h b) Hhb').
    - intros c Hcn. destruct (Hnv c Hcn) as (? & ? & _). done. }
  set (la' := match l2 with [] => (h :: l1) ++ [b] | _ => (h :: l1) ++ l2 end).
  assert (la' ⊆ (h :: l1) ++ b :: l2) as Hsub.
  { subst la'. intros i Hi. destruct l2 as [|c l2]; [done|].
    apply elem_of_app in Hi as [Hi|Hi]; apply elem_of_app; [by left|].
    right. by right. }
  assert (arcs_of (unlinked st a N A false) a la') as Ha'.
  { exists N. split; [done|]. rewrite unlinked_nexts, Hp. subst la'.
    destruct l2 as [|c l2].
    - inversion Hl2 as [r Hr|]; subst. split; [|done].
      by destruct (GraphArc.next A).
    - destruct (GraphArc.next A) as [| |c'] eqn:En;
        try (inversion Hl2; subst; discriminate).
      assert (c' = c) as -> by (by inversion Hl2).
      split.
      + rewrite Hfront, <- app_assoc. simpl.
        rewrite Hfront, <- app_assoc in Hc. simpl in Hc.
        by apply (chain_skip _ _ _ _ b).
      + intros t' Ht'. apply Hcur. by rewrite last_app_cons in Ht' |- *. }
  destruct (wf_after st (unlinked st a N A false) a N N ((h :: l1) ++ b :: l2) la')
    as [Hwf' Hothers]; try done.
  - simpl. symmetry. by apply list_insert_id.
  - apply unlinked_length.
  - intros i. rewrite unlinked_nexts, Hp.
    destruct (GraphArc.next A) as [| |c] eqn:En; try (by left).
    destruct (decide (i = q)) as [->|Hne]; [|left; by rewrite list_lookup_insert_ne].
    right. left. apply elem_of_app. by left.
  - intros i. rewrite unlinked_prevs, Hp.
    destruct (GraphArc.next A) as [| |c] eqn:En; try (by left).
    destruct (decide (i = c)) as [->|Hne]; [|left; by rewrite list_lookup_insert_ne].
    right. left. destruct (Hnv c eq_refl) as (_ & _ & l & ->).
    apply elem_of_app. right. right. by left.
  - rewrite unlinked_prevs, Hp. subst la'. destruct l2 as [|c l2].
    + inversion Hl2 as [r Hr|]; subst. simpl.
      assert (match GraphArc.next A with
              | obj c => <[c:=obj q]> (arc_prevs st)
              | _ => arc_prevs st
              end = arc_prevs st) as -> by (by destruct (GraphArc.next A)).
      split.
      * exists x0. split; [done|]. destruct x0; try done. by left.
      * apply backs_app. done.
    + destruct (GraphArc.next A) as [| |c'] eqn:En;
        try (inversion Hl2; subst; discriminate).
      assert (c' = c) as -> by (by inversion Hl2).
      destruct Hb2 as [Hpc Hb2]. apply NoDup_cons in Hnd2 as [Hcl2 _].
      assert (c ∉ h :: l1) as Hcl1.
      { intros Hin. apply (Hdisj c Hin). by left. }
      simpl. split.
      * exists x0. split.
        -- rewrite list_lookup_insert_ne; [done|]. intros ->. apply Hcl1. by left.
        -- destruct x0; try done. by left.
      * apply backs_app. split.
        -- apply backs_insert; [|done]. intros Hin. apply Hcl1. by right.
        -- fold q. split.
           ++ apply list_lookup_insert_eq. by eapply lookup_lt_Some.
           ++ by apply backs_insert.
  - split; [done|]. split; [done|]. split; [done|].
    split; [apply unlinked_targets|]. split; [done|].
    rewrite unlinked_nexts, Hp.
    destruct (GraphArc.next A) as [| |c] eqn:En; try done.
    by rewrite list_lookup_insert_ne.
Qed.

Lemma removeArc_step st a la t (fuel : nat) :
  store_wf st → arcs_of st a la → (length la < fuel)%nat →
  ∃ st', GraphNode.removeArc fuel (obj a) (obj t) st
         = Ok (bool_decide (obj t ∈ targets_of st la), st') ∧
         store_wf st' ∧ arcs_of st' a (after_removeArc st (obj t) la) ∧
         (∀ x lx, x ≠ a → arcs_of st x lx → arcs_of st' x lx) ∧
         GraphArc.node <$> GraphNode.arcs st' = GraphArc.node <$> GraphNode.arcs st ∧
         no_arcs <$> GraphNode.nodes st' = no_arcs <$> GraphNode.nodes st ∧
         (∀ b, first_arc_to st (obj t) la = obj b →
               arc_nexts st' !! b = arc_nexts st !! b).
Proof.
  intros Hwf Ha Hf. unfold after_removeArc.
  destruct (split_first st (obj t) la) as [[[l1 b] l2]|] eqn:Hsp.
  2: { destruct (removeArc_absent st a la t fuel Ha Hf Hsp) as [E Hnin].
       exists st. by rewrite E, (bool_decide_eq_false_2 _ Hnin). }
  destruct (split_first_Some _ _ _ _ _ _ Hsp) as (Hfirst & Hla & Htb).
  assert (b ∈ la) as Hbin by (rewrite Hla; apply elem_of_app; right; by left).
  pose proof (arcs_of_lt _ _ _ _ Ha Hbin) as Hblt.
  destruct (lookup_lt_is_Some_2 _ _ Hblt) as [A HA].
  assert (obj t ∈ targets_of st la) as Htin.
  { apply list_elem_of_fmap. exists b. split; [|done].
    destruct (target_of st b) as [| |t']; simpl in Htb; try done.
    apply Nat.eqb_eq in Htb. by subst. }
  rewrite (bool_decide_eq_true_2 _ Htin).
  pose proof Ha as (N & HN & _). subst la.
  destruct l1 as [|h l1].
  - destruct (removeArc_head st a N b l2 A t fuel Hwf HN Ha Hfirst HA Hf)
      as (st' & H1 & H2 & H3 & H4 & H5 & H6 & H7). exists st'.
    do 6 (split; [done|]). intros b' Hb'. rewrite Hfirst in Hb'. by injection Hb' as <-.
  - destruct (removeArc_inner st a N h l1 b l2 A t fuel Hwf HN Ha Hfirst HA Hf)
      as (st' & H1 & H2 & H3 & H4 & H5 & H6 & H7). exists st'.
    split; [done|]. split; [done|]. split; [by destruct l2|].
    do 3 (split; [done|]). intros b' Hb'. rewrite Hfirst in Hb'. by injection Hb' as <-.
Qed.

(** [removeArc] towards a node takes the first arc to the target off the
    arc list of the node, except when that arc is the last of the list
    and not the first: then the list stays as it is.  It returns whether
    the node had an arc to the target.  The arc lists of the other nodes
    and the targets of the arcs stay. *)
Theorem removeArc_unlinks st a la t (fuel : nat) :
  store_wf st → arcs_of st a la → (length la < fuel)%nat →
  ∃ st', GraphNode.removeArc fuel (obj a) (obj t) st
         = Ok (bool_decide (obj t ∈ targets_of st la), st') ∧
         store_wf st' ∧ arcs_of st' a (after_removeArc st (obj t) la) ∧
         (∀ x lx, x ≠ a → arcs_of st x lx → arcs_of st' x lx) ∧
         GraphArc.node <$> GraphNode.arcs st' = GraphArc.node <$> GraphNode.arcs st.
Proof.
  intros Hwf Ha Hf.
  destruct (removeArc_step st a la t fuel Hwf Ha Hf) as (st' & H1 & H2 & H3 & H4 & H5 & _).
  by exists st'.
Qed.

(** *** removeOutgoingArcs *)

Lemma targets_same st st' b :
  GraphArc.node <$> GraphNode.arcs st' = GraphArc.node <$> GraphNode.arcs st →
  target_of st' b = target_of st b.
Proof.
  intros E. unfold target_of. apply (f_equal (.!! b)) in E.
  rewrite !list_lookup_fmap in E. by rewrite E.
Qed.

Lemma removeOutgoingArcs_loop_empties a la : ∀ st arc (fuel : nat),
  store_wf st → arcs_of st a la →
  match la with [] => non_null arc = false | b :: _ => arc = obj b end →
  (∀ b, b ∈ la → non_null (target_of st b) = true) →
  (length la + 1 < fuel)%nat →
  ∃ st', GraphNode.removeOutgoingArcs_loop fuel (obj a) arc st = Ok (tt, st') ∧
         store_wf st' ∧ arcs_of st' a [] ∧
         (∀ x lx, x ≠ a → arcs_of st x lx → arcs_of st' x lx) ∧
         GraphArc.node <$> GraphNode.arcs st' = GraphArc.node <$> GraphNode.arcs st ∧
         no_arcs <$> GraphNode.nodes st' = no_arcs <$> GraphNode.nodes st.
Proof.
  induction la as [|b l2 IH]; intros st arc [|fuel] Hwf Ha Harc Htg Hf;
    try (simpl in Hf; lia); cbn [GraphNode.removeOutgoingArcs_loop].
  - rewrite Harc. by exists st.
  - subst arc. cbn [non_null].
    assert (b ∈ b :: l2) as Hbin by left.
    pose proof (arcs_of_lt _ _ _ _ Ha Hbin) as Hblt.
    destruct (lookup_lt_is_Some_2 _ _ Hblt) as [A HA].
    rewrite (bind_eq _ _ _ _ _ (sreadArc_eq _ _ _ HA)).
    pose proof (Htg b Hbin) as Htb. rewrite (target_of_lookup _ _ _ HA) in Htb.
    destruct (GraphArc.node A) as [| |t] eqn:Et; try discriminate.
    assert (split_first st (obj t) (b :: l2) = Some ([], b, l2)) as Hsp.
    { simpl. rewrite (target_of_lookup _ _ _ HA), Et. simpl.
      by rewrite Nat.eqb_refl. }
    destruct (removeArc_step st a (b :: l2) t fuel Hwf Ha ltac:(simpl in *; lia))
      as (st1 & E1 & Hwf1 & Ha1 & Ho1 & Ht1 & Hf1 & Hn1).
    unfold after_removeArc in Ha1. rewrite Hsp in Ha1. simpl in Ha1.
    rewrite (bind_eq _ _ _ _ _ E1).
    specialize (Hn1 b (proj1 (split_first_Some _ _ _ _ _ _ Hsp))).
    assert (arc_nexts st !! b = Some (GraphArc.next A)) as Hnb.
    { unfold arc_nexts. by rewrite list_lookup_fmap, HA. }
    rewrite Hnb in Hn1.
    destruct (arc_next_lookup _ _ _ Hn1) as (A1 & HA1 & En).
    rewrite (bind_eq _ _ _ _ _ (sreadArc_eq _ _ _ HA1)). rewrite En.
    destruct (IH st1 (GraphArc.next A) fuel Hwf1 Ha1)
      as (st' & E' & Hwf' & Ha' & Ho' & Ht' & Hf').
    + destruct Ha as (N & _ & Hc & _).
      inversion Hc as [|b' n l' Hnb' Hl2]; subst.
      rewrite Hnb in Hnb'. injection Hnb' as <-.
      inversion Hl2; subst; done.
    + intros c Hc. rewrite (targets_same _ _ _ Ht1). apply Htg. by right.
    + simpl in Hf. lia.
    + exists st'. split; [done|]. split; [done|]. split; [done|].
      split; [|split; congruence].
      intros x lx Hx Hlx. by apply Ho', Ho1.
Qed.

(** [removeOutgoingArcs] leaves the node without arcs, when every arc of
    its list has a node as target; the arc lists of the other nodes and
    the targets of the arcs stay. *)
Theorem removeOutgoingArcs_empties st a la (fuel : nat) :
  store_wf st → arcs_of st a la →
  (∀ b, b ∈ la → non_null (target_of st b) = true) →
  (length la + 1 < fuel)%nat →
  ∃ st', GraphNode.removeOutgoingArcs fuel (obj a) st = Ok (tt, st') ∧
         store_wf st' ∧ arcs_of st' a [] ∧
         (∀ x lx, x ≠ a → arcs_of st x lx → arcs_of st' x lx) ∧
         GraphArc.node <$> GraphNode.arcs st' = GraphArc.node <$> GraphNode.arcs st ∧
         no_arcs <$> GraphNode.nodes st' = no_arcs <$> GraphNode.nodes st.
Proof.
  intros Hwf Ha Htg Hf. pose proof Ha as (N & HN & Hc & _).
  unfold GraphNode.removeOutgoingArcs.
  rewrite (bind_eq _ _ _ _ _ (sreadNode_eq _ _ _ HN)).
  apply (removeOutgoingArcs_loop_empties a la); try done.
  by inversion Hc.
Qed.

(** *** addArc keeps the lists doubly linked *)

Lemma backs_app_l prevs ys p l :
  backs prevs p l → backs (prevs ++ ys) p l.
Proof.
  revert p. induction l as [|y l IH]; intros p Hb; [done|].
  destruct Hb as [Hy Hb]. split; [by apply lookup_app_l_Some|by apply IH].
Qed.

(** [addArc] keeps the lists of arcs doubly linked. *)
Theorem addArc_keeps_wf st a la target cost :
  store_wf st → arcs_of st a la → non_null target = true →
  ∃ st', GraphNode.addArc (obj a) target cost st = Ok (tt, st') ∧ store_wf st'.
Proof.
  intros [Hok Hbl] Ha Ht. pose proof Hok as [Hok1 Hok2].
  destruct (addArc_grows st a la target cost Hok Ha Ht)
    as (st' & E & Hok' & Ha' & _ & Hothers & Hframe & _ & Hlen & Hprevs).
  exists st'. split; [done|]. split; [done|].
  set (m := length (GraphNode.arcs st)) in *.
  assert (∀ x lx', arcs_of st' x lx' →
            (x = a ∧ lx' = la ++ [m]) ∨ (x ≠ a ∧ arcs_of st x lx')) as Hlists.
  { intros x lx' Hx'. destruct (decide (x = a)) as [->|Hne].
    - left. split; [done|]. by eapply arcs_of_functional.
    - right. split; [done|]. pose proof (arcs_of_node _ _ _ Hx') as Hlt.
      apply (f_equal length) in Hframe. rewrite !length_fmap in Hframe.
      rewrite Hframe in Hlt. destruct (Hok1 x Hlt) as [lx Hlx].
      destruct (Hothers x lx Hne Hlx) as [Hlx' _].
      by rewrite (arcs_of_functional _ _ _ _ Hx' Hlx'). }
  assert (∀ g, off_lists st g → off_lists st' g) as Hoff.
  { intros g [Hg Hoff]. split; [rewrite Hlen; lia|].
    intros x lx' Hx' Hin. destruct (Hlists x lx' Hx') as [[-> ->]|[Hne Hlx]].
    - apply elem_of_app in Hin as [Hin|Hin]; [by apply (Hoff a la)|].
      apply list_elem_of_singleton in Hin. lia.
    - by apply (Hoff x lx'). }
  assert (∀ x0, head_back st x0 → head_back st' x0) as Hhb.
  { intros [| |g]; try done. apply Hoff. }
  intros x lx' Hx'. destruct (Hlists x lx' Hx') as [[-> ->]|[Hne Hlx]].
  - pose proof (Hbl a la Ha) as Hb. destruct la as [|h l].
    + simpl. rewrite Hprevs. split; [|done]. exists null. split; [|done].
      apply list_lookup_middle. unfold arc_prevs. by rewrite length_fmap.
    + destruct Hb as [(x0 & Hx0 & Hh) Hb]. simpl. rewrite Hprevs. split.
      * exists x0. split; [by apply lookup_app_l_Some|by apply Hhb].
      * apply backs_app. split; [by apply backs_app_l|].
        split; [|done]. rewrite last_cons.
        assert (∀ o : option nat,
                  default null (obj <$> match o with Some y => Some y | None => Some h end)
                  = obj (default h o)) as -> by (by intros [?|]).
        apply list_lookup_middle. unfold arc_prevs. by rewrite length_fmap.
  - pose proof (Hbl x lx' Hlx) as Hb. destruct lx' as [|h l]; [done|].
    destruct Hb as [(x0 & Hx0 & Hh) Hb]. simpl. rewrite Hprevs. split.
    + exists x0. split; [by apply lookup_app_l_Some|by apply Hhb].
    + by apply backs_app_l.
Qed.

End RemoveArc.

(** ** Taking a node off the node list *)

Section TakeNode.
Context {V : Type}.
Implicit Types (st : GraphNode.Store V) (s : Graph.State V).

Lemma updNode_alter s q f :
  (q < length (GraphNode.nodes (Graph.store s)))%nat →
  Graph.updNode (obj q) f s
  = Ok (tt, Graph.mkState
              (GraphNode.mkStore (alter f q (GraphNode.nodes (Graph.store s)))
                                 (GraphNode.arcs (Graph.store s)))
              (Graph.this s)).
Proof.
  intros Hq. destruct (lookup_lt_is_Some_2 _ _ Hq) as [Q HQ].
  rewrite (updNode_eq _ _ _ _ HQ). unfold put_node. do 4 f_equal.
  apply list_eq. intros i. destruct (decide (i = q)) as [->|Hne].
  - rewrite list_lookup_insert_eq by done. by rewrite list_lookup_alter_eq, HQ.
  - rewrite list_lookup_insert_ne by done. by rewrite list_lookup_alter_ne.
Qed.

Lemma when_updNode s r f :
  valid_ref (length (GraphNode.nodes (Graph.store s))) r →
  when_ (non_null r) (Graph.updNode r f) s
  = Ok (tt, Graph.mkState
              (GraphNode.mkStore
                 match r with
                 | obj q => alter f q (GraphNode.nodes (Graph.store s))
                 | _ => GraphNode.nodes (Graph.store s)
                 end
                 (GraphNode.arcs (Graph.store s)))
              (Graph.this s)).
Proof.
  intros Hr. destruct r as [| |q]; simpl; [by destruct s as [[] ?]..|].
  by apply updNode_alter.
Qed.

(** [removeNode] of a node without arcs makes the assignments of
    [node_unlinked]. *)
Lemma removeNode_run s a N (fuel : nat) :
  GraphNode.nodes (Graph.store s) !! a = Some N →
  non_null (GraphNode._arcList N) = false →
  valid_ref (length (GraphNode.nodes (Graph.store s))) (GraphNode._prev N) →
  valid_ref (length (GraphNode.nodes (Graph.store s))) (GraphNode._next N) →
  GraphNode._prev N ≠ obj a → GraphNode._next N ≠ obj a →
  Graph.removeNode (S fuel) (obj a) s
  = Ok (tt, node_unlinked s N
              (ref_strict_eq (Graph._nodeList (Graph.this s)) (obj a))).
Proof.
  intros HN Ha Hp Hn Hpa Hna. unfold Graph.removeNode.
  change (ref_strict_eq (obj a) undefined || negb (non_null (obj a))) with false.
  cbv iota.
  rewrite (bind_eq _ _ _ _ _ (unlink_without_arcs fuel _ _ _ HN Ha)).
  rewrite (bind_eq _ _ _ _ _ (readNode_eq _ _ _ HN)).
  rewrite (bind_eq _ _ _ _ _ (when_updNode s _ _ Hp)).
  set (s1 := Graph.mkState _ _).
  assert (GraphNode.nodes (Graph.store s1) !! a = Some N) as HN1.
  { unfold s1. cbn [Graph.store GraphNode.nodes].
    destruct (GraphNode._prev N) as [| |q]; [done..|].
    rewrite list_lookup_alter_ne; [done|congruence]. }
  rewrite (bind_eq _ _ _ _ _ (readNode_eq _ _ _ HN1)).
  assert (valid_ref (length (GraphNode.nodes (Graph.store s1))) (GraphNode._next N))
    as Hn1.
  { unfold s1. cbn [Graph.store GraphNode.nodes].
    destruct (GraphNode._prev N) as [| |q]; [done..|]. by rewrite length_alter. }
  rewrite (bind_eq _ _ _ _ _ (when_updNode s1 _ _ Hn1)).
  set (s2 := Graph.mkState _ _).
  assert (GraphNode.nodes (Graph.store s2) !! a = Some N) as HN2.
  { unfold s2. cbn [Graph.store GraphNode.nodes].
    destruct (GraphNode._next N) as [| |c]; [done..|].
    rewrite list_lookup_alter_ne; [done|congruence]. }
  rewrite (bind_eq _ _ s2 s2 (Graph.this s2)) by done.
  rewrite (bind_eq _ _ _ _ _ (readNode_eq _ _ _ HN2)).
  unfold node_unlinked, s2, s1. cbn [Graph.this Graph.store GraphNode.nodes GraphNode.arcs].
  by destruct (ref_strict_eq _ _).
Qed.

Lemma node_unlinked_nexts s N head :
  node_nexts (Graph.store (node_unlinked s N head))
  = match GraphNode._prev N, GraphNode._next N with
    | obj q, obj c => <[q := obj c]> (node_nexts (Graph.store s))
    | _, _ => node_nexts (Graph.store s)
    end.
Proof.
  assert (∀ p (x : GraphNode.t V),
            GraphNode._next (GraphNode.set_previous p x) = GraphNode._next x) as Hsp.
  { intros p x. unfold GraphNode.set_previous. by destruct (GraphNode.accepted p). }
  unfold node_nexts, node_unlinked. cbn [Graph.store GraphNode.nodes].
  destruct (GraphNode._next N) as [| |c] eqn:En;
    destruct (GraphNode._prev N) as [| |q] eqn:Ep;
    rewrite ?(fmap_alter_same GraphNode._next (GraphNode.set_previous _)) by done;
    try done.
  - by apply fmap_alter_same.
  - by apply fmap_alter_same.
  - by apply fmap_alter_const.
Qed.

Lemma node_unlinked_prevs s N head :
  node_prevs (Graph.store (node_unlinked s N head))
  = match GraphNode._next N, GraphNode._prev N with
    | obj c, obj q => <[c := obj q]> (node_prevs (Graph.store s))
    | _, _ => node_prevs (Graph.store s)
    end.
Proof.
  assert (∀ n (x : GraphNode.t V),
            GraphNode._prev (GraphNode.set_next n x) = GraphNode._prev x) as Hsn.
  { intros n x. unfold GraphNode.set_next. by destruct (GraphNode.accepted n). }
  unfold node_prevs, node_unlinked. cbn [Graph.store GraphNode.nodes].
  destruct (GraphNode._next N) as [| |c] eqn:En;
    destruct (GraphNode._prev N) as [| |q] eqn:Ep;
    rewrite ?(fmap_alter_same GraphNode._prev (GraphNode.set_next _)) by done;
    try done.
  - by apply fmap_alter_same.
  - by apply fmap_alter_same.
  - rewrite (fmap_alter_const GraphNode._prev _ _ _ (obj q)) by done.
    by rewrite (fmap_alter_same GraphNode._prev (GraphNode.set_next _)).
Qed.

Lemma node_unlinked_heads s N head :
  heads (node_unlinked s N head) = heads s ∧
  length (GraphNode.nodes (Graph.store (node_unlinked s N head)))
  = length (GraphNode.nodes (Graph.store s)).
Proof.
  assert (∀ n (x : GraphNode.t V),
            GraphNode._arcList (GraphNode.set_next n x) = GraphNode._arcList x) as Hsn.
  { intros n x. unfold GraphNode.set_next. by destruct (GraphNode.accepted n). }
  assert (∀ p (x : GraphNode.t V),
            GraphNode._arcList (GraphNode.set_previous p x) = GraphNode._arcList x)
    as Hsp.
  { intros p x. unfold GraphNode.set_previous. by destruct (GraphNode.accepted p). }
  unfold heads, node_unlinked. cbn [Graph.store GraphNode.nodes].
  destruct (GraphNode._next N) as [| |c]; destruct (GraphNode._prev N) as [| |q];
    rewrite ?length_alter, ?fmap_alter_same by done; done.
Qed.

Lemma cons_snoc {A} (h : A) (l : list A) :
  ∃ l1, h :: l = l1 ++ [default h (last l)].
Proof.
  induction l as [|x l _] using rev_ind; [by exists []|].
  exists (h :: l). by rewrite last_snoc.
Qed.

(** On a doubly linked node list, [removeNode] of a node without arcs takes
    the node off the list, except when it is the last node of the list and
    not the first: then the list stays as it is.  In both cases [size]
    goes down by one; the cursor is still on the last node, the list is
    still doubly linked, and no arc and no head of a list of arcs
    changes. *)
Theorem removeNode_unlinks_node s L1 a L2 N (fuel : nat) :
  nodes_of s (L1 ++ a :: L2) → nodes_back_linked s (L1 ++ a :: L2) →
  GraphNode.nodes (Graph.store s) !! a = Some N →
  non_null (GraphNode._arcList N) = false →
  ∃ s', Graph.removeNode (S fuel) (obj a) s = Ok (tt, s') ∧
        chain (node_nexts (Graph.store s')) (Graph._nodeList (Graph.this s'))
              (after_removeNode L1 a L2) ∧
        (∀ t, last (after_removeNode L1 a L2) = Some t →
              Graph._curNode (Graph.this s') = obj t) ∧
        Graph._size (Graph.this s') = Z.of_nat (length (L1 ++ a :: L2)) - 1 ∧
        nodes_back_linked s' (after_removeNode L1 a L2) ∧
        GraphNode.arcs (Graph.store s') = GraphNode.arcs (Graph.store s) ∧
        heads s' = heads s.
Proof.
  intros (Hc & Hcur & Hsz) Hb HN Ha.
  pose proof (chain_NoDup _ _ _ Hc) as Hnd.
  apply NoDup_app in Hnd as (Hnd1 & Hdis & Hnd2).
  apply NoDup_cons in Hnd2 as (HaL2 & Hnd2).
  assert (a ∉ L1) as HaL1. { intros Hin. apply (Hdis a Hin). by left. }
  assert (∀ i, i ∈ L1 ++ a :: L2 →
               (i < length (GraphNode.nodes (Graph.store s)))%nat) as Hlt.
  { intros i Hi. pose proof (chain_lt _ _ _ _ Hc Hi) as H.
    unfold node_nexts in H. by rewrite length_fmap in H. }
  (* the next link of the node *)
  destruct (chain_suffix (node_nexts (Graph.store s))
              (Graph._nodeList (Graph.this s)) (L1 ++ [a]) L2)
    as (x & Hx & _ & Hlx); [by rewrite <- app_assoc|].
  specialize (Hlx a (last_snoc _ _)).
  assert (GraphNode._next N = x) as Hnx.
  { unfold node_nexts in Hlx. rewrite list_lookup_fmap, HN in Hlx.
    by injection Hlx. }
  assert (match L2 with [] => non_null x = false | b :: _ => x = obj b end) as Hx2.
  { inversion Hx; subst; done. }
  (* the previous link of the node *)
  assert (∃ P, GraphNode._prev N = P ∧
               match L1 with
               | [] => match P with
                       | obj g => (g < length (GraphNode.nodes (Graph.store s)))%nat ∧
                                  g ∉ a :: L2
                       | _ => True
                       end
               | h :: t => P = obj (default h (last t))
               end) as (P & HP & HP1).
  { exists (GraphNode._prev N). split; [done|]. destruct L1 as [|h t].
    - destruct Hb as [(P & HP & Hg) _]. unfold node_prevs in HP.
      rewrite list_lookup_fmap, HN in HP. by injection HP as ->.
    - destruct Hb as [_ Hb]. apply backs_app in Hb as [_ [Hb _]].
      unfold node_prevs in Hb. rewrite list_lookup_fmap, HN in Hb.
      by injection Hb. }
  assert (valid_ref (length (GraphNode.nodes (Graph.store s))) x ∧ x ≠ obj a)
    as [Hxv Hxa].
  { destruct L2 as [|b l2]; [by destruct x|]. rewrite Hx2. split.
    - apply Hlt. rewrite elem_of_app, !elem_of_cons. auto.
    - intros [= ->]. apply HaL2. by left. }
  assert (valid_ref (length (GraphNode.nodes (Graph.store s))) P ∧ P ≠ obj a)
    as [HPv HPa].
  { destruct L1 as [|h t].
    - destruct P as [| |g]; [done..|]. destruct HP1 as [Hg Hnin].
      split; [done|]. intros [= ->]. apply Hnin. by left.
    - rewrite HP1. destruct (cons_snoc h t) as [l1 El1].
      assert (default h (last t) ∈ h :: t) as Hin.
      { rewrite El1, elem_of_app, elem_of_cons. auto. }
      split.
      + apply Hlt. rewrite elem_of_app. auto.
      + by intros [= E]; rewrite E in Hin. }
  exists (node_unlinked s N (ref_strict_eq (Graph._nodeList (Graph.this s)) (obj a))).
  split. { rewrite <- HP in HPv, HPa. rewrite <- Hnx in Hxv, Hxa. by apply removeNode_run. }
  set (s' := node_unlinked _ _ _).
  destruct (node_unlinked_heads s N
              (ref_strict_eq (Graph._nodeList (Graph.this s)) (obj a)))
    as [Hheads Hlen]. fold s' in Hheads, Hlen.
  pose proof (node_unlinked_nexts s N
                (ref_strict_eq (Graph._nodeList (Graph.this s)) (obj a))) as Hnexts.
  pose proof (node_unlinked_prevs s N
                (ref_strict_eq (Graph._nodeList (Graph.this s)) (obj a))) as Hprevs.
  fold s' in Hnexts, Hprevs. rewrite HP, Hnx in Hnexts, Hprevs.
  assert (Graph._curNode (Graph.this s') = Graph._curNode (Graph.this s)) as Hcur'.
  { unfold s', node_unlinked. by destruct (ref_strict_eq _ _). }
  assert (Graph._size (Graph.this s') = Z.of_nat (length (L1 ++ a :: L2)) - 1) as Hsz'.
  { rewrite <- Hsz. unfold s', node_unlinked. by destruct (ref_strict_eq _ _). }
  assert (Graph._nodeList (Graph.this s')
          = if ref_strict_eq (Graph._nodeList (Graph.this s)) (obj a)
            then x else Graph._nodeList (Graph.this s)) as Hhead'.
  { unfold s', node_unlinked. rewrite Hnx. by destruct (ref_strict_eq _ _). }
  assert (node_prevs (Graph.store s) !! a = Some P) as HPa'.
  { unfold node_prevs. by rewrite list_lookup_fmap, HN, <- HP. }
  split; [|split; [|split; [done|split; [|by split]]]].
  - (* the list *)
    rewrite Hhead', Hnexts. unfold ref_strict_eq. destruct L1 as [|h t].
    + assert (Graph._nodeList (Graph.this s) = obj a) as Hh by (by inversion Hc).
      rewrite Hh, bool_decide_eq_true_2 by done.
      change (after_removeNode [] a L2) with L2.
      destruct P as [| |g]; [done..|]. destruct x as [| |c]; [done..|].
      destruct HP1 as [_ Hnin]. apply not_elem_of_cons in Hnin as [_ Hnin].
      by apply chain_insert.
    + assert (Graph._nodeList (Graph.this s) = obj h) as Hh by (by inversion Hc).
      rewrite Hh in *. rewrite bool_decide_eq_false_2.
      2:{ intros [= ->]. apply HaL1. by left. }
      rewrite HP1. destruct L2 as [|b l2].
      * change (after_removeNode (h :: t) a []) with ((h :: t) ++ [a]).
        by destruct x.
      * change (after_removeNode (h :: t) a (b :: l2)) with ((h :: t) ++ b :: l2).
        rewrite Hx2 in *. destruct (cons_snoc h t) as [l1 El1].
        rewrite El1, <- app_assoc in Hc. rewrite El1, <- app_assoc.
        by apply (chain_skip _ _ l1 _ a (b :: l2) (obj b)).
  - (* the cursor *)
    intros z Hz. rewrite Hcur'. apply Hcur. destruct L1 as [|h t].
    + change (after_removeNode [] a L2) with L2 in Hz.
      destruct L2 as [|b l2]; [done|]. done.
    + destruct L2 as [|b l2]; [done|].
      change (after_removeNode (h :: t) a (b :: l2)) with ((h :: t) ++ b :: l2) in Hz.
      rewrite last_app_cons in Hz. rewrite last_app_cons. done.
  - (* the back links *)
    assert (∀ i, i ∈ L1 ++ a :: L2 →
                 (i < length (node_prevs (Graph.store s)))%nat) as Hltp.
    { intros i Hi. unfold node_prevs. rewrite length_fmap. by apply Hlt. }
    destruct L1 as [|h t].
    + change (after_removeNode [] a L2) with L2.
      destruct L2 as [|b l2]; [done|]. rewrite Hx2 in *.
      destruct Hb as [_ [Hba Hbl]]. apply NoDup_cons in Hnd2 as [Hbl2 _].
      unfold nodes_back_linked. rewrite Hprevs, Hlen.
      destruct P as [| |g].
      * split; [|done]. exists (obj a). split; [done|].
        split; [|done]. apply Hlt. by left.
      * split; [|done]. exists (obj a). split; [done|].
        split; [|done]. apply Hlt. by left.
      * destruct HP1 as [Hg Hnin]. apply not_elem_of_cons in Hnin as [_ Hnin].
        split; [|by apply backs_insert]. exists (obj g). split; [|done].
        apply list_lookup_insert_eq. apply Hltp. right. by left.
    + pose proof Hb as [(x0 & Hx0 & Hg) Hbacks].
      apply backs_app in Hbacks as (Hb1 & Hb2).
      destruct L2 as [|b l2].
      * change (after_removeNode (h :: t) a []) with ((h :: t) ++ [a]).
        unfold nodes_back_linked in Hb |- *. cbn [app] in Hb |- *.
        rewrite Hlen. replace (node_prevs (Graph.store s'))
          with (node_prevs (Graph.store s)); [done|].
        rewrite Hprevs. by destruct x.
      * change (after_removeNode (h :: t) a (b :: l2)) with ((h :: t) ++ b :: l2).
        rewrite Hx2, HP1 in Hprevs. destruct Hb2 as (_ & Hba & Hbl).
        apply NoDup_cons in Hnd2 as [Hbl2 _].
        assert (b ∉ h :: t) as Hbt.
        { intros Hin. apply (Hdis b Hin). right. by left. }
        apply not_elem_of_cons in Hbt as [Hbh Hbt].
        unfold nodes_back_linked. cbn [app]. rewrite Hprevs, Hlen. split.
        { exists x0. split; [by rewrite list_lookup_insert_ne|].
          destruct x0 as [| |g]; [done..|]. destruct Hg as [Hg Hnin].
          split; [done|]. intros Hin. apply Hnin. revert Hin. simpl.
          rewrite !elem_of_cons, !elem_of_app, !elem_of_cons. tauto. }
        apply backs_app. split; [by apply backs_insert|]. split.
        { apply list_lookup_insert_eq. apply Hltp.
          rewrite elem_of_app, !elem_of_cons. auto. }
        by apply backs_insert.
Qed.

End TakeNode.

(** ** graphFromList *)

Section FromList.
Implicit Types (c : gmap string jsref).












End FromList.

(** ** What the traversals visit *)

Section Reach.
Context {V : Type}.
Implicit Types (s : Graph.State V).

Lemma arc_links_shape s s' : same_shape s s' → arc_links s' = arc_links s.
Proof. intros (_ & _ & E). unfold arc_links. by rewrite E. Qed.

Lemma edge_shape s s' a t : same_shape s s' → edge s a t ↔ edge s' a t.
Proof.
  intros Hs. pose proof (arc_links_shape _ _ Hs) as El.
  destruct Hs as (_ & Eh & Ea). unfold edge. by rewrite El, Eh, Ea.
Qed.

Lemma reach_shape s s' a y : same_shape s s' → reach s a y ↔ reach s' a y.
Proof.
  intros Hs. split; intros H.
  - induction H as [|x t z Hxt _ IH]; [apply rtc_refl|].
    eapply rtc_l; [|exact IH]. by apply (edge_shape s s').
  - induction H as [|x t z Hxt _ IH]; [apply rtc_refl|].
    eapply rtc_l; [|exact IH]. by apply (edge_shape s s').
Qed.

Lemma grows_refl s : grows s s [].
Proof.
  split; [done|]. split; [done|]. split; [by rewrite app_nil_r|].
  intros x. split; [by left|]. intros [?|Hin]; [done|].
  by apply not_elem_of_nil in Hin.
Qed.

Lemma grows_trans s1 s2 s3 l1 l2 :
  grows s1 s2 l1 → grows s2 s3 l2 → grows s1 s3 (l1 ++ l2).
Proof.
  intros (Hs1 & Hq1 & Ht1 & Hm1) (Hs2 & Hq2 & Ht2 & Hm2).
  split; [by eapply same_shape_trans|]. split; [congruence|].
  split; [by rewrite Ht2, Ht1, fmap_app, app_assoc|].
  intros x. rewrite Hm2, Hm1, elem_of_app. tauto.
Qed.

Lemma grows_marked s s' l x :
  grows s s' l → marked_in s (obj x) → marked_in s' (obj x).
Proof. intros (_ & _ & _ & Hm) H. apply Hm. by left. Qed.

(** Marking a node and recording it. *)
Lemma mark_grows a n s :
  GraphNode.nodes (Graph.store s) !! a = Some n →
  let s0 := put_node a (GraphNode.set_marked true n) s in
  grows s (Graph.mkState (Graph.store s0)
             (Graph.with_traversal (Graph._traversal (Graph.this s0) ++ [obj a])
                (Graph.this s0))) [a].
Proof.
  intros Hn s0. split; [|split; [done|split; [done|]]].
  { eapply same_shape_trans; [by apply set_marked_shape|]. apply same_shape_graph. }
  intros x. unfold marked_in. simpl. split.
  - intros (b & m & [= <-] & Hm & Hmk).
    destruct (decide (x = a)) as [->|Hne]; [right; by left|].
    left. exists x, m. by rewrite list_lookup_insert_ne in Hm.
  - intros [(b & m & [= <-] & Hm & Hmk)|Hin].
    + destruct (decide (x = a)) as [->|Hne].
      * exists a, (GraphNode.set_marked true n). split; [done|]. split; [|done].
        apply list_lookup_insert_eq. by eapply lookup_lt_Some.
      * exists x, m. by rewrite list_lookup_insert_ne.
    + apply list_elem_of_singleton in Hin as ->.
      exists a, (GraphNode.set_marked true n). split; [done|]. split; [|done].
      apply list_lookup_insert_eq. by eapply lookup_lt_Some.
Qed.

(** *** Depth-first *)

Lemma DFS_reach (fuel : nat) :
  (∀ a s s', Graph.__DFSTraversal fuel (obj a) s = Ok (tt, s') →
     ∃ l, grows s s' (a :: l) ∧ (∀ x, x ∈ l → reach s a x) ∧
          (∀ x y, x ∈ a :: l → edge s x y → marked_in s' (obj y))) ∧
  (∀ arc s s', Graph.DFS_arcs fuel arc s = Ok (tt, s') →
     ∃ lb l, chain (arc_links s) arc lb ∧ grows s s' l ∧
       (∀ x, x ∈ l → ∃ b A t, b ∈ lb ∧
             GraphNode.arcs (Graph.store s) !! b = Some A ∧
             GraphArc.node A = obj t ∧ reach s t x) ∧
       (∀ x y, x ∈ l → edge s x y → marked_in s' (obj y)) ∧
       (∀ b A, b ∈ lb → GraphNode.arcs (Graph.store s) !! b = Some A →
               ∃ t, GraphArc.node A = obj t ∧ marked_in s' (obj t))).
Proof.
  induction fuel as [|fuel [IHn IHa]]; [split; intros; discriminate|].
  split.
  - intros a s s' H. simpl in H. do 3 step_in H. destruct x.
    apply updNode_Ok in Hs as (a' & n & [= <-] & Hn & ->).
    step_in Hs0. injection Hs0 as -> ->.
    pose proof (mark_grows a n s Hn) as Hg0. cbv zeta in Hg0.
    set (s1 := Graph.mkState _ _) in *.
    apply readNode_Ok in Hs1 as (-> & a' & [= <-] & HN).
    assert (x1 = GraphNode.set_marked true n) as ->.
    { simpl in HN. rewrite list_lookup_insert_eq in HN by (by eapply lookup_lt_Some).
      by injection HN. }
    simpl in H.
    destruct (IHa _ _ _ H) as (lb & l & Hc & Hg & Hreach & Hclos & Htg).
    pose proof Hg0 as (Hsh0 & _).
    pose proof (arc_links_shape _ _ Hsh0) as El.
    assert (GraphNode.arcs (Graph.store s1) = GraphNode.arcs (Graph.store s)) as Ea
      by done.
    assert (heads s !! a = Some (GraphNode._arcList n)) as Hh.
    { unfold heads. by rewrite list_lookup_fmap, Hn. }
    exists l. split; [exact (grows_trans _ _ _ _ _ Hg0 Hg)|]. split.
    + intros x Hx. destruct (Hreach x Hx) as (b & A & t & Hb & HA & Ht & Hr).
      eapply rtc_l; [|by apply (reach_shape s s1)].
      exists (GraphNode._arcList n), lb, b, A. rewrite <- El, <- Ea. done.
    + intros x y Hx Hxy. apply elem_of_cons in Hx as [->|Hx].
      * destruct Hxy as (h & l' & b & A & Hh' & Hc' & Hb & HA & Ht).
        rewrite Hh in Hh'. injection Hh' as <-. rewrite <- El in Hc'.
        rewrite (chain_functional _ _ _ _ Hc' Hc) in Hb.
        destruct (Htg b A Hb HA) as (t & Ht' & Hm). congruence.
      * apply (Hclos x y Hx). by apply (edge_shape s s1).
  - intros arc s s' H. simpl in H. destruct (non_null arc) eqn:Harc.
    + do 4 step_in H.
      apply readArc_Ok in Hs as (-> & b & -> & HA).
      apply readNode_Ok in Hs0 as (-> & t & Ht & HN).
      assert (arc_links s !! b = Some (GraphArc.next x)) as Hnb.
      { unfold arc_links. by rewrite list_lookup_fmap, HA. }
      assert (∃ l1, grows s s2 l1 ∧ marked_in s2 (obj t) ∧
                    (∀ y, y ∈ l1 → reach s t y) ∧
                    (∀ y z, y ∈ l1 → edge s y z → marked_in s2 (obj z)))
        as (l1 & Hg1 & Hmt & Hr1 & Hc1).
      { apply when_Ok in Hs1 as [[Hm Hrun]|[Hm [= -> ->]]].
        - destruct x1. rewrite Ht in Hrun.
          destruct (IHn _ _ _ Hrun) as (l1 & Hg1 & Hr1 & Hc1).
          exists (t :: l1). split; [done|]. split.
          { destruct Hg1 as (_ & _ & _ & Hm1). apply Hm1. right. by left. }
          split; [|done]. intros y Hy.
          apply elem_of_cons in Hy as [->|Hy]; [apply rtc_refl|by apply Hr1].
        - exists []. split; [apply grows_refl|]. split.
          { exists t, x0. split; [done|]. split; [done|].
            by apply negb_false_iff in Hm. }
          split; [intros y Hy|intros y z Hy]; by apply not_elem_of_nil in Hy. }
      pose proof Hg1 as (Hsh1 & _).
      pose proof (arc_links_shape _ _ Hsh1) as El.
      pose proof Hsh1 as (_ & _ & Ea).
      apply readArc_Ok in Hs2 as (-> & b' & [= <-] & HA').
      rewrite Ea, HA in HA'. injection HA' as <-.
      destruct (IHa _ _ _ H) as (lb & l2 & Hc & Hg2 & Hr2 & Hc2 & Htg).
      exists (b :: lb), (l1 ++ l2).
      split. { apply (chain_step _ b (GraphArc.next x)); [done|]. by rewrite <- El. }
      split; [exact (grows_trans _ _ _ _ _ Hg1 Hg2)|]. split; [|split].
      * intros y Hy. apply elem_of_app in Hy as [Hy|Hy].
        -- exists b, x, t. split; [by left|]. split; [done|]. split; [done|].
           by apply Hr1.
        -- destruct (Hr2 y Hy) as (b2 & A2 & t2 & Hb2 & HA2 & Ht2 & Hy2).
           exists b2, A2, t2. split; [by right|]. rewrite <- Ea. split; [done|].
           split; [done|]. by apply (reach_shape s s2).
      * intros y z Hy Hyz. apply elem_of_app in Hy as [Hy|Hy].
        -- eapply grows_marked; [exact Hg2|]. by apply (Hc1 y z).
        -- apply (Hc2 y z Hy). by apply (edge_shape s s2).
      * intros b2 A2 Hb2 HA2. apply elem_of_cons in Hb2 as [->|Hb2].
        -- rewrite HA in HA2. injection HA2 as <-. exists t. split; [done|].
           by eapply grows_marked.
        -- apply (Htg b2 A2 Hb2). by rewrite Ea.
    + step_in H. injection H as <-. exists [], [].
      split; [by constructor|]. split; [apply grows_refl|].
      split; [|split]; intros; by match goal with
                                 | H : _ ∈ [] |- _ => apply not_elem_of_nil in H
                                 end.
Qed.

(** The in-line loop that resets marks before a traversal: after it no
    node is marked, when the marked nodes were all met from the start. *)
Lemma unmark_all (fuel : nat) a s s' Lc :
  chain (node_links s) (obj a) Lc →
  (∀ x N, GraphNode.nodes (Graph.store s) !! x = Some N →
          GraphNode._marked N = true → x ∈ Lc) →
  Graph.unmark_loop fuel (obj a) s = Ok (tt, s') →
  same_shape s s' ∧ Graph.this s' = Graph.this s ∧ ∀ x, ¬ marked_in s' (obj x).
Proof.
  intros Hc Hm H.
  set (F := (fuel `max` S (length Lc))%nat).
  assert (fuel ≤ F)%nat as Hle1 by lia.
  assert (S (length Lc) ≤ F)%nat as Hle2 by lia.
  assert (length Lc < F)%nat as Hlt by lia.
  apply (unmark_loop_fuel fuel F (obj a) Hle1) in H.
  destruct (unmark_loop_returns Lc (obj a) s Hc) as (s2 & E2 & Hsh & Hthis & _).
  apply (unmark_loop_fuel _ F (obj a) Hle2) in E2.
  rewrite H in E2. injection E2 as <-.
  destruct (unmark_loop_chain _ _ _ Hc s F eq_refl Hlt) as (s1 & E & _ & _ & Hnodes).
  rewrite H in E. injection E as <-.
  split; [done|]. split; [done|].
  intros x (b & N1 & [= <-] & HN1 & Hmk).
  destruct (GraphNode.nodes (Graph.store s) !! x) as [N|] eqn:EN.
  - rewrite (Hnodes x N EN) in HN1. injection HN1 as <-.
    destruct (bool_decide_reflect (x ∈ Lc)) as [Hin|Hnin]; [done|].
    apply Hnin. by apply (Hm x N).
  - destruct Hsh as (El & _). apply (f_equal length) in El.
    unfold node_links in El. rewrite !length_fmap in El.
    apply lookup_lt_Some in HN1. apply lookup_ge_None in EN. lia.
Qed.

Lemma DFS_exact veq (fuel : nat) a s l s' Lc :
  Graph._size (Graph.this s) ≠ 0 → Graph._size (Graph.this s) ≠ 1 →
  chain (node_links s) (obj a) Lc →
  (∀ x N, GraphNode.nodes (Graph.store s) !! x = Some N →
          GraphNode._marked N = true → x ∈ Lc) →
  Graph.DFS veq fuel (StartNode a) s = Ok (l, s') →
  ∃ l', l = obj <$> l' ∧ ∀ x, x ∈ l' ↔ reach s a x.
Proof.
  intros H0 H1 Hc Hm H. rewrite DFS_unfold in H.
  rewrite (proj2 (Z.eqb_neq _ _) H0), (proj2 (Z.eqb_neq _ _) H1) in H.
  step_in H. simpl in Hs. step_in Hs. injection Hs as -> ->.
  unfold traverse_from in H. simpl in H.
  do 3 step_in H. destruct x, x0.
  step_in Hs1. injection Hs1 as -> ->. step_in H. injection H as -> ->.
  destruct (unmark_all fuel a (buffers_reset s) s0 Lc Hc Hm Hs)
    as (Hsh & Hthis & Hnone).
  destruct (DFS_reach fuel) as [Hn _].
  destruct (Hn _ _ _ Hs0) as (l & (Hsh2 & _ & Ht & Hmk) & Hreach & Hclos).
  assert (same_shape s s0) as Hsh0.
  { eapply same_shape_trans; [apply (same_shape_graph s)|exact Hsh]. }
  exists (a :: l). split.
  { unfold trav in Ht. rewrite Ht, Hthis. done. }
  intros x. split.
  - intros Hx. apply (reach_shape s s0); [done|].
    apply elem_of_cons in Hx as [->|Hx]; [apply rtc_refl|by apply Hreach].
  - intros Hr. apply (reach_shape s s0) in Hr; [|done].
    revert x Hr. unfold reach.
    apply (rtc_ind_r (λ x, x ∈ a :: l)); [by left|].
    intros y z _ Hyz IH.
    specialize (Hclos y z IH Hyz). apply Hmk in Hclos as [Hold|Hin]; [|done].
    by apply Hnone in Hold.
Qed.

(** On a well-linked graph of two or more nodes in which every marked node
    is met from the start node by following [next], [DFS] from the start
    node returns exactly the nodes that can be reached from it along
    arcs, each once. *)
Theorem DFS_visits_reachable veq s a Lc :
  well_linked s →
  valid_ref (length (heads s)) (Graph._nodeList (Graph.this s)) →
  (a < length (heads s))%nat →
  Graph._size (Graph.this s) ≠ 0 → Graph._size (Graph.this s) ≠ 1 →
  chain (node_links s) (obj a) Lc →
  (∀ x N, GraphNode.nodes (Graph.store s) !! x = Some N →
          GraphNode._marked N = true → x ∈ Lc) →
  ∃ (fuel : nat) l,
    NoDup l ∧ (∀ x, x ∈ l ↔ reach s a x) ∧
    ∀ k : nat, ∃ s', Graph.DFS veq (fuel + k) (StartNode a) s = Ok (obj <$> l, s').
Proof.
  intros Hw Hv Ha H0 H1 Hc Hm.
  destruct (DFS_returns veq s (StartNode a) Hw Hv Ha) as (fuel & l & s' & E).
  destruct (DFS_exact veq fuel a s l s' Lc H0 H1 Hc Hm E) as (l' & -> & Hl').
  exists fuel, l'. split; [|split; [done|]].
  - apply (NoDup_fmap_1 obj). by eapply DFS_NoDup.
  - intros k. exists s'.
    assert (fuel ≤ fuel + k)%nat as Hle by lia.
    by apply (DFS_fuel veq fuel (fuel + k) _ Hle).
Qed.

(** *** Breadth-first *)

Lemma queues_refl s : queues s s [].
Proof.
  split; [done|]. split; [done|]. split; [by rewrite app_nil_r|].
  intros x. split; [by left|]. intros [?|Hin]; [done|].
  by apply not_elem_of_nil in Hin.
Qed.

Lemma queues_trans s1 s2 s3 l1 l2 :
  queues s1 s2 l1 → queues s2 s3 l2 → queues s1 s3 (l1 ++ l2).
Proof.
  intros (Hs1 & Ht1 & Hq1 & Hm1) (Hs2 & Ht2 & Hq2 & Hm2).
  split; [by eapply same_shape_trans|]. split; [congruence|].
  split; [by rewrite Hq2, Hq1, fmap_app, app_assoc|].
  intros x. rewrite Hm2, Hm1, elem_of_app. tauto.
Qed.

(** Marking a node and queueing it. *)
Lemma mark_queues a n s :
  GraphNode.nodes (Graph.store s) !! a = Some n →
  let s0 := put_node a (GraphNode.set_marked true n) s in
  queues s (Graph.mkState (Graph.store s0)
              (Graph.with_struct (Graph._struct (Graph.this s0) ++ [obj a])
                 (Graph.this s0))) [a].
Proof.
  intros Hn s0.
  destruct (mark_grows a n s Hn) as (Hsh & _ & _ & Hm).
  split; [|split; [done|split; [done|]]].
  - eapply same_shape_trans; [by apply set_marked_shape|]. apply same_shape_graph.
  - exact Hm.
Qed.

Lemma BFS_arcs_reach (fuel : nat) : ∀ arc s s',
  Graph.BFS_arcs fuel arc s = Ok (tt, s') →
  ∃ lb l, chain (arc_links s) arc lb ∧ queues s s' l ∧
    (∀ x, x ∈ l → ∃ b A, b ∈ lb ∧
          GraphNode.arcs (Graph.store s) !! b = Some A ∧ GraphArc.node A = obj x) ∧
    (∀ b A, b ∈ lb → GraphNode.arcs (Graph.store s) !! b = Some A →
            ∃ t, GraphArc.node A = obj t ∧ marked_in s' (obj t)).
Proof.
  induction fuel as [|fuel IH]; intros arc s s' H; [discriminate|].
  simpl in H. destruct (non_null arc) eqn:Harc.
  - do 4 step_in H.
    apply readArc_Ok in Hs as (-> & b & -> & HA).
    apply readNode_Ok in Hs0 as (-> & t & Ht & HN).
    assert (arc_links s !! b = Some (GraphArc.next x)) as Hnb.
    { unfold arc_links. by rewrite list_lookup_fmap, HA. }
    assert (∃ l1, queues s s2 l1 ∧ marked_in s2 (obj t) ∧ ∀ y, y ∈ l1 → y = t)
      as (l1 & Hg1 & Hmt & Hl1).
    { apply when_Ok in Hs1 as [[Hm Hrun]|[Hm [= -> ->]]].
      - step_in Hrun. destruct x3. rewrite Ht in Hs.
        apply updNode_Ok in Hs as (t' & n & [= <-] & Hn & ->).
        step_in Hrun. injection Hrun as -> ->. rewrite Ht.
        pose proof (mark_queues t n s Hn) as Hq. cbv zeta in Hq.
        exists [t]. split; [exact Hq|]. split.
        + destruct Hq as (_ & _ & _ & Hm1). apply Hm1. right. by left.
        + intros y Hy. by apply list_elem_of_singleton in Hy.
      - exists []. split; [apply queues_refl|]. split.
        + exists t, x0. split; [done|]. split; [done|].
          by apply negb_false_iff in Hm.
        + intros y Hy. by apply not_elem_of_nil in Hy. }
    pose proof Hg1 as (Hsh1 & _).
    pose proof (arc_links_shape _ _ Hsh1) as El.
    pose proof Hsh1 as (_ & _ & Ea).
    apply readArc_Ok in Hs2 as (-> & b' & [= <-] & HA').
    rewrite Ea, HA in HA'. injection HA' as <-.
    destruct (IH _ _ _ H) as (lb & l2 & Hc & Hg2 & Hr2 & Htg).
    exists (b :: lb), (l1 ++ l2).
    split. { apply (chain_step _ b (GraphArc.next x)); [done|]. by rewrite <- El. }
    split; [exact (queues_trans _ _ _ _ _ Hg1 Hg2)|]. split.
    + intros y Hy. apply elem_of_app in Hy as [Hy|Hy].
      * rewrite (Hl1 y Hy). exists b, x. split; [by left|done].
      * destruct (Hr2 y Hy) as (b2 & A2 & Hb2 & HA2 & Ht2).
        exists b2, A2. split; [by right|]. by rewrite <- Ea.
    + intros b2 A2 Hb2 HA2. apply elem_of_cons in Hb2 as [->|Hb2].
      * rewrite HA in HA2. injection HA2 as <-. exists t. split; [done|].
        destruct Hg2 as (_ & _ & _ & Hm2). apply Hm2. by left.
      * apply (Htg b2 A2 Hb2). by rewrite Ea.
  - step_in H. injection H as <-. exists [], [].
    split; [by constructor|]. split; [apply queues_refl|].
    split; intros; by match goal with
                      | H : _ ∈ [] |- _ => apply not_elem_of_nil in H
                      end.
Qed.

Lemma marked_in_store s s' r :
  Graph.store s' = Graph.store s → marked_in s' r ↔ marked_in s r.
Proof. unfold marked_in. by intros ->. Qed.

Lemma BFS_loop_reach (fuel : nat) s0 a : ∀ s s' T Q,
  bfs_inv s0 a s T Q → Graph.BFS_loop fuel s = Ok (tt, s') →
  ∃ T', bfs_inv s0 a s' T' [].
Proof.
  induction fuel as [|fuel IH]; intros s s' T Q HI H; [discriminate|].
  simpl in H. step_in H. step_in Hs. injection Hs as -> ->.
  pose proof HI as (Hsh & Ht & Hq & Hm & Ha & Hr & Hc).
  unfold queue in Hq.
  destruct (Graph._struct (Graph.this s)) as [|node rest] eqn:Hst.
  - step_in H. injection H as <-. exists T. by destruct Q.
  - destruct Q as [|x Q']; [done|]. injection Hq as -> ->.
    do 4 step_in H. step_in Hs. injection Hs as -> ->.
    step_in Hs0. injection Hs0 as -> ->.
    apply readNode_Ok in Hs1 as (-> & x' & [= <-] & HN). destruct x3.
    set (s1 := Graph.mkState _ _) in *.
    destruct (BFS_arcs_reach _ _ _ _ Hs2)
      as (lb & l & Hchain & (Hsh2 & Ht2 & Hq2 & Hm2) & Hl & Htg).
    assert (same_shape s0 s1) as Hsh1.
    { eapply same_shape_trans; [exact Hsh|]. apply same_shape_graph. }
    pose proof (arc_links_shape _ _ Hsh1) as El.
    pose proof Hsh1 as (_ & Eh & Ea).
    assert (heads s0 !! x = Some (GraphNode._arcList x2)) as Hh.
    { rewrite <- Eh. unfold heads. by rewrite list_lookup_fmap, HN. }
    apply (IH _ _ (T ++ [x]) (Q' ++ l)) in H; [done|].
    split; [by eapply same_shape_trans|]. split.
    { rewrite Ht2. unfold trav in *. simpl. by rewrite Ht, fmap_app. }
    split.
    { rewrite Hq2. unfold queue. simpl. by rewrite fmap_app. }
    split.
    { intros y. rewrite Hm2. rewrite (marked_in_store s s1) by done.
      rewrite Hm, !elem_of_app, !elem_of_cons, elem_of_nil. tauto. }
    split.
    { revert Ha. rewrite !elem_of_app, !elem_of_cons, elem_of_nil. tauto. }
    split.
    { intros y Hy.
      assert (y ∈ T ++ x :: Q' ∨ y ∈ l) as [Hold|Hnew].
      { revert Hy. rewrite !elem_of_app, !elem_of_cons, elem_of_nil. tauto. }
      - by apply Hr.
      - destruct (Hl y Hnew) as (b & A & Hb & HA & Hy').
        eapply rtc_r.
        + apply (Hr x). apply elem_of_app. right. by left.
        + exists (GraphNode._arcList x2), lb, b, A. rewrite <- El, <- Ea. done. }
    intros y z Hy Hyz. apply elem_of_app in Hy as [Hy|Hy].
    + apply Hm2. left. apply (marked_in_store s s1); [done|]. by apply (Hc y z).
    + apply list_elem_of_singleton in Hy as ->.
      destruct Hyz as (h & l' & b & A & Hh' & Hc' & Hb & HA & Hz).
      rewrite Hh in Hh'. injection Hh' as <-. rewrite <- El in Hc'.
      rewrite (chain_functional _ _ _ _ Hc' Hchain) in Hb.
      rewrite <- Ea in HA.
      destruct (Htg b A Hb HA) as (t & Ht' & Hmt). congruence.
Qed.

Lemma BFS_exact veq (fuel : nat) a s l s' Lc :
  Graph._size (Graph.this s) ≠ 0 → Graph._size (Graph.this s) ≠ 1 →
  chain (node_links s) (obj a) Lc →
  (∀ x N, GraphNode.nodes (Graph.store s) !! x = Some N →
          GraphNode._marked N = true → x ∈ Lc) →
  Graph.BFS veq fuel (StartNode a) s = Ok (l, s') →
  ∃ l', l = obj <$> l' ∧ ∀ x, x ∈ l' ↔ reach s a x.
Proof.
  intros H0 H1 Hc Hm H. rewrite BFS_unfold in H.
  rewrite (proj2 (Z.eqb_neq _ _) H0), (proj2 (Z.eqb_neq _ _) H1) in H.
  step_in H. simpl in Hs. step_in Hs. injection Hs as -> ->.
  unfold traverse_from in H. simpl in H.
  do 3 step_in H. destruct x, x0.
  step_in Hs1. injection Hs1 as -> ->. step_in H. injection H as -> ->.
  destruct (unmark_all fuel a (buffers_reset s) s0 Lc Hc Hm Hs)
    as (Hsh & Hthis & Hnone).
  assert (same_shape s s0) as Hsh0.
  { eapply same_shape_trans; [apply (same_shape_graph s)|exact Hsh]. }
  unfold Graph.__BFSTraversal in Hs0. do 2 step_in Hs0. destruct x.
  apply updNode_Ok in Hs1 as (a' & n & [= <-] & Hn & ->).
  step_in Hs2. injection Hs2 as -> ->.
  destruct (mark_queues a n s0 Hn) as (Hsh1 & Ht1 & Hq1 & Hm1).
  set (sq := Graph.mkState _ _) in *.
  destruct (BFS_loop_reach fuel s0 a sq s1 [] [a]) as (T' & HI); [|done|].
  { split; [done|]. split.
    { rewrite Ht1. unfold trav. by rewrite Hthis. }
    split.
    { rewrite Hq1. unfold queue. by rewrite Hthis. }
    split.
    { intros x. rewrite Hm1. simpl. split; [|by right].
      intros [Hold|?]; [|done]. by apply Hnone in Hold. }
    split; [by left|]. split.
    - intros x Hx. apply list_elem_of_singleton in Hx as ->. apply rtc_refl.
    - intros x y Hx. by apply not_elem_of_nil in Hx. }
  destruct HI as (_ & Ht & _ & Hmk & Ha & Hr & Hclos).
  rewrite app_nil_r in *.
  exists T'. split; [done|].
  intros x. split.
  - intros Hx. apply (reach_shape s s0); [done|]. by apply Hr.
  - intros Hx. apply (reach_shape s s0) in Hx; [|done].
    revert x Hx. unfold reach.
    apply (rtc_ind_r (λ x, x ∈ T')); [done|].
    intros y z _ Hyz IH. apply Hmk. by apply (Hclos y z).
Qed.

(** On a well-linked graph of two or more nodes in which every marked node
    is met from the start node by following [next], [BFS] from the start
    node returns exactly the nodes that can be reached from it along
    arcs, each once. *)
Theorem BFS_visits_reachable veq s a Lc :
  well_linked s →
  valid_ref (length (heads s)) (Graph._nodeList (Graph.this s)) →
  (a < length (heads s))%nat →
  Graph._size (Graph.this s) ≠ 0 → Graph._size (Graph.this s) ≠ 1 →
  chain (node_links s) (obj a) Lc →
  (∀ x N, GraphNode.nodes (Graph.store s) !! x = Some N →
          GraphNode._marked N = true → x ∈ Lc) →
  ∃ (fuel : nat) l,
    NoDup l ∧ (∀ x, x ∈ l ↔ reach s a x) ∧
    ∀ k : nat, ∃ s', Graph.BFS veq (fuel + k) (StartNode a) s = Ok (obj <$> l, s').
Proof.
  intros Hw Hv Ha H0 H1 Hc Hm.
  destruct (BFS_returns veq s (StartNode a) Hw Hv Ha) as (fuel & l & s' & E).
  destruct (BFS_exact veq fuel a s l s' Lc H0 H1 Hc Hm E) as (l' & -> & Hl').
  exists fuel, l'. split; [|split; [done|]].
  - apply (NoDup_fmap_1 obj). by eapply BFS_NoDup.
  - intros k. exists s'.
    assert (fuel ≤ fuel + k)%nat as Hle by lia.
    by apply (BFS_fuel veq fuel (fuel + k) _ Hle).
Qed.

End Reach.

(** ** Checking a given store *)

Section Checking.
Context {V : Type}.
Implicit Types (st : GraphNode.Store V) (s : Graph.State V).

Lemma walk_chain nexts (fuel : nat) : ∀ r l, walk fuel nexts r = Some l → chain nexts r l.
Proof.
  induction fuel as [|fuel IH]; intros r l H; [done|]. simpl in H.
  destruct r as [| |a]; try (injection H as <-; by constructor).
  destruct (nexts !! a) as [x|] eqn:E; [|done].
  destruct (walk fuel nexts x) as [l'|] eqn:E'; [|done].
  injection H as <-. econstructor; [done|by apply IH].
Qed.

Lemma ends_at_last l cursor :
  ends_at l cursor = true → ∀ t, last l = Some t → cursor = obj t.
Proof.
  unfold ends_at. intros H t Ht. rewrite Ht in H. by apply bool_decide_eq_true in H.
Qed.

Lemma arcs_list_of st a la : arcs_list st a = Some la → arcs_of st a la.
Proof.
  unfold arcs_list. destruct (GraphNode.nodes st !! a) as [N|] eqn:HN; [|done].
  destruct (walk _ _ _) as [l|] eqn:Hw; [|done].
  destruct (ends_at l _) eqn:He; [|done]. intros [= <-].
  exists N. split; [done|]. split; [by eapply walk_chain|by apply ends_at_last].
Qed.

Lemma NoDup_concat_disjoint (ls : list (list nat)) :
  NoDup (concat ls) →
  ∀ i j la lb, i ≠ j → ls !! i = Some la → ls !! j = Some lb → la ## lb.
Proof.
  induction ls as [|l ls IH]; intros Hnd i j la lb Hij Hi Hj; [done|].
  simpl in Hnd. apply NoDup_app in Hnd as (_ & Hd & Hnd).
  assert (∀ k lk, ls !! k = Some lk → ∀ x, x ∈ lk → x ∈ concat ls) as Hin.
  { intros k lk Hk x Hx. apply list_elem_of_In, in_concat. exists lk.
    split; apply list_elem_of_In; [by eapply list_elem_of_lookup_2|done]. }
  destruct i as [|i], j as [|j]; simplify_eq/=.
  - intros x Hx Hx'. eapply Hd; [done|]. by eapply Hin.
  - intros x Hx Hx'. eapply Hd; [done|]. by eapply Hin.
  - eapply (IH Hnd i j); [congruence|done..].
Qed.

Lemma store_okb_ok st : store_okb st = true → store_ok st.
Proof.
  unfold store_okb. destruct (mapM _ _) as [ls|] eqn:E; [|done].
  intros Hnd. apply bool_decide_eq_true in Hnd.
  apply mapM_Some in E.
  assert (∀ a la, arcs_of st a la → ls !! a = Some la) as Hls.
  { intros a la Ha. pose proof Ha as (N & HN & _).
    apply lookup_lt_Some in HN.
    destruct (Forall2_lookup_l _ _ _ a a E) as (la' & Hla' & Hl).
    { by apply lookup_seq. }
    apply arcs_list_of in Hl. by rewrite (arcs_of_functional _ _ _ _ Ha Hl). }
  split.
  - intros a Ha.
    destruct (Forall2_lookup_l _ _ _ a a E) as (la & _ & Hl); [by apply lookup_seq|].
    exists la. by apply arcs_list_of.
  - intros a b la lb Hab Ha Hb.
    by apply (NoDup_concat_disjoint ls Hnd a b); [|apply Hls..].
Qed.

Lemma graph_okb_ok s L : graph_okb s L = true → graph_ok s L.
Proof.
  unfold graph_okb. rewrite !andb_true_iff.
  intros [[[Hst Hw] He] Hsz]. split; [by apply store_okb_ok|].
  apply bool_decide_eq_true in Hw. apply Z.eqb_eq in Hsz.
  split; [by eapply walk_chain|]. split; [by apply ends_at_last|done].
Qed.

Lemma lists_of_store st ls :
  mapM (arcs_list st) (seq 0 (length (GraphNode.nodes st))) = Some ls →
  ∀ a la, arcs_of st a la → ls !! a = Some la.
Proof.
  intros E a la Ha. apply mapM_Some in E.
  pose proof Ha as (N & HN & _). apply lookup_lt_Some in HN.
  destruct (Forall2_lookup_l _ _ _ a a E) as (la' & Hla' & Hl).
  { by apply lookup_seq. }
  apply arcs_list_of in Hl. by rewrite (arcs_of_functional _ _ _ _ Ha Hl).
Qed.

Lemma backsb_backs prevs p l : backsb prevs p l = true → backs prevs p l.
Proof.
  revert p. induction l as [|y l IH]; intros p H; [done|].
  simpl in H. apply andb_true_iff in H as [Hy H].
  apply bool_decide_eq_true in Hy. split; [done|by apply IH].
Qed.

Lemma store_wfb_ok st : store_wfb st = true → store_wf st.
Proof.
  unfold store_wfb.
  destruct (mapM _ _) as [ls|] eqn:E; [|done].
  intros H. apply andb_true_iff in H as [Hnd Hall]. split.
  { apply store_okb_ok. unfold store_okb. by rewrite E. }
  intros a la Ha. pose proof (lists_of_store st ls E a la Ha) as Hla.
  rewrite forallb_forall in Hall.
  specialize (Hall la ltac:(apply list_elem_of_In; by eapply list_elem_of_lookup_2)).
  destruct la as [|h l]; [done|]. simpl in Hall.
  apply andb_true_iff in Hall as [Hh Hb]. split; [|by apply backsb_backs].
  destruct (arc_prevs st !! h) as [x|]; [|done]. exists x. split; [done|].
  destruct x as [| |g]; try done.
  apply andb_true_iff in Hh as [Hlt Hg].
  apply Nat.ltb_lt in Hlt. apply bool_decide_eq_true in Hg. split; [done|].
  intros a' la' Ha' Hin. apply Hg.
  apply list_elem_of_In, in_concat. exists la'.
  split; apply list_elem_of_In; [|done].
  eapply list_elem_of_lookup_2. by apply (lists_of_store st ls E a' la').
Qed.

End Checking.

(** ** The properties on small graphs *)

Lemma two_nodes_ok : graph_ok Cases.two_nodes [0; 1]%nat.
Proof. apply graph_okb_ok. vm_compute. reflexivity. Qed.

Lemma two_nodes_arcs :
  arcs_of (Graph.store Cases.two_nodes) 0 [] ∧
  arcs_of (Graph.store Cases.two_nodes) 1 [0%nat].
Proof. split; apply arcs_list_of; vm_compute; reflexivity. Qed.

Lemma spare_ok : graph_ok Cases.spare [0%nat].
Proof. apply graph_okb_ok. vm_compute. reflexivity. Qed.

Lemma arcCount_is_length_witness :
  GraphNode.arcCount 5 (obj 1) (Graph.store Cases.two_nodes)
  = Ok (1, Graph.store Cases.two_nodes).
Proof.
  apply (arcCount_is_length (Graph.store Cases.two_nodes) 1 [0%nat] 5).
  - apply two_nodes_arcs.
  - simpl. lia.
Defined.

Lemma getArc_is_first_witness :
  GraphNode.getArc 5 (obj 1) (obj 0) (Graph.store Cases.two_nodes)
  = Ok (obj 0, Graph.store Cases.two_nodes).
Proof.
  apply (getArc_is_first (Graph.store Cases.two_nodes) 1 [0%nat] (obj 0) 5).
  - apply two_nodes_arcs.
  - simpl. lia.
Defined.

Lemma connected_iff_target_witness :
  GraphNode.connected 5 (obj 1) (obj 0) (Graph.store Cases.two_nodes)
  = Ok (true, Graph.store Cases.two_nodes).
Proof.
  apply (connected_iff_target (Graph.store Cases.two_nodes) 1 [0%nat] (obj 0) 5).
  - apply two_nodes_arcs.
  - simpl. lia.
Defined.

Lemma mutuallyConnected_iff_both_witness :
  GraphNode.mutuallyConnected 5 (obj 1) (obj 0) (Graph.store Cases.two_nodes)
  = Ok (false, Graph.store Cases.two_nodes).
Proof.
  apply (mutuallyConnected_iff_both (Graph.store Cases.two_nodes) 1 [0%nat] 0 [] 5).
  - apply two_nodes_arcs.
  - apply two_nodes_arcs.
  - simpl. lia.
  - simpl. lia.
Defined.

Lemma addArc_appends_witness :
  ∃ st', GraphNode.addArc (obj 0) (obj 1) num_one (Graph.store Cases.two_nodes)
         = Ok (tt, st') ∧
         store_ok st' ∧ arcs_of st' 0 [1%nat] ∧ targets_of st' [1%nat] = [obj 1].
Proof.
  destruct (addArc_appends (Graph.store Cases.two_nodes) 0 [] (obj 1) num_one)
    as (st' & H1 & H2 & H3 & H4 & _).
  - apply two_nodes_ok.
  - apply two_nodes_arcs.
  - reflexivity.
  - exists st'. auto.
Defined.

Lemma addArc_then_connected_witness :
  ∃ st',
    (GraphNode.addArc (obj 0) (obj 1) num_one ;;; GraphNode.arcCount 5 (obj 0))
      (Graph.store Cases.two_nodes) = Ok (1, st') ∧
    (GraphNode.addArc (obj 0) (obj 1) num_one ;;; GraphNode.connected 5 (obj 0) (obj 1))
      (Graph.store Cases.two_nodes) = Ok (true, st').
Proof.
  apply (addArc_then_connected (Graph.store Cases.two_nodes) 0 [] 1 num_one 5).
  - apply two_nodes_ok.
  - apply two_nodes_arcs.
  - simpl. lia.
Defined.

Lemma toArray_is_node_list_witness :
  Graph.toArray 5 Cases.two_nodes = Ok ([obj 0; obj 1], Cases.two_nodes).
Proof.
  apply (toArray_is_node_list Cases.two_nodes [0; 1]%nat 5).
  - apply two_nodes_ok.
  - simpl. lia.
Defined.

Lemma findNode_is_first_witness :
  Graph.findNode String.eqb 5 (Some "B"%string) Cases.two_nodes
  = Ok (obj 1, Cases.two_nodes).
Proof.
  apply (findNode_is_first String.eqb Cases.two_nodes [0; 1]%nat (Some "B"%string) 5).
  - apply two_nodes_ok.
  - simpl. lia.
Defined.

Lemma contains_iff_value_witness :
  Graph.contains String.eqb 5 (Some "B"%string) Cases.two_nodes
  = Ok (true, Cases.two_nodes).
Proof.
  apply (contains_iff_value String.eqb Cases.two_nodes [0; 1]%nat (Some "B"%string) 5).
  - apply two_nodes_ok.
  - simpl. lia.
Defined.

Lemma addNode_appends_witness :
  ∃ s', Graph.addNode (obj 1) Cases.spare = Ok (tt, s') ∧ graph_ok s' [0; 1]%nat.
Proof.
  destruct (addNode_appends Cases.spare [0%nat] 1
              (GraphNode.constructor (Some "B"%string)))
    as (s' & H1 & H2 & _).
  - exact spare_ok.
  - reflexivity.
  - reflexivity.
  - apply (bool_decide_unpack _). vm_compute. exact I.
  - exists s'. auto.
Defined.

Lemma addNode_then_toArray_witness :
  ∃ s', (Graph.addNode (obj 1) ;;; Graph.toArray 5) Cases.spare
        = Ok ([obj 0; obj 1], s') ∧
        (Graph.addNode (obj 1) ;;; Graph.size) Cases.spare = Ok (2, s').
Proof.
  apply (addNode_then_toArray Cases.spare [0%nat] 1
           (GraphNode.constructor (Some "B"%string)) 5).
  - exact spare_ok.
  - reflexivity.
  - reflexivity.
  - apply (bool_decide_unpack _). vm_compute. exact I.
  - simpl. lia.
Defined.

Lemma addEdge_ignores_outsiders_witness :
  Graph.addEdge 10 (obj 5) (obj 0) num_one Cases.two_nodes = Ok (tt, Cases.two_nodes).
Proof.
  apply (addEdge_ignores_outsiders Cases.two_nodes [0; 1]%nat (obj 5) (obj 0) num_one 10).
  - apply two_nodes_ok.
  - simpl. lia.
  - left. apply (bool_decide_unpack _). vm_compute. exact I.
Defined.

Lemma addEdge_appends_witness :
  ∃ s', Graph.addEdge 10 (obj 0) (obj 1) num_one Cases.two_nodes = Ok (tt, s') ∧
        graph_ok s' [0; 1]%nat ∧ arcs_of (Graph.store s') 0 [1%nat].
Proof.
  destruct (addEdge_appends Cases.two_nodes [0; 1]%nat 0 1 [] num_one 10)
    as (s' & H1 & H2 & H3 & _).
  - exact two_nodes_ok.
  - by left.
  - by right; left.
  - apply two_nodes_arcs.
  - simpl. lia.
  - exists s'. auto.
Defined.

Lemma addEdge_then_connected_witness :
  ∃ s', (Graph.addEdge 10 (obj 0) (obj 1) num_one ;;;
         Graph.call (GraphNode.connected 5 (obj 0) (obj 1))) Cases.two_nodes
        = Ok (true, s').
Proof.
  apply (addEdge_then_connected Cases.two_nodes [0; 1]%nat 0 1 [] num_one 10 5).
  - exact two_nodes_ok.
  - by left.
  - by right; left.
  - apply two_nodes_arcs.
  - simpl. lia.
  - simpl. lia.
Defined.

Lemma addMutualEdge_appends_witness :
  ∃ s', Graph.addMutualEdge 10 (obj 0) (obj 1) num_one Cases.two_nodes = Ok (tt, s') ∧
        graph_ok s' [0; 1]%nat ∧
        arcs_of (Graph.store s') 0 [1%nat] ∧ arcs_of (Graph.store s') 1 [0; 2]%nat.
Proof.
  destruct (addMutualEdge_appends Cases.two_nodes [0; 1]%nat 0 1 [] [0%nat] num_one 10)
    as (s' & H1 & H2 & H3 & H4 & _).
  - exact two_nodes_ok.
  - by left.
  - by right; left.
  - done.
  - apply two_nodes_arcs.
  - apply two_nodes_arcs.
  - simpl. lia.
  - exists s'. auto.
Defined.

Lemma addMutualEdge_then_mutuallyConnected_witness :
  ∃ s', (Graph.addMutualEdge 10 (obj 0) (obj 1) num_one ;;;
         Graph.call (GraphNode.mutuallyConnected 5 (obj 0) (obj 1))) Cases.two_nodes
        = Ok (true, s').
Proof.
  apply (addMutualEdge_then_mutuallyConnected Cases.two_nodes [0; 1]%nat 0 1 []
           [0%nat] num_one 10 5).
  - exact two_nodes_ok.
  - by left.
  - by right; left.
  - done.
  - apply two_nodes_arcs.
  - apply two_nodes_arcs.
  - simpl. lia.
  - simpl. lia.
  - simpl. lia.
Defined.

Lemma clearMarks_unmarks_witness :
  ∃ s', Graph.clearMarks 5 Cases.two_nodes = Ok (tt, s') ∧
        Graph.this s' = Graph.this Cases.two_nodes.
Proof.
  destruct (clearMarks_unmarks Cases.two_nodes [0; 1]%nat 5) as (s' & H1 & H2 & _).
  - apply two_nodes_ok.
  - simpl. lia.
  - exists s'. auto.
Defined.

Lemma clearParent_changes_nothing_witness :
  Graph.clearParent 5 Cases.two_nodes = Ok (tt, Cases.two_nodes).
Proof.
  apply (clearParent_changes_nothing Cases.two_nodes [0; 1]%nat 5).
  - apply two_nodes_ok.
  - simpl. lia.
Defined.

Lemma clear_resets_graph_only_witness :
  Graph.clear 10 Cases.two_nodes
  = Ok (tt, Graph.mkState (Graph.store Cases.two_nodes) Graph.constructor).
Proof.
  apply (clear_resets_graph_only Cases.two_nodes [0; 1]%nat 10).
  - exact two_nodes_ok.
  - simpl. lia.
Defined.

Lemma two_arcs_wf : store_wf Cases.two_arcs_store.
Proof. apply store_wfb_ok. vm_compute. reflexivity. Qed.

Lemma two_arcs_list : arcs_of Cases.two_arcs_store 0 [0; 1]%nat.
Proof. apply arcs_list_of. vm_compute. reflexivity. Qed.

Lemma removeArc_unlinks_witness :
  ∃ st', GraphNode.removeArc 5 (obj 0) (obj 1) Cases.two_arcs_store = Ok (true, st') ∧
         store_wf st' ∧ arcs_of st' 0 [1%nat].
Proof.
  destruct (removeArc_unlinks Cases.two_arcs_store 0 [0; 1]%nat 1 5)
    as (st' & H1 & H2 & H3 & _).
  - exact two_arcs_wf.
  - exact two_arcs_list.
  - simpl. lia.
  - exists st'. split; [exact H1|]. split; [exact H2|exact H3].
Defined.

Lemma removeOutgoingArcs_empties_witness :
  ∃ st', GraphNode.removeOutgoingArcs 5 (obj 0) Cases.two_arcs_store = Ok (tt, st') ∧
         store_wf st' ∧ arcs_of st' 0 [].
Proof.
  destruct (removeOutgoingArcs_empties Cases.two_arcs_store 0 [0; 1]%nat 5)
    as (st' & H1 & H2 & H3 & _).
  - exact two_arcs_wf.
  - exact two_arcs_list.
  - intros b Hb. apply elem_of_cons in Hb as [->|Hb]; [reflexivity|].
    apply elem_of_cons in Hb as [->|Hb]; [reflexivity|].
    by apply not_elem_of_nil in Hb.
  - simpl. lia.
  - exists st'. auto.
Defined.

Lemma addArc_keeps_wf_witness :
  ∃ st', GraphNode.addArc (obj 1) (obj 2) num_one Cases.two_arcs_store = Ok (tt, st') ∧
         store_wf st'.
Proof.
  apply (addArc_keeps_wf Cases.two_arcs_store 1 [] (obj 2) num_one).
  - exact two_arcs_wf.
  - apply arcs_list_of. vm_compute. reflexivity.
  - reflexivity.
Defined.


Lemma two_nodes_unmarked x N :
  GraphNode.nodes (Graph.store Cases.two_nodes) !! x = Some N →
  GraphNode._marked N = true → x ∈ [1%nat].
Proof.
  destruct x as [|[|x]]; vm_compute; intros [= <-]; discriminate.
Qed.

Lemma two_nodes_from_1 : chain (node_links Cases.two_nodes) (obj 1) [1%nat].
Proof. apply (walk_chain _ 5). vm_compute. reflexivity. Qed.

Lemma DFS_visits_reachable_witness :
  ∃ (fuel : nat) l,
    NoDup l ∧ (∀ x, x ∈ l ↔ reach Cases.two_nodes 1 x) ∧
    ∀ k : nat, ∃ s', Graph.DFS String.eqb (fuel + k) (StartNode 1) Cases.two_nodes
                     = Ok (obj <$> l, s').
Proof.
  apply (DFS_visits_reachable String.eqb Cases.two_nodes 1 [1%nat]).
  - exact two_nodes_well_linked.
  - vm_compute. lia.
  - vm_compute. lia.
  - vm_compute. discriminate.
  - vm_compute. discriminate.
  - exact two_nodes_from_1.
  - exact two_nodes_unmarked.
Defined.

Lemma BFS_visits_reachable_witness :
  ∃ (fuel : nat) l,
    NoDup l ∧ (∀ x, x ∈ l ↔ reach Cases.two_nodes 1 x) ∧
    ∀ k : nat, ∃ s', Graph.BFS String.eqb (fuel + k) (StartNode 1) Cases.two_nodes
                     = Ok (obj <$> l, s').
Proof.
  apply (BFS_visits_reachable String.eqb Cases.two_nodes 1 [1%nat]).
  - exact two_nodes_well_linked.
  - vm_compute. lia.
  - vm_compute. lia.
  - vm_compute. discriminate.
  - vm_compute. discriminate.
  - exact two_nodes_from_1.
  - exact two_nodes_unmarked.
Defined.

Lemma remove_only_counts_witness :
  Graph.remove String.eqb 5 (Some "A"%string) Cases.two_nodes
  = Ok (true, Graph.mkState (Graph.store Cases.two_nodes)
                (Graph.with_size 1 (Graph.this Cases.two_nodes))).
Proof.
  apply (remove_only_counts String.eqb Cases.two_nodes [0; 1]%nat (Some "A"%string) 5).
  - apply two_nodes_ok.
  - intros a N Ha. apply elem_of_cons in Ha as [->|Ha].
    { vm_compute. intros [= <-]. reflexivity. }
    apply elem_of_cons in Ha as [->|Ha].
    { vm_compute. intros [= <-]. discriminate. }
    by apply not_elem_of_nil in Ha.
  - simpl. lia.
Defined.

Lemma two_nodes_back_linked : nodes_back_linked Cases.two_nodes [0; 1]%nat.
Proof.
  split; [exists null; split; [vm_compute; reflexivity|done]|].
  split; [vm_compute; reflexivity|done].
Qed.

Lemma removeNode_unlinks_node_witness :
  ∃ s', Graph.removeNode 1 (obj 0) Cases.two_nodes = Ok (tt, s') ∧
        chain (node_nexts (Graph.store s')) (Graph._nodeList (Graph.this s')) [1%nat] ∧
        Graph._size (Graph.this s') = 1 ∧
        nodes_back_linked s' [1%nat].
Proof.
  destruct (GraphNode.nodes (Graph.store Cases.two_nodes) !! 0%nat) as [N|] eqn:HN;
    [|discriminate].
  destruct (removeNode_unlinks_node Cases.two_nodes [] 0 [1%nat] N 0)
    as (s' & H1 & H2 & _ & H4 & H5 & _).
  - apply two_nodes_ok.
  - exact two_nodes_back_linked.
  - exact HN.
  - vm_compute in HN. injection HN as <-. reflexivity.
  - exists s'. auto.
Defined.
